(** * erela.js — structures/Utils.ts

    A shallow embedding of the utilities of [src/structures/Utils.ts]:
    the duration codec ([Utils.formatTime], [Utils.parseTime]), the track
    builder and its capability tags ([TrackUtils]), the closest-track
    resolver and the structure registry ([Structure]).

    Conventions of the embedding:
    - a JavaScript number that holds a duration or a counter is an integer
      ([Z]).  The source computes in binary64, which is exact on the
      integers up to 2^53 - 1;
    - a JavaScript string is a [string] over 8-bit characters, read as the
      code units U+0000 to U+00FF; case mapping, the classes [\d], [\s]
      and the case folding of regular expressions are those of JavaScript
      on these characters;
    - a thrown exception is the [Throw] case of [outcome]. *)

From Stdlib Require Import ZArith String Ascii List Lia Bool.
From Stdlib Require Import DecimalString DecimalFacts DecimalPos DecimalN.
From stdpp Require Import base option list gmap strings.

Local Open Scope string_scope.
Local Open Scope Z_scope.

(** ** JavaScript strings *)

Module JsString.

Definition is_digit (c : ascii) : bool :=
  let n := N_of_ascii c in (48 <=? n)%N && (n <=? 57)%N.

Definition not_digit (c : ascii) : bool := negb (is_digit c).

Definition is_dot (c : ascii) : bool := Ascii.eqb c ".".

(** The class [\s]: tab, line feed, vertical tab, form feed, carriage
    return, space and the no-break space U+00A0. *)
Definition is_whitespace (c : ascii) : bool :=
  let n := N_of_ascii c in
  ((9 <=? n)%N && (n <=? 13)%N) || (n =? 32)%N || (n =? 160)%N.

(** The lower-case form of a character: of A to Z, and of the letters
    U+00C0 to U+00DE but the sign U+00D7. *)
Definition lower_char (c : ascii) : ascii :=
  let n := N_of_ascii c in
  if ((65 <=? n)%N && (n <=? 90)%N)
     || ((192 <=? n)%N && (n <=? 222)%N && negb (n =? 215)%N)
  then ascii_of_N (n + 32) else c.

Fixpoint toLowerCase (s : string) : string :=
  match s with
  | EmptyString => EmptyString
  | String c r => String (lower_char c) (toLowerCase r)
  end.

Fixpoint startsWith (s p : string) : bool :=
  match p, s with
  | EmptyString, _ => true
  | String _ _, EmptyString => false
  | String a p', String b s' => Ascii.eqb a b && startsWith s' p'
  end.

Fixpoint includes (s sub : string) : bool :=
  startsWith s sub ||
  match s with
  | EmptyString => false
  | String _ r => includes r sub
  end.

Fixpoint drop (n : nat) (s : string) : string :=
  match n, s with
  | O, _ => s
  | S _, EmptyString => EmptyString
  | S k, String _ r => drop k r
  end.

Fixpoint take (n : nat) (s : string) : string :=
  match n, s with
  | O, _ => EmptyString
  | S _, EmptyString => EmptyString
  | S k, String c r => String c (take k r)
  end.

Definition endsWith (s suf : string) : bool :=
  (String.length suf <=? String.length s)%nat &&
  String.eqb (drop (String.length s - String.length suf) s) suf.

(** [s.slice(from, to)] for indices already clamped to the length. *)
Definition slice (s : string) (from to : nat) : string :=
  take (to - from) (drop from s).

(** [s.slice(0, -1)] *)
Definition dropLast (s : string) : string :=
  take (String.length s - 1) s.

(** [s.lastIndexOf(c)] for a one-character needle; [None] stands for -1. *)
Fixpoint lastIndexOf (s : string) (c : ascii) : option nat :=
  match s with
  | EmptyString => None
  | String a r =>
      match lastIndexOf r c with
      | Some i => Some (S i)
      | None => if Ascii.eqb a c then Some O else None
      end
  end.

(** [s.split(c)] for a one-character separator. *)
Fixpoint split_char (c : ascii) (s : string) : list string :=
  match s with
  | EmptyString => [EmptyString]
  | String a r =>
      if Ascii.eqb a c then EmptyString :: split_char c r
      else match split_char c r with
           | [] => [String a EmptyString]
           | w :: ws => String a w :: ws
           end
  end.

(** The longest prefix of [s] whose characters satisfy [p], and the rest. *)
Fixpoint span (p : ascii -> bool) (s : string) : string * string :=
  match s with
  | EmptyString => (EmptyString, EmptyString)
  | String a r =>
      if p a then let '(x, y) := span p r in (String a x, y)
      else (EmptyString, s)
  end.

(** [s.split(/\s+/)]: the pieces between maximal runs of whitespace. *)
Fixpoint split_ws_go (fuel : nat) (s : string) : list string :=
  match fuel with
  | O => [s]
  | S f =>
      let '(w, r) := span (fun c => negb (is_whitespace c)) s in
      match r with
      | EmptyString => [w]
      | String _ _ => w :: split_ws_go f (snd (span is_whitespace r))
      end
  end.

Definition split_ws (s : string) : list string :=
  split_ws_go (String.length s) s.

(** [parts.join(sep)] *)
Fixpoint join (sep : string) (parts : list string) : string :=
  match parts with
  | [] => EmptyString
  | [x] => x
  | x :: rest => x ++ sep ++ join sep rest
  end.

Fixpoint all_chars (p : ascii -> bool) (s : string) : bool :=
  match s with
  | EmptyString => true
  | String a r => p a && all_chars p r
  end.

(** [/^\d+$/.test(s)] *)
Definition is_digits (s : string) : bool :=
  match s with
  | EmptyString => false
  | String _ _ => all_chars is_digit s
  end.

(** Template-literal conversion of an integer: decimal digits, with a
    leading minus sign below zero. *)
Definition of_number (n : Z) : string :=
  NilZero.string_of_int (Z.to_int n).

Definition digit_value (c : ascii) : Z := Z.of_N (N_of_ascii c) - 48.

(** The digits [parseInt] reads, as the integer they spell.  JavaScript
    returns the binary64 number nearest to it: the same value as long as
    it is at most [2^53 - 1]. *)
Fixpoint parseInt_go (s : string) (acc : Z) : Z :=
  match s with
  | EmptyString => acc
  | String c r =>
      if is_digit c then parseInt_go r (10 * acc + digit_value c) else acc
  end.

(** [parseInt(s, 10)] on a string that starts with a digit: the value of
    its leading run of digits.  [None] stands for [NaN]. *)
Definition parseInt (s : string) : option Z :=
  match s with
  | EmptyString => None
  | String c _ => if is_digit c then Some (parseInt_go s 0) else None
  end.

End JsString.

(** ** Regular expressions of the shape used by [parseTime]

    Every pattern of the source is a sequence of greedy quantified character
    classes ([\d+], [\.*], [\d*], [\D+]).  The matcher backtracks as the
    JavaScript engine does: each class first takes the longest run it can
    and gives characters back one at a time while the rest fails. *)

Module Regex.
Import JsString.

Record atom := Atom { cls : ascii -> bool; least : nat }.

Definition plus (p : ascii -> bool) : atom := Atom p 1.
Definition star (p : ascii -> bool) : atom := Atom p 0.

(** Try to give the class [k] characters, then [k-1], ... down to [least];
    [cont] matches the rest of the pattern and returns the length it used. *)
Fixpoint greedy (cont : string -> option nat) (least : nat)
         (s : string) (k : nat) : option nat :=
  if (k <? least)%nat then None
  else match cont (drop k s) with
       | Some l => Some (k + l)%nat
       | None => match k with
                 | O => None
                 | S k' => greedy cont least s k'
                 end
       end.

(** Length of the match of [pat] anchored at the start of [s]. *)
Fixpoint match_here (pat : list atom) (s : string) : option nat :=
  match pat with
  | [] => Some O
  | a :: pat' =>
      greedy (match_here pat') (least a) s
             (String.length (fst (span (cls a) s)))
  end.

(** Leftmost match in [s], whose first character has index [i] in the
    whole subject: start index and length. *)
Fixpoint search (pat : list atom) (s : string) (i : nat) : option (nat * nat) :=
  match match_here pat s with
  | Some l => Some (i, l)
  | None => match s with
            | EmptyString => None
            | String _ r => search pat r (S i)
            end
  end.

(** [regex.exec(subject)] for a global regex whose [lastIndex] is given:
    the match (index and text) and the new [lastIndex]. *)
Definition exec (pat : list atom) (subject : string) (lastIndex : nat)
  : option (nat * string) * nat :=
  if (String.length subject <? lastIndex)%nat then (None, O)
  else match search pat (drop lastIndex subject) lastIndex with
       | Some (i, l) => (Some (i, slice subject i (i + l)), (i + l)%nat)
       | None => (None, O)
       end.

(** [subject.match(regex)[0]] for a regex without the global flag. *)
Definition first_match (pat : list atom) (subject : string) : option string :=
  match search pat subject O with
  | Some (i, l) => Some (slice subject i (i + l))
  | None => None
  end.

End Regex.

(** ** The duration codec: [Utils.formatTime] and [Utils.parseTime] *)

Module Utils.
Import JsString Regex.

Definition template : list string :=
  ["second"; "minute"; "hour"; "day"; "week"; "month"; "year"].

Record times := Times {
  years : Z; months : Z; weeks : Z; days : Z;
  hours : Z; minutes : Z; seconds : Z
}.

Definition zero_times : times := Times 0 0 0 0 0 0 0.

(** [Object.entries(times)], in the order the literal lists its keys. *)
Definition entries (t : times) : list (string * Z) :=
  [("years", years t); ("months", months t); ("weeks", weeks t);
   ("days", days t); ("hours", hours t); ("minutes", minutes t);
   ("seconds", seconds t)].

(** [Math.round(a / b)] for integers [a] and [b > 0]: the nearest integer,
    halves going up. *)
Definition round_div (a b : Z) : Z := (2 * a + b) / (2 * b).

(** One turn of the [while (milliseconds > 0)] loop, on an integer number
    of milliseconds.  The subtractions are those of integers, which is
    what JavaScript computes for values up to [2^53 - 1]. *)
Definition decompose_step (ms : Z) (t : times) : Z * times :=
  if ms - 31557600000 >=? 0 then
    (ms - 31557600000,
     Times (years t + 1) (months t) (weeks t) (days t) (hours t) (minutes t) (seconds t))
  else if ms - 2628000000 >=? 0 then
    (ms - 2628000000,
     Times (years t) (months t + 1) (weeks t) (days t) (hours t) (minutes t) (seconds t))
  else if ms - 604800000 >=? 0 then
    (ms - 604800000,
     Times (years t) (months t) (weeks t + 7) (days t) (hours t) (minutes t) (seconds t))
  else if ms - 86400000 >=? 0 then
    (ms - 86400000,
     Times (years t) (months t) (weeks t) (days t + 1) (hours t) (minutes t) (seconds t))
  else if ms - 3600000 >=? 0 then
    (ms - 3600000,
     Times (years t) (months t) (weeks t) (days t) (hours t + 1) (minutes t) (seconds t))
  else if ms - 60000 >=? 0 then
    (ms - 60000,
     Times (years t) (months t) (weeks t) (days t) (hours t) (minutes t + 1) (seconds t))
  else
    (0,
     Times (years t) (months t) (weeks t) (days t) (hours t) (minutes t)
           (round_div ms 1000)).

(** The loop itself; [None] when the fuel runs out before the loop exits. *)
Fixpoint decompose (fuel : nat) (ms : Z) (t : times) : option times :=
  if ms >? 0 then
    match fuel with
    | O => None
    | S f => let '(ms', t') := decompose_step ms t in decompose f ms' t'
    end
  else Some t.

(** Turns that are enough for [ms]: at most one per year, then fewer than
    12 months, 5 weeks, 7 days, 24 hours, 60 minutes and one for the
    seconds. *)
Definition decompose_fuel (ms : Z) : nat :=
  (Z.to_nat (ms / 31557600000) + 110)%nat.

Definition pad2 (v : Z) : string :=
  if v <? 10 then "0" ++ of_number v else of_number v.

Definition unit_phrase (k : string) (v : Z) : string :=
  of_number v ++ " " ++ (if v >? 1 then k else dropLast k).

(** The body of the [for ... of Object.entries(times)] loop, on the pair
    ([finalTime], [first]). *)
Definition render_entry (minimal : bool) (acc : list string * bool)
           (kv : string * Z) : list string * bool :=
  let '(finalTime, first) := acc in
  let '(k, v) := kv in
  if minimal then
    if (v =? 0) && negb first then acc
    else ((finalTime ++ [pad2 v])%list, true)
  else if v >? 0 then ((finalTime ++ [unit_phrase k v])%list, first)
  else acc.

Definition render (minimal : bool) (t : times) : string :=
  let finalTime := fst (fold_left (render_entry minimal) (entries t) ([], false)) in
  let finalTime :=
    if minimal && (length finalTime =? 1)%nat then "00" :: finalTime
    else finalTime in
  let time := join (if minimal then ":" else ", ") finalTime in
  if includes time "," then
    match lastIndexOf time "," with
    | Some pos =>
        slice time 0 pos ++ " and " ++ slice time (pos + 1) (String.length time)
    | None => time
    end
  else time.

(** [Utils.formatTime(milliseconds, minimal)] on a number and a boolean. *)
Definition formatTime (milliseconds : Z) (minimal : bool) : string :=
  if milliseconds =? 0 then (if minimal then "00:00" else "N/A")
  else match decompose (decompose_fuel milliseconds) milliseconds zero_times with
       | Some t => render minimal t
       | None => EmptyString
       end.

(** [/\d+\.*\d*\D+/g] *)
Definition token_regex : list atom :=
  [plus is_digit; star is_dot; star is_digit; plus not_digit].

(** [/\d+\.*\d*/] *)
Definition number_regex : list atom :=
  [plus is_digit; star is_dot; star is_digit].

(** [/\D+/] *)
Definition letters_regex : list atom := [plus not_digit].

(** [(local.match(/\D+/) as string[])[0].length === 1]; a token always
    holds a non-digit, so the match is never null. *)
Definition one_letter (local : string) : bool :=
  match first_match letters_regex local with
  | Some m => (String.length m =? 1)%nat
  | None => false
  end.

(** [parseInt((local.match(/\d+\.*\d*/) as string[])[0], 10)]; a token
    starts with a digit, so neither null nor NaN arises. *)
Definition token_number (local : string) : Z :=
  match first_match number_regex local with
  | Some m => match parseInt m with Some n => n | None => 0 end
  | None => 0
  end.

(** The [if ... else if ...] chain of the token loop: what one token adds
    to [duration]. *)
Definition token_millis (local : string) : Z :=
  if endsWith local "seconds" || endsWith local "second"
     || (endsWith local "s" && one_letter local)
  then token_number local * 1000
  else if endsWith local "minutes" || endsWith local "minute"
          || (endsWith local "m" && one_letter local)
  then token_number local * 60000
  else if endsWith local "hours" || endsWith local "hour"
          || (endsWith local "h" && one_letter local)
  then token_number local * 3600000
  else if endsWith local "days" || endsWith local "day"
          || (endsWith local "d" && one_letter local)
  then token_number local * 86400000
  else if endsWith local "weeks" || endsWith local "week"
          || (endsWith local "w" && one_letter local)
  then token_number local * 604800000
  else if endsWith local "months" || endsWith local "month"
  then token_number local * 2628000000
  else if endsWith local "years" || endsWith local "year"
          || (endsWith local "y" && one_letter local)
  then token_number local * 31557600000
  else 0.

(** The [while ((res = regex.exec(time)) !== null)] loop; [None] when the
    fuel runs out before [exec] returns null. *)
Fixpoint parse_loop (fuel : nat) (time : string) (lastIndex : nat)
         (duration : Z) : option Z :=
  match fuel with
  | O => None
  | S f =>
      match exec token_regex time lastIndex with
      | (None, _) => Some duration
      | (Some (index, text), lastIndex') =>
          let lastIndex' :=
            if (index =? lastIndex')%nat then S lastIndex' else lastIndex' in
          parse_loop f time lastIndex' (duration + token_millis (toLowerCase text))
      end
  end.

(** [v + template[i]]; past the end of [template] the index yields
    [undefined], which concatenates as the word. *)
Definition with_unit (i : nat) (v : string) : string :=
  v ++ match template !! i with Some u => u | None => "undefined" end.

(** The three rewritings of [time] before the token loop. *)
Definition normalise (time : string) : string :=
  let time :=
    if includes time ":"
    then join EmptyString (imap with_unit (rev (split_char ":" time)))
    else time in
  let time :=
    if includes time " " then join EmptyString (split_ws time) else time in
  if is_digits time then time ++ "seconds" else time.

(** [Utils.parseTime(time)]; [None] is [null]. *)
Definition parseTime (time : string) : option Z :=
  let time := normalise time in
  match parse_loop (S (String.length time)) time 0 0 with
  | Some duration => if duration =? 0 then None else Some duration
  | None => None
  end.

End Utils.

(** ** JavaScript values, objects and the heap *)

Module Js.
Import JsString.

(** The two module-private symbols. *)
Inductive symbol := TRACK_SYMBOL | UNRESOLVED_TRACK_SYMBOL.

Inductive key := KStr (name : string) | KSym (y : symbol).

Inductive value :=
| VUndefined
| VNull
| VBool (b : bool)
| VNum (n : Z)
| VStr (s : string)
| VFun (name : string)
| VRef (l : nat).

(** A data property with its attributes. *)
Record property := Property {
  p_value : value;
  writable : bool;
  enumerable : bool;
  configurable : bool
}.

(** What a literal, an assignment to a new key or a spread creates. *)
Definition plain (v : value) : property := Property v true true true.

(** Own properties, in creation order. *)
Definition object := list (key * property).

Inductive cell := CObject (o : object) | CArray (elems : list value).

(** The heap: the cell at index [l] is the object of address [l]. *)
Abbreviation heap := (list cell).

Inductive Severity := COMMON | SUSPICIOUS | FAULT.

Record Exception := MkException {
  message : string;
  severity : Severity;
  cause : option string
}.

Inductive error :=
| Error (msg : string)
| RangeError (msg : string)
| TypeError (msg : string)
| ThrownException (e : Exception).

Inductive outcome (A : Type) :=
| Ok (a : A)
| Throw (e : error).
Arguments Ok {A} a.
Arguments Throw {A} e.

(** The double quote, for the messages that hold one. *)
Definition dq : string := String (ascii_of_N 34) EmptyString.

(** [error.message] *)
Definition error_message (e : error) : string :=
  match e with
  | Error msg | RangeError msg | TypeError msg => msg
  | ThrownException e => message e
  end.

Definition bind {A B} (m : outcome A) (f : A -> outcome B) : outcome B :=
  match m with
  | Ok a => f a
  | Throw e => Throw e
  end.

Definition symbol_eqb (a b : symbol) : bool :=
  match a, b with
  | TRACK_SYMBOL, TRACK_SYMBOL => true
  | UNRESOLVED_TRACK_SYMBOL, UNRESOLVED_TRACK_SYMBOL => true
  | _, _ => false
  end.

Definition key_eqb (a b : key) : bool :=
  match a, b with
  | KStr x, KStr y => String.eqb x y
  | KSym x, KSym y => symbol_eqb x y
  | _, _ => false
  end.

Definition is_name (k : key) : bool :=
  match k with KStr _ => true | KSym _ => false end.

(** The own property of [o] under [k]. *)
Fixpoint own (k : key) (o : object) : option property :=
  match o with
  | [] => None
  | (k', p) :: r => if key_eqb k k' then Some p else own k r
  end.

(** [o[k]] on an object: none of the keys this module reads is inherited,
    so a key that is not an own property reads as [undefined]. *)
Definition read (o : object) (k : key) : value :=
  match own k o with
  | Some p => p_value p
  | None => VUndefined
  end.

(** Replace the property under [k] where it stands, or add it at the end. *)
Fixpoint put (k : key) (p : property) (o : object) : object :=
  match o with
  | [] => [(k, p)]
  | (k', p') :: r =>
      if key_eqb k k' then (k, p) :: r else (k', p') :: put k p r
  end.

Definition remove (k : key) (o : object) : object :=
  List.filter (fun kp => negb (key_eqb k (fst kp))) o.

(** [Object.keys(o)]: the enumerable own string keys. *)
Definition keys (o : object) : list string :=
  flat_map (fun kp => match kp with
                      | (KStr n, p) => if enumerable p then [n] else []
                      | _ => []
                      end) o.

(** [Object.getOwnPropertyNames(o)]: every own string key, enumerable or
    not; symbol keys are not names. *)
Definition getOwnPropertyNames (o : object) : list string :=
  flat_map (fun kp => match fst kp with KStr n => [n] | KSym _ => [] end) o.

(** The own enumerable properties, string keys before symbol keys: what a
    spread and [Object.assign] copy. *)
Definition enumerable_own (o : object) : list (key * value) :=
  let vis := List.filter (fun kp => enumerable (snd kp)) o in
  map (fun kp => (fst kp, p_value (snd kp)))
      (List.filter (fun kp => is_name (fst kp)) vis ++
       List.filter (fun kp => negb (is_name (fst kp))) vis)%list.

(** [delete o[k]] in strict code: a property that is not configurable
    makes it throw. *)
Definition delete_property (k : key) (o : object) : outcome object :=
  match own k o with
  | Some p =>
      if configurable p then Ok (remove k o)
      else Throw (TypeError "Cannot delete property")
  | None => Ok o
  end.

(** [o[k] = v] as [Object.assign] performs it: a new key becomes a plain
    property, an own writable one takes the value, a read-only one
    throws. *)
Definition assign_key (k : key) (v : value) (o : object) : outcome object :=
  match own k o with
  | Some p =>
      if writable p
      then Ok (put k (Property v true (enumerable p) (configurable p)) o)
      else Throw (TypeError "Cannot assign to read only property")
  | None => Ok (put k (plain v) o)
  end.

(** [{ ...o, ...src }]: every copied key is (re)created as a plain
    property. *)
Definition spread (o : object) (src : list (key * value)) : object :=
  fold_left (fun acc kv => put (fst kv) (plain (snd kv)) acc) src o.

(** [Object.defineProperty(o, k, { configurable: true, value: true })].
    On a new key the attributes left out are false; on an own
    configurable key they stay as they are. *)
Definition define_tag (k : key) (o : object) : outcome object :=
  match own k o with
  | None => Ok (put k (Property (VBool true) false false true) o)
  | Some p =>
      if configurable p
      then Ok (put k (Property (VBool true) (writable p) (enumerable p) true) o)
      else Throw (TypeError "Cannot redefine property")
  end.

(** Truthiness. *)
Definition truthy (v : value) : bool :=
  match v with
  | VUndefined | VNull => false
  | VBool b => b
  | VNum n => negb (n =? 0)
  | VStr s => negb (String.eqb s EmptyString)
  | VFun _ | VRef _ => true
  end.

(** [v === true] *)
Definition is_true (v : value) : bool :=
  match v with VBool true => true | _ => false end.

(** [typeof v === "string"] *)
Definition is_string (v : value) : bool :=
  match v with VStr _ => true | _ => false end.

(** Conversion to a string, as a template literal, [join] and
    [RegExp.prototype.test] perform it.  The last case is that of a plain
    object; by the interfaces of the module the values converted are
    strings or absent. *)
Definition to_string (v : value) : string :=
  match v with
  | VUndefined => "undefined"
  | VNull => "null"
  | VBool true => "true"
  | VBool false => "false"
  | VNum n => of_number n
  | VStr s => s
  | VFun _ | VRef _ => "[object Object]"
  end.

(** [v[k]] for the keys this module reads (the two tags and the fields of
    a track): reading from [undefined] or [null] throws; primitives,
    functions and arrays carry none of these keys. *)
Definition get (h : heap) (v : value) (k : key) : outcome value :=
  match v with
  | VUndefined | VNull =>
      Throw (TypeError "Cannot read properties of undefined or null")
  | VRef l =>
      match h !! l with
      | Some (CObject o) => Ok (read o k)
      | _ => Ok VUndefined
      end
  | _ => Ok VUndefined
  end.

(** [Array.isArray(v)], with the elements. *)
Definition as_array (h : heap) (v : value) : option (list value) :=
  match v with
  | VRef l => match h !! l with
              | Some (CArray elems) => Some elems
              | _ => None
              end
  | _ => None
  end.

(** [new] object: the next free address. *)
Definition alloc (h : heap) (c : cell) : nat * heap :=
  (length h, (h ++ [c])%list).

End Js.

(** ** [TrackUtils] *)

Module TrackUtils.
Import JsString Js.

Inductive LoadType :=
| TRACK_LOADED | PLAYLIST_LOADED | SEARCH_RESULT | LOAD_FAILED | NO_MATCHES.

(** What [manager.search] resolves to: the candidates are the track
    objects the provider hands over. *)
Record SearchResult := MkSearchResult {
  loadType : LoadType;
  tracks : list object;
  exception : option Exception
}.

(** The [Manager], of which only [search(query, requester)] is used; a
    rejected promise is a [Throw]. *)
Record Manager := MkManager {
  search : string -> value -> outcome SearchResult
}.

Record TrackDataInfo := MkInfo {
  i_title : string;
  i_identifier : string;
  i_author : string;
  i_length : Z;
  i_isSeekable : bool;
  i_isStream : bool;
  i_uri : string
}.

Record TrackData := MkTrackData {
  d_track : string;
  d_info : TrackDataInfo
}.

(** The static fields of the class and the objects it has created. *)
Record state := State {
  heap : list cell;
  trackPartial : value;
  manager : option Manager
}.

Definition initial : state := State [] VNull None.

(** [TrackUtils.init(manager)] *)
Definition init (st : state) (m : Manager) : state :=
  State (heap st) (trackPartial st) (Some m).

(** [partial.includes(name)] on an array. *)
Definition array_includes (elems : list value) (name : string) : bool :=
  existsb (fun v => match v with VStr s => String.eqb s name | _ => false end)
          elems.

(** [TrackUtils.setTrackPartial(partial)]: the array of the caller is
    changed in place by [unshift] and kept by reference. *)
Definition setTrackPartial (st : state) (partial : value)
  : outcome unit * state :=
  match as_array (heap st) partial, partial with
  | Some elems, VRef l =>
      if forallb is_string elems then
        let elems' :=
          if array_includes elems "track" then elems
          else VStr "track" :: elems in
        (Ok tt, State (<[l := CArray elems']> (heap st)) partial (manager st))
      else
        (Throw (Error "Provided partial is not an array or not a string array."), st)
  | _, _ =>
      (Throw (Error "Provided partial is not an array or not a string array."), st)
  end.

(** [(a || b)] where both are reads of a tag of [v]. *)
Definition either_tag (h : list cell) (v : value) : outcome value :=
  bind (get h v (KSym TRACK_SYMBOL)) (fun a =>
  if truthy a then Ok a else get h v (KSym UNRESOLVED_TRACK_SYMBOL)).

(** The [for (const track of trackOrTracks)] loop of [validate]. *)
Fixpoint validate_each (h : list cell) (elems : list value) : outcome bool :=
  match elems with
  | [] => Ok true
  | track :: rest =>
      bind (either_tag h track) (fun t =>
      if negb (truthy t) then Ok false else validate_each h rest)
  end.

(** [TrackUtils.validate(trackOrTracks)] *)
Definition validate (h : list cell) (trackOrTracks : value) : outcome bool :=
  match trackOrTracks with
  | VUndefined => Throw (RangeError "Provided argument must be present.")
  | _ =>
      match as_array h trackOrTracks with
      | Some (e :: es) => validate_each h (e :: es)
      | _ => bind (either_tag h trackOrTracks) (fun t => Ok (is_true t))
      end
  end.

(** [TrackUtils.isUnresolvedTrack(track)] *)
Definition isUnresolvedTrack (h : list cell) (track : value) : outcome bool :=
  match track with
  | VUndefined => Throw (RangeError "Provided argument must be present.")
  | _ => bind (get h track (KSym UNRESOLVED_TRACK_SYMBOL))
              (fun t => Ok (is_true t))
  end.

(** [TrackUtils.isTrack(track)] *)
Definition isTrack (h : list cell) (track : value) : outcome bool :=
  match track with
  | VUndefined => Throw (RangeError "Provided argument must be present.")
  | _ => bind (get h track (KSym TRACK_SYMBOL)) (fun t => Ok (is_true t))
  end.

(** The object literal of [build], after [displayThumbnail] is bound. *)
Definition track_literal (data : TrackData) (requester : value) : object :=
  let info := d_info data in
  [ (KStr "track", plain (VStr (d_track data)));
    (KStr "title", plain (VStr (i_title info)));
    (KStr "identifier", plain (VStr (i_identifier info)));
    (KStr "author", plain (VStr (i_author info)));
    (KStr "duration", plain (VNum (i_length info)));
    (KStr "isSeekable", plain (VBool (i_isSeekable info)));
    (KStr "isStream", plain (VBool (i_isStream info)));
    (KStr "uri", plain (VStr (i_uri info)));
    (KStr "thumbnail",
     plain (if includes (i_uri info) "youtube"
            then VStr ("https://img.youtube.com/vi/" ++ i_identifier info
                       ++ "/default.jpg")
            else VNull));
    (KStr "displayThumbnail", plain (VFun "displayThumbnail"));
    (KStr "requester", plain requester) ].

(** The sizes [displayThumbnail] knows. *)
Definition SIZES : list string :=
  ["0"; "1"; "2"; "3"; "default"; "mqdefault"; "hqdefault"; "maxresdefault"].

(** [track.displayThumbnail(size)] of the track [build] made from [data].
    The method is bound to that track, so [this] is the object as it is
    when the method is called.  A [size] left out is ["default"], and so is
    one that [SIZES] does not hold.  By the interface [Track], [uri] is a
    string; once the whitelist has deleted it, it is absent, and calling
    [includes] on it throws. *)
Definition displayThumbnail (data : TrackData) (this : object) (size : value)
  : outcome value :=
  let size := match size with VUndefined => VStr "default" | _ => size end in
  let finalSize :=
    match List.find (fun s => match size with
                              | VStr x => String.eqb s x
                              | _ => false
                              end) SIZES with
    | Some s => s
    | None => "default"
    end in
  match read this (KStr "uri") with
  | VStr uri =>
      Ok (if includes uri "youtube"
          then VStr ("https://img.youtube.com/vi/" ++ i_identifier (d_info data)
                     ++ "/" ++ finalSize ++ ".jpg")
          else VNull)
  | VUndefined | VNull =>
      Throw (TypeError "Cannot read properties of undefined or null")
  | _ => Throw (TypeError "this.uri.includes is not a function")
  end.

(** [this.trackPartial.includes], for the values that have the method: an
    array tests membership, a string tests for a substring.  The other
    values have no method of that name (an object that was given one of
    its own is not considered). *)
Definition partial_includes (h : list cell) (partial : value)
  : option (string -> bool) :=
  match partial with
  | VStr s => Some (includes s)
  | _ =>
      match as_array h partial with
      | Some elems => Some (array_includes elems)
      | None => None
      end
  end.

(** The loop [for (const key of Object.keys(track))] that deletes what
    the whitelist does not include. *)
Fixpoint project (keep : string -> bool) (names : list string) (track : object)
  : outcome object :=
  match names with
  | [] => Ok track
  | key :: rest =>
      if keep key then project keep rest track
      else bind (delete_property (KStr key) track) (project keep rest)
  end.

(** The body of the [try] block of [build]: literal, projection, tag. *)
Definition build_object (h : list cell) (partial : value)
           (data : TrackData) (requester : value) : outcome object :=
  let track := track_literal data requester in
  bind (if truthy partial then
          match partial_includes h partial with
          | Some keep => project keep (keys track) track
          | None => Throw (TypeError "this.trackPartial.includes is not a function")
          end
        else Ok track) (fun track =>
  define_tag (KSym TRACK_SYMBOL) track).

(** [TrackUtils.build(data, requester)]; [None] is an absent [data].  The
    data are of the shape [TrackData] declares: every field is there, so
    the literal itself never throws. *)
Definition build (st : state) (data : option TrackData) (requester : value)
  : outcome value * state :=
  match data with
  | None =>
      (Throw (RangeError ("Argument " ++ dq ++ "data" ++ dq ++ " must be present.")),
       st)
  | Some d =>
      match build_object (heap st) (trackPartial st) d requester with
      | Ok track =>
          let '(l, h) := alloc (heap st) (CObject track) in
          (Ok (VRef l), State h (trackPartial st) (manager st))
      | Throw error =>
          (Throw (RangeError ("Argument " ++ dq ++ "data" ++ dq
                              ++ " is not a valid track: " ++ error_message error)),
           st)
      end
  end.

(** The own enumerable properties a spread copies out of [query], listed
    in the order of their creation (JavaScript puts integer-like names
    first; the objects considered here have none). *)
Definition spread_source (h : list cell) (query : value) : list (key * value) :=
  match query with
  | VRef l =>
      match h !! l with
      | Some (CObject o) => enumerable_own o
      | Some (CArray elems) =>
          imap (fun i v => (KStr (of_number (Z.of_nat i)), v)) elems
      | None => []
      end
  | _ => []
  end.

(** [TrackUtils.buildUnresolved(query, requester)] *)
Definition buildUnresolved (st : state) (query requester : value)
  : outcome value * state :=
  match query with
  | VUndefined =>
      (Throw (RangeError ("Argument " ++ dq ++ "query" ++ dq ++ " must be present.")),
       st)
  | _ =>
      let unresolvedTrack :=
        [ (KStr "requester", plain requester);
          (KStr "resolve", plain (VFun "resolve")) ] in
      let unresolvedTrack :=
        if is_string query then put (KStr "title") (plain query) unresolvedTrack
        else spread unresolvedTrack (spread_source (heap st) query) in
      match define_tag (KSym UNRESOLVED_TRACK_SYMBOL) unresolvedTrack with
      | Ok o =>
          let '(l, h) := alloc (heap st) (CObject o) in
          (Ok (VRef l), State h (trackPartial st) (manager st))
      | Throw e => (Throw e, st)
      end
  end.

(** The characters [escapeRegExp] puts a backslash before. *)
Definition is_syntax_char (c : ascii) : bool :=
  existsb (Ascii.eqb c)
    ["."; "*"; "+"; "?"; "^"; "$"; "{"; "}"; "("; ")"; "|"; "["; "]"; "\"]%char.

Fixpoint escapeRegExp (str : string) : string :=
  match str with
  | EmptyString => EmptyString
  | String c r =>
      if is_syntax_char c then String "\" (String c (escapeRegExp r))
      else String c (escapeRegExp r)
  end.

(** [Canonicalize] of a regular expression with the flag [i], on the
    characters of the embedding: a letter a to z, or U+00E0 to U+00FE but
    the sign U+00F7, counts as its upper-case form.  The upper-case forms
    of U+00B5 and U+00FF lie outside these characters and that of U+00DF
    is two letters, so each of these three stands for itself. *)
Definition canonicalize (c : ascii) : ascii :=
  let n := N_of_ascii c in
  if ((97 <=? n)%N && (n <=? 122)%N)
     || ((224 <=? n)%N && (n <=? 254)%N && negb (n =? 247)%N)
  then ascii_of_N (n - 32) else c.

Definition same_letter (a b : ascii) : bool :=
  Ascii.eqb (canonicalize a) (canonicalize b).

(** Matching of the body of a pattern made of plain characters, escaped
    characters and a final [$], without regard to case. *)
Fixpoint literal_i (pat subject : string) : bool :=
  match pat with
  | EmptyString => false
  | String c pat' =>
      match pat' with
      | EmptyString =>
          Ascii.eqb c "$" &&
          match subject with EmptyString => true | _ => false end
      | String c' pat'' =>
          match subject with
          | EmptyString => false
          | String a rest =>
              if Ascii.eqb c "\" then same_letter c' a && literal_i pat'' rest
              else same_letter c a && literal_i pat' rest
          end
      end
  end.

(** [new RegExp(source, "i").test(subject)] for a source that starts
    with [^]. *)
Definition RegExp_test_i (source subject : string) : bool :=
  match source with
  | String "^" body => literal_i body subject
  | _ => false
  end.

(** [new RegExp(`^${escapeRegExp(name)}$`, "i").test(subject)];
    [escapeRegExp] calls [replace] on its argument and so throws on what
    is not a string. *)
Definition exact_i (name subject : value) : outcome bool :=
  match name with
  | VStr n =>
      Ok (RegExp_test_i ("^" ++ escapeRegExp n ++ "$") (to_string subject))
  | _ => Throw (TypeError "str.replace is not a function")
  end.

(** [names.some(name => ...test(subject))] *)
Fixpoint some_exact_i (names : list value) (subject : value) : outcome bool :=
  match names with
  | [] => Ok false
  | name :: rest =>
      bind (exact_i name subject) (fun b =>
      if b then Ok true else some_exact_i rest subject)
  end.

(** [tracks.find(pred)] for a predicate that may throw; [None] is
    [undefined]. *)
Fixpoint find_track (pred : object -> outcome bool) (tracks : list object)
  : outcome (option object) :=
  match tracks with
  | [] => Ok None
  | track :: rest =>
      bind (pred track) (fun b =>
      if b then Ok (Some track) else find_track pred rest)
  end.

(** The callback of the first [find]. *)
Definition original_audio (author title : value) (track : object)
  : outcome bool :=
  let channelNames := [author; VStr (to_string author ++ " - Topic")] in
  bind (some_exact_i channelNames (read track (KStr "author"))) (fun b =>
  if b then Ok true else exact_i title (read track (KStr "title"))).

(** A duration as the number that [-], [>=] and [<=] make of it: [null]
    and [false] count as 0, [true] as 1, and [undefined] or a function as
    [NaN], which is [None] and compares as false.  By the interfaces
    [UnresolvedQuery] and [Track] a duration is a number or absent; the
    conversion of strings and objects is not modelled, and what is proved
    of the comparison is stated for durations that are neither. *)
Definition as_number (v : value) : option Z :=
  match v with
  | VNum n => Some n
  | VNull | VBool false => Some 0
  | VBool true => Some 1
  | VUndefined | VStr _ | VFun _ | VRef _ => None
  end.

(** The callback of the second [find]. *)
Definition same_duration (duration : value) (track : object) : outcome bool :=
  Ok match as_number (read track (KStr "duration")), as_number duration with
     | Some t, Some d => (t >=? d - 1500) && (t <=? d + 1500)
     | _, _ => false
     end.

(** The selection of [getClosestTrack] once the provider has answered:
    the three steps over [res.tracks]. *)
Definition closest (author title duration : value) (tracks : list object)
  : outcome (option object) :=
  bind (if truthy author then find_track (original_audio author title) tracks
        else Ok None) (fun originalAudio =>
  match originalAudio with
  | Some track => Ok (Some track)
  | None =>
      bind (if truthy duration then find_track (same_duration duration) tracks
            else Ok None) (fun sameDuration =>
      match sameDuration with
      | Some track => Ok (Some track)
      | None => Ok (head tracks)
      end)
  end).

Definition no_tracks_found : Exception :=
  MkException "No tracks found." COMMON None.

(** [TrackUtils.getClosestTrack(unresolvedTrack)] *)
Definition getClosestTrack (st : state) (unresolvedTrack : value)
  : outcome (option object) :=
  match manager st with
  | None => Throw (RangeError "Manager has not been initiated.")
  | Some m =>
      bind (isUnresolvedTrack (heap st) unresolvedTrack) (fun tagged =>
      if negb tagged
      then Throw (RangeError "Provided track is not a UnresolvedTrack.")
      else
        bind (get (heap st) unresolvedTrack (KStr "author")) (fun author =>
        bind (get (heap st) unresolvedTrack (KStr "title")) (fun title =>
        bind (get (heap st) unresolvedTrack (KStr "duration")) (fun duration =>
        bind (get (heap st) unresolvedTrack (KStr "requester")) (fun requester =>
        let query :=
          join " - " (map to_string (List.filter truthy [author; title])) in
        bind (search m query requester) (fun res =>
        match loadType res with
        | SEARCH_RESULT => closest author title duration (tracks res)
        | _ =>
            Throw (ThrownException
                     match exception res with
                     | Some e => e
                     | None => no_tracks_found
                     end)
        end))))))
  end.

(** [names.forEach(prop => delete this[prop])]: what was deleted before a
    throw stays deleted. *)
Fixpoint delete_each (names : list string) (o : object) : outcome unit * object :=
  match names with
  | [] => (Ok tt, o)
  | prop :: rest =>
      match delete_property (KStr prop) o with
      | Ok o' => delete_each rest o'
      | Throw e => (Throw e, o)
      end
  end.

(** [Object.assign(target, source)] over the enumerable own properties of
    the source; what was copied before a throw stays. *)
Fixpoint assign_each (src : list (key * value)) (o : object)
  : outcome unit * object :=
  match src with
  | [] => (Ok tt, o)
  | (k, v) :: rest =>
      match assign_key k v o with
      | Ok o' => assign_each rest o'
      | Throw e => (Throw e, o)
      end
  end.

(** The [resolve()] method [buildUnresolved] gives its object, called on
    [this].  An [undefined] source is skipped by [Object.assign]. *)
Definition resolve (st : state) (this : value) : outcome unit * state :=
  match getClosestTrack st this with
  | Throw e => (Throw e, st)
  | Ok resolved =>
      match this with
      | VRef l =>
          match heap st !! l with
          | Some (CObject o) =>
              let store o' :=
                State (<[l := CObject o']> (heap st)) (trackPartial st)
                      (manager st) in
              match delete_each (getOwnPropertyNames o) o with
              | (Throw e, o') => (Throw e, store o')
              | (Ok _, o') =>
                  let source :=
                    match resolved with
                    | Some track => enumerable_own track
                    | None => []
                    end in
                  match assign_each source o' with
                  | (Throw e, o'') => (Throw e, store o'')
                  | (Ok _, o'') => (Ok tt, store o'')
                  end
              end
          | _ => (Ok tt, st)
          end
      | _ => (Ok tt, st)
      end
  end.

End TrackUtils.

(** ** [Structure]: the registry of extendable classes *)

Module Structure.
Import Js.

(** [structures] is an object literal, so a name it does not bind itself
    is looked up in [Object.prototype].  These are the methods found
    there; the accessor [__proto__] is the one other member. *)
Definition Object_prototype : list string :=
  ["constructor"; "__defineGetter__"; "__defineSetter__"; "hasOwnProperty";
   "__lookupGetter__"; "__lookupSetter__"; "isPrototypeOf";
   "propertyIsEnumerable"; "toString"; "valueOf"; "toLocaleString"].

(** What [structures] inherits under [name]. *)
Definition inherited (name : string) : value :=
  if existsb (String.eqb name) Object_prototype then VFun name
  else VUndefined.

(** The object literal [structures], given what the three [require] calls
    yield.  The registry is the map of the object's own bindings. *)
Definition structures (Player Queue Node : value) : gmap string value :=
  {[ "Player" := Player; "Queue" := Queue; "Node" := Node ]}.

(** [structures[name]], for a name other than ["__proto__"]. *)
Definition lookup (reg : gmap string value) (name : string) : value :=
  match reg !! name with
  | Some v => v
  | None => inherited name
  end.

(** [Structure.extend(name, extender)].  The guard tests the truthiness
    of [structures[name]]; the result of [extender] is stored and returned
    as it is.  [None] stands for the name ["__proto__"]: there the
    assignment replaces the prototype of [structures], and what the object
    inherits from then on is not described by a registry. *)
Definition extend (reg : gmap string value) (name : string)
           (extender : value -> outcome value)
  : option (outcome value * gmap string value) :=
  if String.eqb name "__proto__" then None
  else
    Some (if negb (truthy (lookup reg name)) then
            (Throw (TypeError (dq ++ name ++ " is not a valid structure")), reg)
          else
            match extender (lookup reg name) with
            | Ok extended => (Ok extended, <[name := extended]> reg)
            | Throw e => (Throw e, reg)
            end).

(** [Structure.get(name)]; [None] for ["__proto__"], whose value is the
    prototype object itself. *)
Definition get (reg : gmap string value) (name : string)
  : option (outcome value) :=
  if String.eqb name "__proto__" then None
  else
    Some (let structure := lookup reg name in
          if negb (truthy structure) then
            Throw (TypeError (dq ++ "structure" ++ dq ++ " must be provided."))
          else Ok structure).

End Structure.

(** * Auxiliary definitions of the proofs *)

Import JsString Regex Utils Js.

(** ** What one turn of each phase of the decomposition does *)

Definition bump_years (t : times) : times :=
  Times (years t + 1) (months t) (weeks t) (days t) (hours t) (minutes t) (seconds t).
Definition bump_months (t : times) : times :=
  Times (years t) (months t + 1) (weeks t) (days t) (hours t) (minutes t) (seconds t).
Definition bump_weeks (t : times) : times :=
  Times (years t) (months t) (weeks t + 7) (days t) (hours t) (minutes t) (seconds t).
Definition bump_days (t : times) : times :=
  Times (years t) (months t) (weeks t) (days t + 1) (hours t) (minutes t) (seconds t).
Definition bump_hours (t : times) : times :=
  Times (years t) (months t) (weeks t) (days t) (hours t + 1) (minutes t) (seconds t).
Definition bump_minutes (t : times) : times :=
  Times (years t) (months t) (weeks t) (days t) (hours t) (minutes t + 1) (seconds t).

(** The counters the loop of [formatTime] ends with, in closed form. *)
Definition decomposition (ms : Z) : times :=
  let r1 := ms mod 31557600000 in
  let r2 := r1 mod 2628000000 in
  let r3 := r2 mod 604800000 in
  let r4 := r3 mod 86400000 in
  let r5 := r4 mod 3600000 in
  let r6 := r5 mod 60000 in
  Times (ms / 31557600000) (r1 / 2628000000) (7 * (r2 / 604800000))
        (r3 / 86400000) (r4 / 3600000) (r5 / 60000) (round_div r6 1000).

(** ** What the rendering loop of [formatTime] collects *)

(** Non-minimal: a phrase for every entry above zero. *)
Definition phrases (es : list (string * Z)) : list string :=
  map (fun kv => unit_phrase (fst kv) (snd kv))
      (List.filter (fun kv => snd kv >? 0) es).

(** Minimal: the entries from the first one that is not zero. *)
Fixpoint from_first_nonzero (es : list (string * Z)) : list (string * Z) :=
  match es with
  | [] => []
  | kv :: rest => if snd kv =? 0 then from_first_nonzero rest else es
  end.

Definition columns (first : bool) (es : list (string * Z)) : list string :=
  map (fun kv => pad2 (snd kv)) (if first then es else from_first_nonzero es).

(** The renderings of a zero duration. *)
Definition zero_rendering (minimal : bool) : string :=
  if minimal then "00:00" else "N/A".

(** ** Strings *)

(** [s] is empty or starts with a character outside the class [p]: a run
    of [p] that ends where [s] starts cannot go on. *)
Definition stops (p : ascii -> bool) (s : string) : bool :=
  match s with
  | EmptyString => true
  | String c _ => negb (p c)
  end.

Definition has_char (c : ascii) (s : string) : bool :=
  negb (all_chars (fun x => negb (Ascii.eqb x c)) s).

Fixpoint last_char (s : string) : option ascii :=
  match s with
  | EmptyString => None
  | String c r => match last_char r with
                  | Some d => Some d
                  | None => Some c
                  end
  end.

(** [s] without its whitespace. *)
Fixpoint strip (s : string) : string :=
  match s with
  | EmptyString => EmptyString
  | String c r => if is_whitespace c then strip r else String c (strip r)
  end.

(** ** Tokens of [parseTime] *)

(** The weight the chain of [parseTime] picks for a token that ends with
    the non-digit run [suffix], given the outcome [one] of its
    single-letter test. *)
Definition suffix_weight (one : bool) (suffix : string) : Z :=
  if endsWith suffix "seconds" || endsWith suffix "second"
     || (endsWith suffix "s" && one)
  then 1000
  else if endsWith suffix "minutes" || endsWith suffix "minute"
          || (endsWith suffix "m" && one)
  then 60000
  else if endsWith suffix "hours" || endsWith suffix "hour"
          || (endsWith suffix "h" && one)
  then 3600000
  else if endsWith suffix "days" || endsWith suffix "day"
          || (endsWith suffix "d" && one)
  then 86400000
  else if endsWith suffix "weeks" || endsWith suffix "week"
          || (endsWith suffix "w" && one)
  then 604800000
  else if endsWith suffix "months" || endsWith suffix "month"
  then 2628000000
  else if endsWith suffix "years" || endsWith suffix "year"
          || (endsWith suffix "y" && one)
  then 31557600000
  else 0.

(** The suffixes the chain tests. *)
Definition tested_suffixes : list string :=
  ["seconds"; "second"; "s"; "minutes"; "minute"; "m"; "hours"; "hour"; "h";
   "days"; "day"; "d"; "weeks"; "week"; "w"; "months"; "month";
   "years"; "year"; "y"].

(** The value of a string of decimal digits. *)
Definition digits_value (a : string) : Z := parseInt_go a 0.

(** The concatenation of a list of strings. *)
Definition concat_all (l : list string) : string :=
  fold_right append EmptyString l.

(** Each string of the list is a token where it stands: anchored at its
    first character the token pattern matches it, and no more. *)
Fixpoint tokens_in_place (toks : list string) : Prop :=
  match toks with
  | [] => True
  | tok :: rest =>
      match_here token_regex (tok ++ concat_all rest)
      = Some (String.length tok) /\
      tokens_in_place rest
  end.

Definition sum_millis (toks : list string) : Z :=
  fold_right (fun tok acc => token_millis (toLowerCase tok) + acc) 0 toks.


(** ** The sentence [formatTime] writes and the tokens [parseTime] reads *)

(** The last step of the rendering: the last comma becomes [" and "]. *)
Definition finish (time : string) : string :=
  if includes time "," then
    match lastIndexOf time "," with
    | Some pos =>
        slice time 0 pos ++ " and " ++ slice time (pos + 1) (String.length time)
    | None => time
    end
  else time.

(** The keys of [times] with the milliseconds of their unit. *)
Definition unit_millis : list (string * Z) :=
  [("years", 31557600000); ("months", 2628000000); ("weeks", 604800000);
   ("days", 86400000); ("hours", 3600000); ("minutes", 60000);
   ("seconds", 1000)].

Definition millis_of (k : string) : Z :=
  match List.find (fun kw => String.eqb (fst kw) k) unit_millis with
  | Some kw => snd kw
  | None => 0
  end.

(** The unit word of a phrase: the key, without its last letter for 1. *)
Definition word (k : string) (v : Z) : string :=
  if v >? 1 then k else dropLast k.

Definition phrase (e : string * Z) : string := unit_phrase (fst e) (snd e).

(** A phrase without its space. *)
Definition stripped (e : string * Z) : string :=
  of_number (snd e) ++ word (fst e) (snd e).

(** An entry that is rendered: a key of [times] with a count above 0. *)
Definition entry_ok (e : string * Z) : Prop :=
  0 < snd e /\ In (fst e) (map fst unit_millis).

(** The characters of a unit word. *)
Definition is_word_char (c : ascii) : bool :=
  not_digit c && negb (is_whitespace c) && negb (Ascii.eqb c ",")
  && negb (Ascii.eqb c ":") && negb (is_dot c).

(** The non-minimal rendering of the entries above zero. *)
Fixpoint sentence (es : list (string * Z)) : string :=
  match es with
  | [] => EmptyString
  | e :: rest =>
      match rest with
      | [] => phrase e
      | e' :: rest' =>
          match rest' with
          | [] => phrase e ++ " and " ++ " " ++ phrase e'
          | _ :: _ => phrase e ++ ", " ++ sentence rest
          end
      end
  end.

(** The tokens of that rendering once its whitespace is gone. *)
Fixpoint sentence_tokens (es : list (string * Z)) : list string :=
  match es with
  | [] => []
  | e :: rest =>
      match rest with
      | [] => [stripped e]
      | e' :: rest' =>
          match rest' with
          | [] => [stripped e ++ "and"; stripped e']
          | _ :: _ => (stripped e ++ ",") :: sentence_tokens rest
          end
      end
  end.

(** The milliseconds of the last entry. *)
Definition last_millis (es : list (string * Z)) : Z :=
  match last es with
  | Some e => snd e * millis_of (fst e)
  | None => 0
  end.

(** The entries [formatTime] renders in its non-minimal mode. *)
Definition rendered (t : times) : list (string * Z) :=
  List.filter (fun kv => snd kv >? 0) (entries t).

(** ** Durations made of days, hours, minutes and seconds *)

Definition duration_of (d h m s : Z) : Z :=
  d * 86400000 + h * 3600000 + m * 60000 + s * 1000.

(** The milliseconds of the smallest unit that is not zero. *)
Definition smallest_unit (d h m s : Z) : Z :=
  if s >? 0 then s * 1000
  else if m >? 0 then m * 60000
  else if h >? 0 then h * 3600000
  else d * 86400000.

(** At most one of the four counts is not zero. *)
Definition single_unit (d h m s : Z) : Prop :=
  (d = 0 /\ h = 0 /\ m = 0) \/ (d = 0 /\ h = 0 /\ s = 0) \/
  (d = 0 /\ m = 0 /\ s = 0) \/ (h = 0 /\ m = 0 /\ s = 0).

(** ** The structure registry *)

(** The fixed set of roles. *)
Definition roles : list string := ["Player"; "Queue"; "Node"].

(** The registries that calls of [extend] lead to from the initial one. *)
Inductive reachable (Player Queue Node : value) : gmap string value -> Prop :=
| reach_initial :
    reachable Player Queue Node (Structure.structures Player Queue Node)
| reach_extend reg name extender r reg' :
    reachable Player Queue Node reg ->
    Structure.extend reg name extender = Some (r, reg') ->
    reachable Player Queue Node reg'.

(** The error of [extend] on a name that holds nothing truthy. *)
Definition invalid_structure (name : string) : error :=
  TypeError (dq ++ name ++ " is not a valid structure").

(** The error of [get] on a name that holds nothing truthy. *)
Definition missing_structure : error :=
  TypeError (dq ++ "structure" ++ dq ++ " must be provided.").

(** The registry of three classes, as the module loads it. *)
Definition loaded : gmap string value :=
  Structure.structures (VFun "Player") (VFun "Queue") (VFun "Node").

(** ** Capability tags *)

(** The marker [y] is present on [v] and equal to [true]. *)
Definition tag_is_true (h : list cell) (v : value) (y : symbol) : bool :=
  match v with
  | VRef l =>
      match h !! l with
      | Some (CObject o) =>
          match own (KSym y) o with
          | Some p => is_true (p_value p)
          | None => false
          end
      | _ => false
      end
  | _ => false
  end.

(** One of the two markers is present and equal to [true]. *)
Definition tagged (h : list cell) (v : value) : bool :=
  tag_is_true h v TRACK_SYMBOL || tag_is_true h v UNRESOLVED_TRACK_SYMBOL.

(** The symbols are private to the module, which only ever defines a tag
    with the value [true]: a property under a symbol holds [true]. *)
Definition tags_true (h : list cell) : Prop :=
  forall l o y p,
    h !! l = Some (CObject o) -> own (KSym y) o = Some p -> p_value p = VBool true.

(** ** Built tracks *)

(** The keys of the object literal of [build]. *)
Definition track_fields : list string :=
  ["track"; "title"; "identifier"; "author"; "duration"; "isSeekable";
   "isStream"; "uri"; "thumbnail"; "displayThumbnail"; "requester"].

(** The array [setTrackPartial] leaves behind. *)
Definition whitelist (elems : list value) : list value :=
  if TrackUtils.array_includes elems "track" then elems
  else VStr "track" :: elems.

(** The property a tag is defined as. *)
Definition tag_property : property := Property (VBool true) false false true.

(** A property under a name that the whitelist lists, or under a symbol. *)
Definition kept (partial : list value) (kp : key * property) : bool :=
  match fst kp with
  | KStr n => TrackUtils.array_includes partial n
  | KSym _ => true
  end.

(** Every property under a name is a plain one. *)
Definition plain_names (o : object) : Prop :=
  forall k p, In (KStr k, p) o -> p = plain (p_value p).

(** Every key is a name. *)
Definition only_names (o : object) : Prop :=
  forall kp, In kp o -> is_name (fst kp) = true.

(** ** Unresolved tracks *)

(** The symbols are private to the module, which defines tags as
    properties that are not enumerable: no property under a symbol is. *)
Definition hidden_tags (o : object) : Prop :=
  forall y p, In (KSym y, p) o -> enumerable p = false.

Definition heap_hides_tags (h : list cell) : Prop :=
  forall l o, h !! l = Some (CObject o) -> hidden_tags o.

(** The candidates a provider hands over carry their tags hidden. *)
Definition provider_hides_tags (m : TrackUtils.Manager) : Prop :=
  forall query requester res,
    TrackUtils.search m query requester = Ok res ->
    Forall hidden_tags (TrackUtils.tracks res).

(** An object as [buildUnresolved] makes it: plain properties under its
    names, the unresolved tag, and no resolved tag. *)
Definition unresolved_object (o : object) : Prop :=
  plain_names o /\
  own (KSym UNRESOLVED_TRACK_SYMBOL) o = Some tag_property /\
  own (KSym TRACK_SYMBOL) o = None.

(** The names [Object.assign] copies from what the lookup returned. *)
Definition copied (resolved : option object) : list (key * value) :=
  match resolved with
  | Some track => enumerable_own track
  | None => []
  end.

(** Every key of the list is a name. *)
Definition names_only (src : list (key * value)) : Prop :=
  forall kv, In kv src -> is_name (fst kv) = true.

(** A track for the examples. *)
Definition example_data : TrackUtils.TrackData :=
  TrackUtils.MkTrackData "QAAAjQIAJVJpY2s"
    (TrackUtils.MkInfo "Song" "dQw4w9WgXcQ" "X" 200000 true false
       "https://www.youtube.com/watch?v=dQw4w9WgXcQ").

(** The object [build] makes of it without a whitelist. *)
Definition example_track : object :=
  (TrackUtils.track_literal example_data VUndefined
   ++ [(KSym TRACK_SYMBOL, tag_property)])%list.

(** A provider that finds the example track, and one that finds nothing. *)
Definition example_provider : TrackUtils.Manager :=
  TrackUtils.MkManager (fun _ _ =>
    Ok (TrackUtils.MkSearchResult TrackUtils.SEARCH_RESULT [example_track] None)).

Definition empty_provider : TrackUtils.Manager :=
  TrackUtils.MkManager (fun _ _ =>
    Ok (TrackUtils.MkSearchResult TrackUtils.NO_MATCHES [] None)).

(** The states of the examples: a manager is bound, an unresolved track is
    built from the title "Song", and its [resolve()] is called. *)
Definition found_start : TrackUtils.state :=
  TrackUtils.init TrackUtils.initial example_provider.
Definition found_built : TrackUtils.state :=
  snd (TrackUtils.buildUnresolved found_start (VStr "Song") VUndefined).
Definition found_resolved : TrackUtils.state :=
  snd (TrackUtils.resolve found_built (VRef 0)).

Definition missing_start : TrackUtils.state :=
  TrackUtils.init TrackUtils.initial empty_provider.
Definition missing_built : TrackUtils.state :=
  snd (TrackUtils.buildUnresolved missing_start (VStr "Song") VUndefined).
Definition missing_resolved : TrackUtils.state :=
  snd (TrackUtils.resolve missing_built (VRef 0)).

(** The object at address [l]. *)
Definition object_at (st : TrackUtils.state) (l : nat) : object :=
  match TrackUtils.heap st !! l with
  | Some (CObject o) => o
  | _ => []
  end.

(** ** The selection of the closest track, in the words of the spec *)















(** Two candidates for the examples. *)
Definition candidate_far : object :=
  TrackUtils.track_literal
    (TrackUtils.MkTrackData "QAAA1"
       (TrackUtils.MkInfo "Other" "id1" "Y" 200000 true false "https://a.example/1"))
    VUndefined.

Definition candidate_near : object :=
  TrackUtils.track_literal
    (TrackUtils.MkTrackData "QAAA2"
       (TrackUtils.MkInfo "Another" "id2" "Z" 101000 true false "https://a.example/2"))
    VUndefined.

(** A state whose heap holds the array [["title"]]. *)
Definition title_only : TrackUtils.state :=
  TrackUtils.State [CArray [VStr "title"]] VNull None.

(** ** Durations and their tokens *)

(** [duration === 0 ? null : duration] *)
Definition nonzero (duration : Z) : option Z :=
  if duration =? 0 then None else Some duration.

Definition sum_Z (l : list Z) : Z := fold_right Z.add 0 l.

(** [Number.MAX_SAFE_INTEGER]: up to it the integers are binary64 numbers
    and their sums, differences and products are exact. *)
Definition MAX_SAFE_INTEGER : Z := 9007199254740991.

(** The whole weeks left of a duration once its years and months are
    taken. *)
Definition whole_weeks (ms : Z) : Z :=
  ms mod 31557600000 mod 2628000000 / 604800000.

(** The milliseconds that [w] weeks and the counters of [formatTime]
    other than the weeks counter stand for. *)
Definition millis_beside_weeks (w : Z) (t : times) : Z :=
  years t * 31557600000 + months t * 2628000000 + w * 604800000
  + days t * 86400000 + hours t * 3600000 + minutes t * 60000
  + seconds t * 1000.

(** The unit spellings [parseTime] knows, in lower case, with their
    milliseconds. *)
Definition unit_table : list (string * Z) :=
  [("seconds", 1000); ("second", 1000); ("s", 1000);
   ("minutes", 60000); ("minute", 60000); ("m", 60000);
   ("hours", 3600000); ("hour", 3600000); ("h", 3600000);
   ("days", 86400000); ("day", 86400000); ("d", 86400000);
   ("weeks", 604800000); ("week", 604800000); ("w", 604800000);
   ("months", 2628000000); ("month", 2628000000);
   ("years", 31557600000); ("year", 31557600000); ("y", 31557600000)].

(** The milliseconds of a unit spelling, in any case; 0 for a word that is
    not one. *)
Definition unit_weight (u : string) : Z :=
  match List.find (fun e => String.eqb (fst e) (toLowerCase u)) unit_table with
  | Some e => snd e
  | None => 0
  end.

(** A number followed by a unit word. *)
Definition token (au : string * string) : string := fst au ++ snd au.

(** What makes a pair of strings a token: digits, then a run that holds no
    digit and does not start with a point. *)
Definition token_ok (au : string * string) : Prop :=
  is_digits (fst au) = true /\ snd au <> EmptyString /\
  all_chars not_digit (snd au) = true /\ stops is_dot (snd au) = true.

Definition token_value (au : string * string) : Z :=
  digits_value (fst au) * unit_weight (snd au).

(** The milliseconds of the columns of a colon-separated time, the last
    column first: seconds, minutes, hours, days, weeks, months, years. *)
Definition column_weights : list Z :=
  [1000; 60000; 3600000; 86400000; 604800000; 2628000000; 31557600000].

Definition columns_millis (ds : list string) : Z :=
  sum_Z (zip_with (fun d w => digits_value d * w) (rev ds) column_weights).

(** The columns of a colon-separated time as tokens: the last column with
    the first word of [template], and so on. *)
Definition columns_tokens (ds : list string) : list (string * string) :=
  zip (rev ds) template.

(** ** Tracks as [build] and [buildUnresolved] make them *)

(** The object [build] makes when no whitelist is set: the literal and
    the tag. *)
Definition whole_track (data : TrackUtils.TrackData) (requester : value)
  : object :=
  (TrackUtils.track_literal data requester
   ++ [(KSym TRACK_SYMBOL, tag_property)])%list.

(** The address of a thumbnail. *)
Definition thumbnail_url (identifier size : string) : string :=
  "https://img.youtube.com/vi/" ++ identifier ++ "/" ++ size ++ ".jpg".

(** The object literal [buildUnresolved] starts from. *)
Definition unresolved_literal (requester : value) : object :=
  [ (KStr "requester", plain requester);
    (KStr "resolve", plain (VFun "resolve")) ].

(** The query [getClosestTrack] hands to the provider for the object [o]. *)
Definition search_query (o : object) : string :=
  join " - " (map to_string
                  (List.filter truthy [read o (KStr "author");
                                       read o (KStr "title")])).

(** What [getClosestTrack] throws on an answer that is no search result. *)
Definition refusal (res : TrackUtils.SearchResult) : Exception :=
  match TrackUtils.exception res with
  | Some e => e
  | None => TrackUtils.no_tracks_found
  end.

(** A provider that answers every search with an empty result. *)
Definition silent_provider : TrackUtils.Manager :=
  TrackUtils.MkManager (fun _ _ =>
    Ok (TrackUtils.MkSearchResult TrackUtils.SEARCH_RESULT [] None)).

(** The state in which that provider is bound and an unresolved track is
    built from the title "Song". *)
Definition silent_built : TrackUtils.state :=
  snd (TrackUtils.buildUnresolved
         (TrackUtils.init TrackUtils.initial silent_provider)
         (VStr "Song") VUndefined).

(** A heap with two arrays that hold [null] after another element: a built
    track in the first, an object without a tag in the second. *)
Definition mixed_heap : list cell :=
  [CObject example_track; CObject []; CArray [VRef 0; VNull];
   CArray [VRef 1; VNull]].

(** A heap with an object that holds the number 1 under the marker of
    built tracks, an array of that object alone, an object that holds 1
    under the marker of built tracks and [true] under the other one, an
    empty array and an object without a marker.  The symbols are those of
    any track, as [Object.getOwnPropertySymbols] returns them. *)
Definition marked_heap : list cell :=
  [CObject [(KSym TRACK_SYMBOL, Property (VNum 1) false false true)];
   CArray [VRef 0];
   CObject [(KSym TRACK_SYMBOL, Property (VNum 1) false false true);
            (KSym UNRESOLVED_TRACK_SYMBOL,
             Property (VBool true) false false true)];
   CArray [];
   CObject [(KStr "title", plain (VStr "Song"))]].

(** A query object with an author and a title. *)
Definition example_query : object :=
  [(KStr "title", plain (VStr "Song")); (KStr "author", plain (VStr "X"))].

(** * Properties *)

(** ** The decomposition loop of [formatTime] *)

Section Decompose.

Ltac step_cases :=
  unfold decompose_step;
  repeat match goal with
         | |- context [?a >=? ?b] =>
             let E := fresh "E" in
             destruct (a >=? b) eqn:E;
             [apply Z.geb_le in E | rewrite Z.geb_leb in E; apply Z.leb_gt in E];
             try lia
         end;
  try reflexivity.

Lemma step_years ms t :
  31557600000 <= ms -> decompose_step ms t = (ms - 31557600000, bump_years t).
Proof. intros; step_cases. Qed.

Lemma step_months ms t :
  2628000000 <= ms < 31557600000 ->
  decompose_step ms t = (ms - 2628000000, bump_months t).
Proof. intros; step_cases. Qed.

Lemma step_weeks ms t :
  604800000 <= ms < 2628000000 ->
  decompose_step ms t = (ms - 604800000, bump_weeks t).
Proof. intros; step_cases. Qed.

Lemma step_days ms t :
  86400000 <= ms < 604800000 ->
  decompose_step ms t = (ms - 86400000, bump_days t).
Proof. intros; step_cases. Qed.

Lemma step_hours ms t :
  3600000 <= ms < 86400000 ->
  decompose_step ms t = (ms - 3600000, bump_hours t).
Proof. intros; step_cases. Qed.

Lemma step_minutes ms t :
  60000 <= ms < 3600000 ->
  decompose_step ms t = (ms - 60000, bump_minutes t).
Proof. intros; step_cases. Qed.

Lemma step_seconds ms t :
  ms < 60000 ->
  decompose_step ms t =
  (0, Times (years t) (months t) (weeks t) (days t) (hours t) (minutes t)
            (round_div ms 1000)).
Proof. intros; step_cases. Qed.

(** A phase of the loop: while [ms] is at least the unit [U] (and below
    the next larger unit, [P]), each turn takes [U] away and bumps one
    counter; [ms / U] turns leave [ms mod U]. *)
Lemma decompose_phase (U : Z) (P : Z -> Prop) (bump : times -> times) :
  0 < U ->
  (forall ms, P ms -> U <= ms -> P (ms - U)) ->
  (forall ms t, P ms -> U <= ms -> decompose_step ms t = (ms - U, bump t)) ->
  forall (n fuel : nat) ms t,
    0 <= ms -> P ms -> ms / U = Z.of_nat n ->
    decompose (n + fuel) ms t = decompose fuel (ms mod U) (Nat.iter n bump t).
Proof.
  intros HU Hpres Hstep n.
  induction n as [|n IH]; intros fuel ms t Hms HP Hdiv.
  - simpl. rewrite Z.mod_small; [reflexivity|].
    apply Z.div_small_iff in Hdiv; lia.
  - assert (U <= ms).
    { destruct (Z_lt_le_dec ms U) as [Hlt|]; [|assumption].
      rewrite Z.div_small in Hdiv by lia. lia. }
    change (S n + fuel)%nat with (S (n + fuel)).
    cbn [decompose].
    replace (ms >? 0) with true by (symmetry; apply Z.gtb_lt; lia).
    rewrite Hstep by assumption.
    assert (Hq : (ms - U) / U = Z.of_nat n).
    { replace (ms - U) with (ms + (-1) * U) by ring.
      rewrite Z.div_add by lia. lia. }
    rewrite IH by (try apply Hpres; auto; lia).
    replace ((ms - U) mod U) with (ms mod U).
    + rewrite <- Nat.iter_succ_r. reflexivity.
    + replace (ms - U) with (ms + (-1) * U) by ring.
      rewrite Z.mod_add by lia. reflexivity.
Qed.

Lemma iter_bump_years n t :
  Nat.iter n bump_years t =
  Times (years t + Z.of_nat n) (months t) (weeks t) (days t) (hours t)
        (minutes t) (seconds t).
Proof.
  induction n as [|n IH]; [destruct t; cbn; f_equal; lia|].
  rewrite Nat.iter_succ, IH. unfold bump_years; cbn. f_equal; lia.
Qed.

Lemma iter_bump_months n t :
  Nat.iter n bump_months t =
  Times (years t) (months t + Z.of_nat n) (weeks t) (days t) (hours t)
        (minutes t) (seconds t).
Proof.
  induction n as [|n IH]; [destruct t; cbn; f_equal; lia|].
  rewrite Nat.iter_succ, IH. unfold bump_months; cbn. f_equal; lia.
Qed.

Lemma iter_bump_weeks n t :
  Nat.iter n bump_weeks t =
  Times (years t) (months t) (weeks t + 7 * Z.of_nat n) (days t) (hours t)
        (minutes t) (seconds t).
Proof.
  induction n as [|n IH]; [destruct t; cbn; f_equal; lia|].
  rewrite Nat.iter_succ, IH. unfold bump_weeks; cbn. f_equal; lia.
Qed.

Lemma iter_bump_days n t :
  Nat.iter n bump_days t =
  Times (years t) (months t) (weeks t) (days t + Z.of_nat n) (hours t)
        (minutes t) (seconds t).
Proof.
  induction n as [|n IH]; [destruct t; cbn; f_equal; lia|].
  rewrite Nat.iter_succ, IH. unfold bump_days; cbn. f_equal; lia.
Qed.

Lemma iter_bump_hours n t :
  Nat.iter n bump_hours t =
  Times (years t) (months t) (weeks t) (days t) (hours t + Z.of_nat n)
        (minutes t) (seconds t).
Proof.
  induction n as [|n IH]; [destruct t; cbn; f_equal; lia|].
  rewrite Nat.iter_succ, IH. unfold bump_hours; cbn. f_equal; lia.
Qed.

Lemma iter_bump_minutes n t :
  Nat.iter n bump_minutes t =
  Times (years t) (months t) (weeks t) (days t) (hours t)
        (minutes t + Z.of_nat n) (seconds t).
Proof.
  induction n as [|n IH]; [destruct t; cbn; f_equal; lia|].
  rewrite Nat.iter_succ, IH. unfold bump_minutes; cbn. f_equal; lia.
Qed.

Lemma decompose_exit fuel ms t : ms <= 0 -> decompose fuel ms t = Some t.
Proof.
  intros H. destruct fuel; cbn [decompose];
    replace (ms >? 0) with false by (symmetry; rewrite Z.gtb_ltb; apply Z.ltb_ge; lia);
    reflexivity.
Qed.

Lemma decompose_last fuel ms t :
  0 <= ms < 60000 ->
  decompose (S fuel) ms t =
  Some (Times (years t) (months t) (weeks t) (days t) (hours t) (minutes t)
              (if ms =? 0 then seconds t else round_div ms 1000)).
Proof.
  intros H. destruct (Z.eqb_spec ms 0) as [->|Hne].
  - rewrite decompose_exit by lia. destruct t; reflexivity.
  - cbn [decompose].
    replace (ms >? 0) with true by (symmetry; apply Z.gtb_lt; lia).
    rewrite step_seconds by lia. apply decompose_exit; lia.
Qed.

(** The loop computes the closed form, within [ms / year + 105] turns. *)
Lemma decompose_closed ms fuel :
  0 <= ms ->
  (Z.to_nat (ms / 31557600000) + 105 <= fuel)%nat ->
  decompose fuel ms zero_times = Some (decomposition ms).
Proof.
  intros Hms Hfuel.
  set (r1 := ms mod 31557600000).
  set (r2 := r1 mod 2628000000).
  set (r3 := r2 mod 604800000).
  set (r4 := r3 mod 86400000).
  set (r5 := r4 mod 3600000).
  set (r6 := r5 mod 60000).
  assert (B1 : 0 <= r1 < 31557600000) by (apply Z.mod_pos_bound; lia).
  assert (B2 : 0 <= r2 < 2628000000) by (apply Z.mod_pos_bound; lia).
  assert (B3 : 0 <= r3 < 604800000) by (apply Z.mod_pos_bound; lia).
  assert (B4 : 0 <= r4 < 86400000) by (apply Z.mod_pos_bound; lia).
  assert (B5 : 0 <= r5 < 3600000) by (apply Z.mod_pos_bound; lia).
  assert (B6 : 0 <= r6 < 60000) by (apply Z.mod_pos_bound; lia).
  assert (Q0 : 0 <= ms / 31557600000) by (apply Z.div_pos; lia).
  assert (Q1 : 0 <= r1 / 2628000000 <= 12).
  { split; [apply Z.div_pos; lia|]. apply Z.lt_succ_r, Z.div_lt_upper_bound; lia. }
  assert (Q2 : 0 <= r2 / 604800000 <= 4).
  { split; [apply Z.div_pos; lia|]. apply Z.lt_succ_r, Z.div_lt_upper_bound; lia. }
  assert (Q3 : 0 <= r3 / 86400000 <= 6).
  { split; [apply Z.div_pos; lia|]. apply Z.lt_succ_r, Z.div_lt_upper_bound; lia. }
  assert (Q4 : 0 <= r4 / 3600000 <= 23).
  { split; [apply Z.div_pos; lia|]. apply Z.lt_succ_r, Z.div_lt_upper_bound; lia. }
  assert (Q5 : 0 <= r5 / 60000 <= 59).
  { split; [apply Z.div_pos; lia|]. apply Z.lt_succ_r, Z.div_lt_upper_bound; lia. }
  replace fuel with
    (Z.to_nat (ms / 31557600000) + (Z.to_nat (r1 / 2628000000) +
     (Z.to_nat (r2 / 604800000) + (Z.to_nat (r3 / 86400000) +
     (Z.to_nat (r4 / 3600000) + (Z.to_nat (r5 / 60000) +
      S (fuel - Z.to_nat (ms / 31557600000) - Z.to_nat (r1 / 2628000000)
         - Z.to_nat (r2 / 604800000) - Z.to_nat (r3 / 86400000)
         - Z.to_nat (r4 / 3600000) - Z.to_nat (r5 / 60000) - 1)))))))%nat
    by lia.
  rewrite (decompose_phase 31557600000 (fun _ => True) bump_years)
    by (auto using step_years; lia).
  rewrite (decompose_phase 2628000000 (fun m => m < 31557600000) bump_months)
    by (try (intros; apply step_months); fold r1; lia).
  rewrite (decompose_phase 604800000 (fun m => m < 2628000000) bump_weeks)
    by (try (intros; apply step_weeks); fold r1; fold r2; lia).
  rewrite (decompose_phase 86400000 (fun m => m < 604800000) bump_days)
    by (try (intros; apply step_days); fold r1; fold r2; fold r3; lia).
  rewrite (decompose_phase 3600000 (fun m => m < 86400000) bump_hours)
    by (try (intros; apply step_hours); fold r1; fold r2; fold r3; fold r4; lia).
  rewrite (decompose_phase 60000 (fun m => m < 3600000) bump_minutes)
    by (try (intros; apply step_minutes); fold r1; fold r2; fold r3; fold r4;
        fold r5; lia).
  fold r1; fold r2; fold r3; fold r4; fold r5; fold r6.
  rewrite decompose_last by lia.
  rewrite iter_bump_minutes, iter_bump_hours, iter_bump_days, iter_bump_weeks,
    iter_bump_months, iter_bump_years.
  unfold decomposition. fold r1; fold r2; fold r3; fold r4; fold r5; fold r6.
  cbn [years months weeks days hours minutes seconds zero_times].
  f_equal. f_equal; try lia.
  destruct (Z.eqb_spec r6 0) as [->|]; reflexivity.
Qed.

(** The fuel [formatTime] gives the loop is enough: the loop always exits. *)
Lemma decompose_total ms :
  decompose (decompose_fuel ms) ms zero_times =
  Some (if ms <=? 0 then zero_times else decomposition ms).
Proof.
  destruct (Z.leb_spec ms 0).
  - apply decompose_exit; lia.
  - apply decompose_closed; [lia|]. unfold decompose_fuel. lia.
Qed.

End Decompose.

(** ** Strings *)

Section Strings.

Lemma append_cons c s t : String c s ++ t = String c (s ++ t).
Proof. reflexivity. Qed.

Lemma append_nil_l t : EmptyString ++ t = t.
Proof. reflexivity. Qed.

Lemma append_nil_r s : s ++ EmptyString = s.
Proof.
  induction s as [|c s IH]; [reflexivity|].
  rewrite append_cons, IH. reflexivity.
Qed.

Lemma append_assoc a b c : (a ++ b) ++ c = a ++ b ++ c.
Proof.
  induction a as [|x a IH]; [reflexivity|].
  rewrite !append_cons, IH. reflexivity.
Qed.

Lemma length_append a b :
  String.length (a ++ b) = (String.length a + String.length b)%nat.
Proof.
  induction a as [|x a IH]; [reflexivity|].
  rewrite append_cons. cbn [String.length]. rewrite IH. reflexivity.
Qed.

Lemma includes_cons c s sub :
  includes (String c s) sub = startsWith (String c s) sub || includes s sub.
Proof. reflexivity. Qed.

Lemma includes_app_r a b sub :
  includes b sub = true -> includes (a ++ b) sub = true.
Proof.
  intros H. induction a as [|c a IH]; [exact H|].
  rewrite append_cons, includes_cons, IH. apply orb_true_r.
Qed.

Lemma startsWith_nil s : startsWith s EmptyString = true.
Proof. destruct s; reflexivity. Qed.

Lemma includes_char s c : includes s (String c EmptyString) = has_char c s.
Proof.
  unfold has_char. induction s as [|a s IH]; [reflexivity|].
  rewrite includes_cons, IH. cbn [startsWith all_chars].
  rewrite startsWith_nil, Ascii.eqb_sym. destruct (Ascii.eqb a c); reflexivity.
Qed.

Lemma all_chars_app p a b :
  all_chars p (a ++ b) = all_chars p a && all_chars p b.
Proof.
  induction a as [|x a IH]; [reflexivity|].
  rewrite append_cons. cbn [all_chars]. rewrite IH, andb_assoc. reflexivity.
Qed.

Lemma has_char_app c a b : has_char c (a ++ b) = has_char c a || has_char c b.
Proof. unfold has_char. rewrite all_chars_app, negb_andb. reflexivity. Qed.

Lemma all_chars_impl (p q : ascii -> bool) s :
  (forall c, p c = true -> q c = true) ->
  all_chars p s = true -> all_chars q s = true.
Proof.
  intros Hpq. induction s as [|c s IH]; [reflexivity|].
  cbn [all_chars]. intros H. apply andb_prop in H as [H1 H2].
  rewrite (Hpq _ H1), IH by assumption. reflexivity.
Qed.

Lemma has_char_class p c s :
  p c = false -> all_chars p s = true -> has_char c s = false.
Proof.
  intros Hc Hs. unfold has_char.
  rewrite (all_chars_impl p _ s); [reflexivity| |assumption].
  intros x Hx. destruct (Ascii.eqb_spec x c); [congruence|reflexivity].
Qed.

Lemma drop_length_app a b : drop (String.length a) (a ++ b) = b.
Proof.
  induction a as [|x a IH]; [destruct b; reflexivity|].
  rewrite append_cons. cbn [String.length drop]. exact IH.
Qed.

Lemma drop_app_plus a b n :
  drop (String.length a + n) (a ++ b) = drop n b.
Proof.
  induction a as [|x a IH]; [reflexivity|].
  rewrite append_cons. cbn [String.length Nat.add drop]. exact IH.
Qed.

Lemma drop_all s : drop (String.length s) s = EmptyString.
Proof. induction s as [|c s IH]; [reflexivity|exact IH]. Qed.

Lemma drop_0 s : drop 0 s = s.
Proof. destruct s; reflexivity. Qed.

Lemma length_drop n s : String.length (drop n s) = (String.length s - n)%nat.
Proof.
  revert s. induction n as [|n IH]; intros s.
  - rewrite drop_0. lia.
  - destruct s as [|c s]; [reflexivity|]. cbn [drop String.length]. rewrite IH. lia.
Qed.

Lemma take_length_app a b : take (String.length a) (a ++ b) = a.
Proof.
  induction a as [|x a IH]; [destruct b; reflexivity|].
  rewrite append_cons. cbn [String.length take]. rewrite IH. reflexivity.
Qed.

Lemma take_app_plus a b n :
  take (String.length a + n) (a ++ b) = a ++ take n b.
Proof.
  induction a as [|x a IH]; [reflexivity|].
  rewrite !append_cons. cbn [String.length Nat.add take]. rewrite IH. reflexivity.
Qed.

Lemma take_all s : take (String.length s) s = s.
Proof.
  induction s as [|c s IH]; [reflexivity|].
  cbn [String.length take]. rewrite IH. reflexivity.
Qed.

(** The slice that starts where [a] ends. *)
Lemma slice_after a s n :
  slice (a ++ s) (String.length a) (String.length a + n) = take n s.
Proof.
  unfold slice. rewrite drop_length_app. f_equal. lia.
Qed.

Lemma span_exact p a b :
  all_chars p a = true -> stops p b = true -> span p (a ++ b) = (a, b).
Proof.
  intros Ha Hb. induction a as [|x a IH].
  - rewrite append_nil_l. destruct b as [|c b]; [reflexivity|].
    cbn [span]. cbn [stops] in Hb. apply negb_true_iff in Hb. rewrite Hb.
    reflexivity.
  - cbn [all_chars] in Ha. apply andb_prop in Ha as [Hx Ha].
    rewrite append_cons. cbn [span]. rewrite Hx, (IH Ha). reflexivity.
Qed.

Lemma span_length p s : (String.length (fst (span p s)) <= String.length s)%nat.
Proof.
  induction s as [|c s IH]; [cbn; lia|].
  cbn [span]. destruct (p c); [|cbn; lia].
  destruct (span p s). cbn [fst String.length] in *. lia.
Qed.

Lemma toLowerCase_app a b : toLowerCase (a ++ b) = toLowerCase a ++ toLowerCase b.
Proof.
  induction a as [|x a IH]; [reflexivity|].
  rewrite append_cons. cbn [toLowerCase]. rewrite IH. reflexivity.
Qed.

Lemma lower_char_not_letter c :
  (N_of_ascii c <? 65)%N = true -> lower_char c = c.
Proof.
  intros H. unfold lower_char. apply N.ltb_lt in H.
  replace (65 <=? N_of_ascii c)%N with false
    by (symmetry; apply N.leb_gt; assumption).
  replace (192 <=? N_of_ascii c)%N with false
    by (symmetry; apply N.leb_gt; lia).
  reflexivity.
Qed.

Lemma digit_below_letters c : is_digit c = true -> (N_of_ascii c <? 65)%N = true.
Proof.
  unfold is_digit. intros H. apply andb_prop in H as [_ H].
  apply N.leb_le in H. apply N.ltb_lt. lia.
Qed.

Lemma toLowerCase_digits s : all_chars is_digit s = true -> toLowerCase s = s.
Proof.
  induction s as [|c s IH]; [reflexivity|].
  cbn [all_chars toLowerCase]. intros H. apply andb_prop in H as [Hc Hs].
  rewrite IH by assumption.
  rewrite lower_char_not_letter by (apply digit_below_letters; assumption).
  reflexivity.
Qed.

Lemma length_toLowerCase s : String.length (toLowerCase s) = String.length s.
Proof.
  induction s as [|c s IH]; [reflexivity|].
  cbn [toLowerCase String.length]. rewrite IH. reflexivity.
Qed.

End Strings.

(** ** The rendering of [formatTime] *)

Section Render.

Lemma formatTime_render ms minimal :
  ms <> 0 ->
  formatTime ms minimal =
  render minimal (if ms <=? 0 then zero_times else decomposition ms).
Proof.
  intros H. unfold formatTime.
  destruct (Z.eqb_spec ms 0); [contradiction|].
  rewrite decompose_total. reflexivity.
Qed.

Lemma collect_phrases es acc first :
  fold_left (render_entry false) es (acc, first) =
  ((acc ++ phrases es)%list, first).
Proof.
  revert acc. induction es as [|[k v] es IH]; intros acc.
  - cbn. rewrite app_nil_r. reflexivity.
  - cbn [fold_left render_entry]. unfold phrases. cbn [List.filter snd].
    destruct (v >? 0).
    + rewrite IH. cbn [map fst snd]. rewrite <- app_assoc. reflexivity.
    + apply IH.
Qed.

Lemma collect_columns es acc first :
  fst (fold_left (render_entry true) es (acc, first)) =
  (acc ++ columns first es)%list.
Proof.
  revert acc first. induction es as [|[k v] es IH]; intros acc first.
  - unfold columns. destruct first; cbn; rewrite app_nil_r; reflexivity.
  - cbn [fold_left render_entry].
    destruct first.
    + rewrite andb_false_r. rewrite IH. unfold columns. cbn [map snd].
      rewrite <- app_assoc. reflexivity.
    + rewrite andb_true_r. unfold columns. cbn [from_first_nonzero snd].
      destruct (v =? 0).
      * apply IH.
      * rewrite IH. unfold columns. cbn [map snd].
        rewrite <- app_assoc. reflexivity.
Qed.

Lemma and_not_zero_rendering x y : x ++ " and " ++ y <> "00:00".
Proof.
  intros H.
  assert (E : includes (x ++ " and " ++ y) " " = true)
    by (apply includes_app_r; reflexivity).
  rewrite H in E. discriminate E.
Qed.

(** The decimal digits of a number that is not zero do not start with 0. *)
Lemma to_uint_no_leading_zero p d : Pos.to_uint p <> Decimal.D0 d.
Proof.
  intros H.
  assert (E : Pos.to_uint p = Decimal.unorm (Pos.to_uint p)).
  { change (Pos.to_uint p) with (N.to_uint (Npos p)) at 1.
    rewrite <- (DecimalPos.Unsigned.of_to p). apply DecimalPos.Unsigned.to_of. }
  rewrite H in E. rewrite DecimalFacts.unorm_D0 in E.
  unfold Decimal.unorm in E.
  destruct (Decimal.nzhead d) eqn:Hd; try discriminate E.
  - injection E as ->. apply (DecimalPos.Unsigned.to_uint_nonzero p). exact H.
  - apply (DecimalFacts.nzhead_nonzero d d). rewrite Hd. congruence.
Qed.

Lemma of_number_head v :
  v <> 0 -> exists c r, of_number v = String c r /\ c <> "0"%char.
Proof.
  intros Hv. unfold of_number. destruct v as [|p|p]; [contradiction| |].
  - cbn [Z.to_int NilZero.string_of_int].
    pose proof (to_uint_no_leading_zero p) as Hz.
    pose proof (DecimalPos.Unsigned.to_uint_nonnil p) as Hn.
    destruct (Pos.to_uint p) as [|d|d|d|d|d|d|d|d|d|d];
      cbn [NilZero.string_of_uint NilEmpty.string_of_uint];
      try (eexists _, _; split; [reflexivity|discriminate]).
    + contradiction.
    + exfalso. apply (Hz d). reflexivity.
  - cbn [Z.to_int NilZero.string_of_int].
    eexists _, _; split; [reflexivity|discriminate].
Qed.

Lemma of_number_head_digit v :
  0 < v -> exists c r, of_number v = String c r /\ is_digit c = true.
Proof.
  intros Hv. unfold of_number. destruct v as [|p|p]; try lia.
  cbn [Z.to_int NilZero.string_of_int].
  destruct (Pos.to_uint p) as [|d|d|d|d|d|d|d|d|d|d];
    cbn [NilZero.string_of_uint NilEmpty.string_of_uint];
    eexists _, _; split; reflexivity.
Qed.

Lemma pad2_not_00 v s : v <> 0 -> forall r, pad2 v ++ s <> String "0" (String "0" r).
Proof.
  intros Hv r H. unfold pad2 in H.
  destruct (of_number_head v Hv) as (c & q & E & Hc).
  rewrite E in H. destruct (v <? 10); cbn in H; injection H; intros; subst; congruence.
Qed.

Lemma from_first_nonzero_head es :
  from_first_nonzero es = [] \/
  exists k v rest, from_first_nonzero es = (k, v) :: rest /\ v <> 0.
Proof.
  induction es as [|[k v] es IH]; [left; reflexivity|].
  cbn [from_first_nonzero snd]. destruct (Z.eqb_spec v 0).
  - exact IH.
  - right. exists k, v, es. split; [reflexivity|assumption].
Qed.

Lemma phrases_head es :
  phrases es = [] \/
  exists k v rest, phrases es = unit_phrase k v :: rest /\ 0 < v.
Proof.
  unfold phrases. induction es as [|[k v] es IH]; [left; reflexivity|].
  cbn [List.filter snd]. destruct (v >? 0) eqn:E.
  - right. exists k, v. eexists. split; [reflexivity|]. apply Z.gtb_lt. exact E.
  - exact IH.
Qed.

Lemma join_cons2 sep x y r : join sep (x :: y :: r) = x ++ sep ++ join sep (y :: r).
Proof. reflexivity. Qed.

Lemma minimal_time_not_zero t :
  join ":" (if (length (columns false (entries t)) =? 1)%nat
            then "00" :: columns false (entries t)
            else columns false (entries t)) <> "00:00".
Proof.
  unfold columns.
  destruct (from_first_nonzero_head (entries t)) as [->|(k & v & rest & -> & Hv)].
  - discriminate.
  - cbn [map snd length]. destruct rest as [|kv rest]; cbn [map length Nat.eqb].
    + rewrite join_cons2. cbn [join]. intros H.
      apply (pad2_not_00 v EmptyString Hv EmptyString).
      rewrite append_nil_r. rewrite !append_cons, !append_nil_l in H. congruence.
    + rewrite join_cons2. apply pad2_not_00. exact Hv.
Qed.

Lemma phrases_time_head t :
  join ", " (phrases (entries t)) = EmptyString \/
  exists c r, join ", " (phrases (entries t)) = String c r /\ is_digit c = true.
Proof.
  destruct (phrases_head (entries t)) as [->|(k & v & rest & -> & Hv)].
  - left. reflexivity.
  - right. destruct (of_number_head_digit v Hv) as (c & r & E & Hc).
    exists c. unfold unit_phrase. rewrite E.
    destruct rest; [cbn [join]|rewrite join_cons2]; rewrite !append_cons; eauto.
Qed.

(** Whatever the counters are, the rendering is neither ["00:00"] nor
    ["N/A"]. *)
Lemma render_never_zero_rendering minimal t :
  render minimal t <> zero_rendering minimal.
Proof.
  unfold render, zero_rendering. destruct minimal.
  - rewrite collect_columns. cbn [app andb].
    pose proof (minimal_time_not_zero t) as Hne.
    destruct (includes _ ","); [|exact Hne].
    destruct (lastIndexOf _ _); [|exact Hne].
    apply and_not_zero_rendering.
  - rewrite collect_phrases. cbn [fst app andb].
    destruct (phrases_time_head t) as [->|(c & r & -> & Hc)]; [discriminate|].
    destruct (includes _ ","); [|intros H; injection H as -> _; discriminate Hc].
    destruct (lastIndexOf _ _) as [pos|];
      [|intros H; injection H as -> _; discriminate Hc].
    destruct pos as [|pos]; unfold slice; cbn [Nat.sub drop take append];
      intros H; injection H as H _; [discriminate H|].
    subst c. discriminate Hc.
Qed.

(** [formatTime] gives the rendering of zero for the input 0 only. *)
Lemma formatTime_zero_rendering ms minimal :
  formatTime ms minimal = zero_rendering minimal <-> ms = 0.
Proof.
  split.
  - intros H. destruct (Z.eq_dec ms 0) as [|Hne]; [assumption|].
    rewrite formatTime_render in H by assumption.
    exfalso. exact (render_never_zero_rendering _ _ H).
  - intros ->. destruct minimal; reflexivity.
Qed.

End Render.

(** ** The matcher and the token loop of [parseTime] *)

Section Matcher.

Lemma greedy_first cont least s k l :
  (least <= k)%nat -> cont (drop k s) = Some l ->
  greedy cont least s k = Some (k + l)%nat.
Proof.
  intros Hk Hc. destruct k; cbn [greedy];
    (replace (_ <? least)%nat with false by (symmetry; apply Nat.ltb_ge; lia));
    rewrite Hc; reflexivity.
Qed.

Lemma greedy_bound cont least s :
  (forall s' l, cont s' = Some l -> (l <= String.length s')%nat) ->
  forall k r, (k <= String.length s)%nat ->
    greedy cont least s k = Some r -> (least <= r <= String.length s)%nat.
Proof.
  intros Hcont k. induction k as [|k IH]; intros r Hk H; cbn [greedy] in H.
  - destruct (0 <? least)%nat eqn:E; [discriminate|]. apply Nat.ltb_ge in E.
    destruct (cont (drop 0 s)) eqn:Hc; [|discriminate].
    injection H as <-. apply Hcont in Hc. rewrite length_drop in Hc. lia.
  - destruct (S k <? least)%nat eqn:E; [discriminate|]. apply Nat.ltb_ge in E.
    destruct (cont (drop (S k) s)) eqn:Hc.
    + injection H as <-. apply Hcont in Hc. rewrite length_drop in Hc. lia.
    + apply IH in H; lia.
Qed.

Lemma match_here_cons a pat s :
  match_here (a :: pat) s =
  greedy (match_here pat) (least a) s (String.length (fst (span (cls a) s))).
Proof. reflexivity. Qed.

Lemma match_here_bound pat :
  forall s l, match_here pat s = Some l -> (l <= String.length s)%nat.
Proof.
  induction pat as [|a pat IH]; intros s l H.
  - injection H as <-. lia.
  - rewrite match_here_cons in H.
    apply (greedy_bound _ _ _ IH) in H; [lia|apply span_length].
Qed.

Lemma token_match_positive s l :
  match_here token_regex s = Some l -> (1 <= l <= String.length s)%nat.
Proof.
  intros H. unfold token_regex in H. rewrite match_here_cons in H.
  apply (greedy_bound _ _ _ (match_here_bound _)) in H; [|apply span_length].
  cbn [least plus] in H. lia.
Qed.

Lemma search_bound pat s :
  forall i j l, search pat s i = Some (j, l) ->
    (i <= j)%nat /\ (j - i + l <= String.length s)%nat.
Proof.
  induction s as [|c s IH]; intros i j l H; cbn [search] in H.
  - destruct (match_here pat EmptyString) eqn:E; [|discriminate].
    injection H as <- <-. apply match_here_bound in E. lia.
  - destruct (match_here pat (String c s)) eqn:E.
    + injection H as <- <-. apply match_here_bound in E. lia.
    + apply IH in H. cbn [String.length]. lia.
Qed.

Lemma search_token_positive s :
  forall i j l, search token_regex s i = Some (j, l) -> (1 <= l)%nat.
Proof.
  induction s as [|c s IH]; intros i j l H; cbn [search] in H.
  - destruct (match_here token_regex EmptyString) eqn:E; [|discriminate].
    injection H as <- <-. apply token_match_positive in E. lia.
  - destruct (match_here token_regex (String c s)) eqn:E.
    + injection H as <- <-. apply token_match_positive in E. lia.
    + eapply IH, H.
Qed.

(** The token loop exits within [length time + 1] turns. *)
Lemma parse_loop_exits time :
  forall fuel lastIndex duration,
    (1 + (String.length time - lastIndex) <= fuel)%nat ->
    exists d, parse_loop fuel time lastIndex duration = Some d.
Proof.
  induction fuel as [|fuel IH]; intros li d Hfuel; [lia|].
  cbn [parse_loop]. unfold exec.
  destruct (String.length time <? li)%nat eqn:Hli; [eauto|].
  apply Nat.ltb_ge in Hli.
  destruct (search token_regex (drop li time) li) as [[i l]|] eqn:Hs; [|eauto].
  pose proof (search_bound _ _ _ _ _ Hs) as [Hi Hl].
  pose proof (search_token_positive _ _ _ _ Hs) as Hpos.
  rewrite length_drop in Hl.
  replace (i =? i + l)%nat with false by (symmetry; apply Nat.eqb_neq; lia).
  apply IH. lia.
Qed.

Lemma parse_loop_total time :
  exists d, parse_loop (S (String.length time)) time 0 0 = Some d.
Proof. apply parse_loop_exits. lia. Qed.

End Matcher.

(** ** Tokens *)

Section Tokens.

Lemma stops_app p a b : a <> EmptyString -> stops p (a ++ b) = stops p a.
Proof. destruct a; [contradiction|reflexivity]. Qed.

Lemma nonempty_length s : s <> EmptyString -> (1 <= String.length s)%nat.
Proof. destruct s; [contradiction|cbn; lia]. Qed.

(** The token pattern on digits, dots, digits and a run of non-digits. *)
Lemma match_token D Dots D2 L Y :
  D <> EmptyString -> all_chars is_digit D = true ->
  all_chars is_dot Dots = true -> all_chars is_digit D2 = true ->
  L <> EmptyString -> all_chars not_digit L = true ->
  stops is_digit (Dots ++ D2 ++ L ++ Y) = true ->
  stops is_dot (D2 ++ L ++ Y) = true ->
  stops not_digit Y = true ->
  match_here token_regex (D ++ Dots ++ D2 ++ L ++ Y)
  = Some (String.length (D ++ Dots ++ D2 ++ L)).
Proof.
  intros HD HDd HDots HD2 HL HLn S1 S2 S3.
  assert (S4 : stops is_digit (L ++ Y) = true).
  { rewrite stops_app by assumption. destruct L as [|c L]; [contradiction|].
    cbn [all_chars] in HLn. apply andb_prop in HLn as [Hc _]. exact Hc. }
  unfold token_regex.
  rewrite match_here_cons. cbn [cls least plus star].
  rewrite span_exact by assumption. cbn [fst].
  erewrite greedy_first; [|apply nonempty_length; assumption|].
  2:{ rewrite drop_length_app, match_here_cons. cbn [cls least plus star].
      rewrite span_exact by assumption. cbn [fst].
      erewrite greedy_first; [reflexivity|lia|].
      rewrite drop_length_app, match_here_cons. cbn [cls least plus star].
      rewrite span_exact by assumption. cbn [fst].
      erewrite greedy_first; [reflexivity|lia|].
      rewrite drop_length_app, match_here_cons. cbn [cls least plus star].
      rewrite span_exact by assumption. cbn [fst].
      erewrite greedy_first; [reflexivity|apply nonempty_length; assumption|].
      rewrite drop_length_app. reflexivity. }
  f_equal. rewrite !length_append. lia.
Qed.

(** The number pattern on the same. *)
Lemma match_number D Dots D2 R :
  D <> EmptyString -> all_chars is_digit D = true ->
  all_chars is_dot Dots = true -> all_chars is_digit D2 = true ->
  stops is_digit (Dots ++ D2 ++ R) = true ->
  stops is_dot (D2 ++ R) = true ->
  stops is_digit R = true ->
  match_here number_regex (D ++ Dots ++ D2 ++ R)
  = Some (String.length (D ++ Dots ++ D2)).
Proof.
  intros HD HDd HDots HD2 S1 S2 S3.
  unfold number_regex.
  rewrite match_here_cons. cbn [cls least plus star].
  rewrite span_exact by assumption. cbn [fst].
  erewrite greedy_first; [|apply nonempty_length; assumption|].
  2:{ rewrite drop_length_app, match_here_cons. cbn [cls least plus star].
      rewrite span_exact by assumption. cbn [fst].
      erewrite greedy_first; [reflexivity|lia|].
      rewrite drop_length_app, match_here_cons. cbn [cls least plus star].
      rewrite span_exact by assumption. cbn [fst].
      erewrite greedy_first; [reflexivity|lia|].
      rewrite drop_length_app. reflexivity. }
  f_equal. rewrite !length_append. lia.
Qed.

Lemma match_letters L Y :
  L <> EmptyString -> all_chars not_digit L = true -> stops not_digit Y = true ->
  match_here letters_regex (L ++ Y) = Some (String.length L).
Proof.
  intros HL HLn HY. unfold letters_regex.
  rewrite match_here_cons. cbn [cls least plus].
  rewrite span_exact by assumption. cbn [fst].
  erewrite greedy_first; [|apply nonempty_length; assumption|].
  2:{ rewrite drop_length_app. reflexivity. }
  f_equal. lia.
Qed.

Lemma match_letters_digit c s :
  is_digit c = true -> match_here letters_regex (String c s) = None.
Proof.
  intros H. unfold letters_regex. rewrite match_here_cons.
  cbn [cls least plus span]. unfold not_digit at 1. rewrite H. reflexivity.
Qed.

Lemma search_letters_skip D R i :
  all_chars is_digit D = true ->
  search letters_regex (D ++ R) i = search letters_regex R (String.length D + i).
Proof.
  revert i. induction D as [|c D IH]; intros i H; [reflexivity|].
  cbn [all_chars] in H. apply andb_prop in H as [Hc HD].
  rewrite append_cons. cbn [search]. rewrite match_letters_digit by assumption.
  rewrite IH by assumption. cbn [String.length]. f_equal. lia.
Qed.

Lemma parseInt_go_stop D R acc :
  all_chars is_digit D = true -> stops is_digit R = true ->
  parseInt_go (D ++ R) acc = parseInt_go D acc.
Proof.
  revert acc. induction D as [|c D IH]; intros acc HD HR.
  - rewrite append_nil_l. destruct R as [|c R]; [reflexivity|].
    cbn [stops] in HR. apply negb_true_iff in HR. cbn [parseInt_go].
    rewrite HR. reflexivity.
  - cbn [all_chars] in HD. apply andb_prop in HD as [Hc HD].
    rewrite append_cons. cbn [parseInt_go]. rewrite Hc. apply IH; assumption.
Qed.

Lemma parseInt_digits D R :
  D <> EmptyString -> all_chars is_digit D = true -> stops is_digit R = true ->
  parseInt (D ++ R) = Some (digits_value D).
Proof.
  intros HD Hd HR. unfold parseInt, digits_value.
  destruct D as [|c D]; [contradiction|].
  rewrite append_cons. pose proof Hd as Hd'.
  cbn [all_chars] in Hd'. apply andb_prop in Hd' as [Hc _]. rewrite Hc.
  rewrite <- append_cons, parseInt_go_stop by assumption. reflexivity.
Qed.

Lemma search_here pat s i l :
  match_here pat s = Some l -> search pat s i = Some (i, l).
Proof. intros H. destruct s; cbn [search]; rewrite H; reflexivity. Qed.

Lemma slice_0 s n : slice s 0 n = take n s.
Proof. unfold slice. rewrite drop_0. f_equal. lia. Qed.


Lemma last_char_class p s c :
  all_chars p s = true -> last_char s = Some c -> p c = true.
Proof.
  induction s as [|x s IH]; [discriminate|].
  cbn [all_chars last_char]. intros H. apply andb_prop in H as [Hx Hs].
  destruct (last_char s) eqn:E.
  - intros [= <-]. apply IH; [assumption|reflexivity].
  - intros [= <-]. exact Hx.
Qed.

Lemma last_char_some s : s <> EmptyString -> exists c, last_char s = Some c.
Proof.
  destruct s as [|x s]; [contradiction|]. intros _. cbn [last_char].
  destruct (last_char s); eauto.
Qed.

Lemma last_char_drop n s :
  (n < String.length s)%nat -> last_char (drop n s) = last_char s.
Proof.
  revert s. induction n as [|n IH]; intros s H; [rewrite drop_0; reflexivity|].
  destruct s as [|c s]; [cbn in H; lia|].
  cbn [drop String.length] in *. rewrite IH by lia.
  cbn [last_char]. destruct (last_char s) eqn:E; [reflexivity|].
  destruct s; [cbn in H; lia|].
  cbn [last_char] in E. destruct (last_char s); discriminate.
Qed.

Lemma drop_app_le n a b :
  (n <= String.length a)%nat -> drop n (a ++ b) = drop n a ++ b.
Proof.
  revert a. induction n as [|n IH]; intros a H; [rewrite !drop_0; reflexivity|].
  destruct a as [|c a]; [cbn in H; lia|].
  rewrite append_cons. cbn [drop String.length] in *. apply IH. lia.
Qed.

(** Behind a digit, a suffix made of non-digits is a suffix of what follows
    the digit. *)
Lemma endsWith_after_digit X L suf c :
  last_char X = Some c -> is_digit c = true ->
  all_chars not_digit suf = true ->
  endsWith (X ++ L) suf = endsWith L suf.
Proof.
  intros HX Hc Hsuf. unfold endsWith. rewrite length_append.
  destruct (String.length suf <=? String.length L)%nat eqn:E.
  - apply Nat.leb_le in E.
    replace (String.length suf <=? String.length X + String.length L)%nat
      with true by (symmetry; apply Nat.leb_le; lia).
    replace (String.length X + String.length L - String.length suf)%nat
      with (String.length X + (String.length L - String.length suf))%nat by lia.
    rewrite drop_app_plus. reflexivity.
  - apply Nat.leb_gt in E. rewrite andb_false_l.
    destruct (String.length suf <=? String.length X + String.length L)%nat eqn:E2;
      [|reflexivity].
    apply Nat.leb_le in E2. rewrite andb_true_l.
    apply not_true_is_false. intros Heq. apply String.eqb_eq in Heq.
    rewrite drop_app_le in Heq by lia.
    rewrite <- Heq, all_chars_app in Hsuf. apply andb_prop in Hsuf as [Hd _].
    assert (Hl : last_char (drop (String.length X + String.length L
                                  - String.length suf) X) = Some c).
    { rewrite last_char_drop; [assumption|].
      destruct X; [discriminate|]. cbn [String.length] in *. lia. }
    pose proof (last_char_class _ _ _ Hd Hl) as Hn.
    unfold not_digit in Hn. rewrite Hc in Hn. discriminate.
Qed.

Lemma tested_suffixes_letters :
  forallb (all_chars not_digit) tested_suffixes = true.
Proof. vm_compute. reflexivity. Qed.

(** What a token adds is its number times the weight its suffix selects. *)
Lemma token_millis_weight X L c :
  last_char X = Some c -> is_digit c = true ->
  token_millis (X ++ L)
  = token_number (X ++ L) * suffix_weight (one_letter (X ++ L)) L.
Proof.
  intros HX Hc. unfold token_millis, suffix_weight.
  rewrite !(endsWith_after_digit X L _ c HX Hc) by reflexivity.
  repeat match goal with
         | |- context [if ?b then _ else _] => destruct b
         end; ring.
Qed.

Lemma digits_last D :
  D <> EmptyString -> all_chars is_digit D = true ->
  exists c, last_char D = Some c /\ is_digit c = true.
Proof.
  intros HD Hd. destruct (last_char_some D HD) as [c Hc].
  exists c. split; [assumption|]. eapply last_char_class; eassumption.
Qed.

(** A plain token: digits, then a run of non-digits that does not start
    with a dot. *)
Lemma plain_token_number D L :
  D <> EmptyString -> all_chars is_digit D = true ->
  L <> EmptyString -> all_chars not_digit L = true -> stops is_dot L = true ->
  token_number (D ++ L) = digits_value D.
Proof.
  intros HD Hd HL Hl Hdot.
  assert (S : stops is_digit L = true).
  { destruct L as [|x L]; [contradiction|]. cbn [all_chars] in Hl.
    apply andb_prop in Hl as [Hx _]. exact Hx. }
  unfold token_number, first_match.
  pose proof (match_number D EmptyString EmptyString L HD Hd eq_refl eq_refl S Hdot S)
    as M.
  rewrite !append_nil_l in M. rewrite (search_here _ _ _ _ M).
  rewrite append_nil_r, Nat.add_0_l, slice_0, take_length_app.
  rewrite <- (append_nil_r D) at 1.
  rewrite parseInt_digits by (assumption || reflexivity). reflexivity.
Qed.

Lemma plain_one_letter D L :
  all_chars is_digit D = true ->
  L <> EmptyString -> all_chars not_digit L = true ->
  one_letter (D ++ L) = (String.length L =? 1)%nat.
Proof.
  intros Hd HL Hl. unfold one_letter, first_match.
  rewrite search_letters_skip by assumption.
  pose proof (match_letters L EmptyString HL Hl eq_refl) as M.
  rewrite append_nil_r in M. rewrite (search_here _ _ _ _ M).
  rewrite Nat.add_0_r, slice_after, take_all. reflexivity.
Qed.



End Tokens.

(** ** The token loop on a string of tokens *)

Section TokenLoop.

Lemma concat_all_length toks :
  Forall (fun tok => tok <> EmptyString) toks ->
  (length toks <= String.length (concat_all toks))%nat.
Proof.
  induction 1 as [|tok toks Htok _ IH]; [apply Nat.le_0_l|].
  cbn [concat_all fold_right length] in *. rewrite length_append.
  apply nonempty_length in Htok. fold (concat_all toks). lia.
Qed.

Lemma parse_loop_tokens toks :
  forall pre d fuel,
    tokens_in_place toks ->
    Forall (fun tok => tok <> EmptyString) toks ->
    (length toks < fuel)%nat ->
    parse_loop fuel (pre ++ concat_all toks) (String.length pre) d
    = Some (d + sum_millis toks).
Proof.
  induction toks as [|tok toks IH]; intros pre d fuel Hin Hne Hfuel.
  - destruct fuel as [|fuel]; [exfalso; lia|].
    cbn [concat_all fold_right sum_millis parse_loop]. unfold exec.
    rewrite append_nil_r, Nat.ltb_irrefl, drop_all.
    cbn [search]. replace (match_here token_regex EmptyString) with (@None nat)
      by reflexivity.
    rewrite Z.add_0_r. reflexivity.
  - destruct fuel as [|fuel]; [exfalso; lia|].
    destruct Hin as [Hm Hin]. inversion Hne as [|? ? Htok Hrest]; subst.
    cbn [concat_all fold_right sum_millis]. fold (concat_all toks).
    fold (sum_millis toks).
    cbn [parse_loop]. unfold exec.
    replace (String.length (pre ++ tok ++ concat_all toks) <? String.length pre)%nat
      with false by (symmetry; apply Nat.ltb_ge; rewrite length_append; lia).
    rewrite drop_length_app, (search_here _ _ _ _ Hm).
    rewrite slice_after, take_length_app.
    pose proof (nonempty_length tok Htok) as Hl.
    replace (String.length pre =? String.length pre + String.length tok)%nat
      with false by (symmetry; apply Nat.eqb_neq; lia).
    rewrite <- append_assoc, <- length_append.
    rewrite IH by (assumption || (cbn [length] in Hfuel; lia)).
    f_equal. lia.
Qed.

(** [parseTime] on a string that the rewritings leave as a sequence of
    tokens. *)
Lemma parseTime_tokens time toks :
  normalise time = concat_all toks ->
  tokens_in_place toks ->
  Forall (fun tok => tok <> EmptyString) toks ->
  parseTime time
  = if sum_millis toks =? 0 then None else Some (sum_millis toks).
Proof.
  intros Hn Hin Hne. unfold parseTime. rewrite Hn.
  pose proof (parse_loop_tokens toks EmptyString 0
                (S (String.length (concat_all toks))) Hin Hne) as H.
  rewrite append_nil_l in H. cbn [String.length] in H.
  rewrite H by (pose proof (concat_all_length toks Hne); lia).
  rewrite Z.add_0_l. reflexivity.
Qed.

Lemma normalise_plain time :
  has_char ":" time = false -> has_char " " time = false ->
  is_digits time = false -> normalise time = time.
Proof.
  intros H1 H2 H3. unfold normalise.
  rewrite !includes_char, H1, H2, H3. reflexivity.
Qed.

End TokenLoop.

(** ** What a token adds *)

Section TokenMillis.

Lemma is_digit_lower c : is_digit (lower_char c) = is_digit c.
Proof. destruct c as [[] [] [] [] [] [] [] []]; reflexivity. Qed.

Lemma is_dot_lower c : is_dot (lower_char c) = is_dot c.
Proof. destruct c as [[] [] [] [] [] [] [] []]; reflexivity. Qed.

Lemma all_not_digit_lower L :
  all_chars not_digit (toLowerCase L) = all_chars not_digit L.
Proof.
  induction L as [|c L IH]; [reflexivity|].
  cbn [toLowerCase all_chars]. unfold not_digit at 1 3.
  rewrite is_digit_lower, IH. reflexivity.
Qed.

Lemma stops_dot_lower L : stops is_dot (toLowerCase L) = stops is_dot L.
Proof. destruct L; [reflexivity|]. cbn [toLowerCase stops]. rewrite is_dot_lower. reflexivity. Qed.

Lemma toLowerCase_nonempty L : L <> EmptyString -> toLowerCase L <> EmptyString.
Proof. destruct L; [contradiction|discriminate]. Qed.


(** A plain token adds the value of its digits times the weight of its
    suffix. *)
Lemma plain_token_millis a L :
  a <> EmptyString -> all_chars is_digit a = true ->
  L <> EmptyString -> all_chars not_digit L = true -> stops is_dot L = true ->
  token_millis (toLowerCase (a ++ L))
  = digits_value a * suffix_weight (String.length L =? 1)%nat (toLowerCase L).
Proof.
  intros Ha Hda HL Hl Hdot.
  rewrite toLowerCase_app, toLowerCase_digits by assumption.
  destruct (digits_last a Ha Hda) as (c & Hc & Hcd).
  rewrite (token_millis_weight _ _ c) by assumption.
  rewrite plain_token_number, plain_one_letter, length_toLowerCase;
    auto using toLowerCase_nonempty; rewrite ?all_not_digit_lower, ?stops_dot_lower;
    assumption.
Qed.


Lemma is_digits_with_letter a L :
  L <> EmptyString -> all_chars not_digit L = true -> is_digits (a ++ L) = false.
Proof.
  intros HL Hl. unfold is_digits.
  assert (E : all_chars is_digit (a ++ L) = false).
  { rewrite all_chars_app. destruct L as [|c L]; [contradiction|].
    cbn [all_chars] in *. apply andb_prop in Hl as [Hc _].
    unfold not_digit in Hc. apply negb_true_iff in Hc. rewrite Hc.
    apply andb_false_r. }
  destruct (a ++ L); [reflexivity|exact E].
Qed.

End TokenMillis.

(** ** [parseTime] on one token *)

Section OneToken.

Lemma is_digits_spec a :
  is_digits a = true -> a <> EmptyString /\ all_chars is_digit a = true.
Proof. destruct a; [discriminate|]. intros H. split; [discriminate|exact H]. Qed.

Lemma has_char_digits c a :
  is_digit c = false -> all_chars is_digit a = true -> has_char c a = false.
Proof. apply has_char_class. Qed.

Lemma append_nonempty_l a b : a <> EmptyString -> a ++ b <> EmptyString.
Proof. destruct a; [contradiction|discriminate]. Qed.



End OneToken.

(** ** Decimal digits *)

Section Decimal.

Lemma string_of_uint_digits d :
  all_chars is_digit (NilEmpty.string_of_uint d) = true.
Proof. induction d; cbn [NilEmpty.string_of_uint all_chars]; auto. Qed.

Lemma of_number_pos p :
  of_number (Zpos p) = NilEmpty.string_of_uint (Pos.to_uint p).
Proof.
  unfold of_number. cbn [Z.to_int NilZero.string_of_int].
  pose proof (DecimalPos.Unsigned.to_uint_nonnil p) as Hn.
  unfold NilZero.string_of_uint. destruct (Pos.to_uint p); [contradiction| ..];
    reflexivity.
Qed.

Lemma of_number_digits v : 0 <= v -> is_digits (of_number v) = true.
Proof.
  intros Hv. destruct v as [|p|p]; [reflexivity| |lia].
  rewrite of_number_pos. unfold is_digits.
  pose proof (DecimalPos.Unsigned.to_uint_nonnil p) as Hn.
  pose proof (string_of_uint_digits (Pos.to_uint p)) as Hd.
  destruct (Pos.to_uint p); [contradiction| ..]; exact Hd.
Qed.

Lemma parseInt_go_uint d p :
  parseInt_go (NilEmpty.string_of_uint d) (Zpos p) = Zpos (Pos.of_uint_acc d p).
Proof.
  revert p. induction d; intros p;
    cbn [NilEmpty.string_of_uint parseInt_go Pos.of_uint_acc]; [reflexivity| ..];
    (match goal with
     | |- context [is_digit ?c] => change (is_digit c) with true
     end; cbn iota; rewrite <- IHd; f_equal; unfold digit_value; cbn; lia).
Qed.

Lemma parseInt_go_uint0 d :
  parseInt_go (NilEmpty.string_of_uint d) 0 = Z.of_N (Pos.of_uint d).
Proof.
  induction d; cbn [NilEmpty.string_of_uint parseInt_go Pos.of_uint];
    [reflexivity|exact IHd| ..];
    (match goal with
     | |- context [is_digit ?c] => change (is_digit c) with true
     end; cbn iota; cbn [Z.of_N]; rewrite <- parseInt_go_uint; reflexivity).
Qed.

(** Reading back the digits of a number gives the number. *)
Lemma digits_value_of_number v : 0 <= v -> digits_value (of_number v) = v.
Proof.
  intros Hv. destruct v as [|p|p]; [reflexivity| |lia].
  rewrite of_number_pos. unfold digits_value.
  rewrite parseInt_go_uint0, DecimalPos.Unsigned.of_to. reflexivity.
Qed.

End Decimal.

(** ** The last comma *)

Section Finish.

Lemma lastIndexOf_none s c : has_char c s = false -> lastIndexOf s c = None.
Proof.
  unfold has_char. induction s as [|a s IH]; [reflexivity|].
  cbn [all_chars lastIndexOf]. intros H. apply negb_false_iff in H.
  apply andb_prop in H as [Ha Hs]. rewrite IH by (rewrite Hs; reflexivity).
  apply negb_true_iff in Ha. rewrite Ha. reflexivity.
Qed.

Lemma lastIndexOf_some s c :
  has_char c s = true -> exists i, lastIndexOf s c = Some i /\ (i < String.length s)%nat.
Proof.
  unfold has_char. induction s as [|a s IH]; [discriminate|].
  cbn [all_chars lastIndexOf String.length]. intros H.
  destruct (all_chars (fun x => negb (Ascii.eqb x c)) s) eqn:E.
  - rewrite (lastIndexOf_none s c) by (unfold has_char; rewrite E; reflexivity).
    rewrite andb_true_r, negb_involutive in H. rewrite H.
    exists O. split; [reflexivity|lia].
  - destruct (IH eq_refl) as (i & -> & Hi). exists (S i). split; [reflexivity|lia].
Qed.

Lemma lastIndexOf_app x y c i :
  lastIndexOf y c = Some i ->
  lastIndexOf (x ++ y) c = Some (String.length x + i)%nat.
Proof.
  intros H. induction x as [|a x IH]; [exact H|].
  rewrite append_cons. cbn [lastIndexOf String.length]. rewrite IH. reflexivity.
Qed.

Lemma finish_no_comma time : has_char "," time = false -> finish time = time.
Proof. intros H. unfold finish. rewrite includes_char, H. reflexivity. Qed.

(** In front of a string that holds a comma, a prefix stays as it is. *)
Lemma finish_cons x y :
  has_char "," y = true -> finish (x ++ y) = x ++ finish y.
Proof.
  intros H. unfold finish.
  rewrite !includes_char, has_char_app, H, orb_true_r.
  destruct (lastIndexOf_some y "," H) as (i & Hi & Hlt).
  rewrite (lastIndexOf_app x y _ i Hi), Hi.
  rewrite !slice_0, take_app_plus, append_assoc. f_equal. f_equal. f_equal.
  unfold slice. rewrite length_append.
  replace (String.length x + i + 1)%nat with (String.length x + (i + 1))%nat by lia.
  rewrite drop_app_plus. f_equal. lia.
Qed.

(** The comma in front of a string that holds none is the last one. *)
Lemma finish_last x y :
  has_char "," y = false -> finish (x ++ "," ++ y) = x ++ " and " ++ y.
Proof.
  intros H. unfold finish.
  rewrite includes_char, has_char_app.
  replace (has_char "," ("," ++ y)) with true by reflexivity.
  rewrite orb_true_r.
  assert (E : lastIndexOf ("," ++ y) "," = Some O).
  { rewrite append_cons, append_nil_l. cbn [lastIndexOf].
    rewrite (lastIndexOf_none _ _ H). reflexivity. }
  rewrite (lastIndexOf_app x _ _ _ E), Nat.add_0_r.
  rewrite slice_0, take_length_app. f_equal. f_equal.
  unfold slice. rewrite length_append, drop_app_plus.
  rewrite append_cons, append_nil_l. cbn [drop String.length].
  replace (_ - _)%nat with (String.length y) by lia.
  apply take_all.
Qed.

End Finish.

(** ** Whitespace *)

Section Whitespace.

Lemma strip_app a b : strip (a ++ b) = strip a ++ strip b.
Proof.
  induction a as [|c a IH]; [reflexivity|].
  rewrite append_cons. cbn [strip]. rewrite IH.
  destruct (is_whitespace c); reflexivity.
Qed.

Lemma strip_none s :
  all_chars (fun c => negb (is_whitespace c)) s = true -> strip s = s.
Proof.
  induction s as [|c s IH]; [reflexivity|].
  cbn [all_chars strip]. intros H. apply andb_prop in H as [Hc Hs].
  apply negb_true_iff in Hc. rewrite Hc, IH by assumption. reflexivity.
Qed.

Lemma strip_all s : all_chars is_whitespace s = true -> strip s = EmptyString.
Proof.
  induction s as [|c s IH]; [reflexivity|].
  cbn [all_chars strip]. intros H. apply andb_prop in H as [Hc Hs].
  rewrite Hc. apply IH. assumption.
Qed.

Lemma span_spec p s :
  s = fst (span p s) ++ snd (span p s) /\
  all_chars p (fst (span p s)) = true /\
  stops p (snd (span p s)) = true.
Proof.
  induction s as [|c s IH]; [repeat split|].
  cbn [span]. destruct (p c) eqn:Hc.
  - destruct (span p s) as [x y]. cbn [fst snd] in *.
    destruct IH as (E & Hx & Hy). repeat split.
    + rewrite append_cons. f_equal. exact E.
    + cbn [all_chars]. rewrite Hc, Hx. reflexivity.
    + exact Hy.
  - cbn [fst snd stops all_chars]. rewrite Hc. repeat split.
Qed.

Lemma join_empty_cons w l : join EmptyString (w :: l) = w ++ join EmptyString l.
Proof.
  destruct l as [|x l]; [cbn [join]; rewrite append_nil_r; reflexivity|].
  reflexivity.
Qed.

(** Splitting at whitespace and joining with nothing removes the
    whitespace. *)
Lemma join_split_ws_go fuel :
  forall s, (String.length s <= fuel)%nat ->
    join EmptyString (split_ws_go fuel s) = strip s.
Proof.
  induction fuel as [|fuel IH]; intros s Hlen.
  - destruct s; [reflexivity|cbn in Hlen; lia].
  - cbn [split_ws_go].
    destruct (span_spec (fun c => negb (is_whitespace c)) s) as (E & Hw & Hr).
    destruct (span (fun c => negb (is_whitespace c)) s) as [w r].
    cbn [fst snd] in *. destruct r as [|c r].
    + cbn [join]. rewrite append_nil_r in E. subst s. symmetry.
      apply strip_none. assumption.
    + rewrite join_empty_cons.
      pose proof (span_spec is_whitespace (String c r)) as (E2 & Hx & Hy).
      cbn [stops] in Hr. rewrite negb_involutive in Hr.
      assert (L : (1 <= String.length (fst (span is_whitespace (String c r))))%nat).
      { cbn [span]. rewrite Hr. destruct (span is_whitespace r).
        cbn [fst String.length]. lia. }
      destruct (span is_whitespace (String c r)) as [x y]. cbn [fst snd] in *.
      assert (L2 : String.length s
                   = (String.length w + (String.length x + String.length y))%nat).
      { rewrite E, E2, !length_append. reflexivity. }
      rewrite IH by lia.
      rewrite E, E2, !strip_app, (strip_none w), (strip_all x) by assumption.
      reflexivity.
Qed.

Lemma join_split_ws s : join EmptyString (split_ws s) = strip s.
Proof. apply join_split_ws_go. lia. Qed.

(** The rewritings of [parseTime] on a string that holds spaces, no colon,
    and more than digits. *)
Lemma normalise_spaced time :
  has_char ":" time = false -> has_char " " time = true ->
  is_digits (strip time) = false -> normalise time = strip time.
Proof.
  intros H1 H2 H3. unfold normalise.
  rewrite !includes_char, H1, H2, join_split_ws, H3. reflexivity.
Qed.

End Whitespace.

(** ** The sentence of [formatTime] under [parseTime] *)

Section Sentence.

Lemma sentence_ind' (P : list (string * Z) -> Prop) :
  P [] ->
  (forall e, P [e]) ->
  (forall e e', P [e; e']) ->
  (forall e e' e'' r, P (e' :: e'' :: r) -> P (e :: e' :: e'' :: r)) ->
  forall es, P es.
Proof.
  intros H0 H1 H2 H3 es. induction es as [|e es IH]; [exact H0|].
  destruct es as [|e' es]; [apply H1|].
  destruct es as [|e'' es]; [apply H2|]. apply H3, IH.
Qed.

Lemma word_facts k v :
  In k (map fst unit_millis) ->
  word k v <> EmptyString /\
  all_chars is_word_char (word k v) = true /\
  suffix_weight false (toLowerCase (word k v ++ ",")) = 0 /\
  suffix_weight false (toLowerCase (word k v ++ "and")) = 0 /\
  suffix_weight (String.length (word k v) =? 1)%nat (toLowerCase (word k v))
  = millis_of k.
Proof.
  intros H. unfold word. cbn [map fst unit_millis In] in H.
  destruct (v >? 1);
    repeat (destruct H as [<-|H];
            [vm_compute; repeat split; discriminate|]);
    contradiction.
Qed.

Lemma word_char_not_digit W :
  all_chars is_word_char W = true -> all_chars not_digit W = true.
Proof.
  apply all_chars_impl. intros c H. unfold is_word_char in H.
  repeat (apply andb_prop in H as [H _]). exact H.
Qed.

Lemma word_char_no_space W :
  all_chars is_word_char W = true ->
  all_chars (fun c => negb (is_whitespace c)) W = true.
Proof.
  apply all_chars_impl. intros c H. unfold is_word_char in H.
  repeat (apply andb_prop in H as [H ?]). assumption.
Qed.

Lemma word_char_stops_dot W :
  all_chars is_word_char W = true -> stops is_dot W = true.
Proof.
  destruct W as [|c W]; [reflexivity|]. cbn [all_chars stops].
  intros H. apply andb_prop in H as [H _]. unfold is_word_char in H.
  repeat (apply andb_prop in H as [H ?]). assumption.
Qed.

Lemma word_char_has_not W c :
  is_word_char c = false -> all_chars is_word_char W = true -> has_char c W = false.
Proof. apply has_char_class. Qed.

Lemma digit_not_space D :
  all_chars is_digit D = true ->
  all_chars (fun c => negb (is_whitespace c)) D = true.
Proof.
  apply all_chars_impl. intros c.
  destruct c as [[] [] [] [] [] [] [] []]; vm_compute; congruence.
Qed.

Lemma phrase_word e : phrase e = of_number (snd e) ++ " " ++ word (fst e) (snd e).
Proof. reflexivity. Qed.

(** What is known of a rendered entry. *)
Lemma entry_facts e :
  entry_ok e ->
  let N := of_number (snd e) in
  let W := word (fst e) (snd e) in
  N <> EmptyString /\ all_chars is_digit N = true /\
  W <> EmptyString /\ all_chars is_word_char W = true /\
  digits_value N = snd e.
Proof.
  intros [Hv Hk]. cbn zeta.
  destruct (is_digits_spec _ (of_number_digits (snd e) ltac:(lia))) as [HN Hd].
  destruct (word_facts (fst e) (snd e) Hk) as (HW & Hw & _).
  repeat split; try assumption. apply digits_value_of_number. lia.
Qed.

Lemma phrase_no_comma e : entry_ok e -> has_char "," (phrase e) = false.
Proof.
  intros H. destruct (entry_facts e H) as (HN & Hd & HW & Hw & _).
  rewrite phrase_word, !has_char_app, (has_char_digits "," _ eq_refl Hd),
    (word_char_has_not _ "," eq_refl Hw). reflexivity.
Qed.

Lemma phrase_no_colon e : entry_ok e -> has_char ":" (phrase e) = false.
Proof.
  intros H. destruct (entry_facts e H) as (HN & Hd & HW & Hw & _).
  rewrite phrase_word, !has_char_app, (has_char_digits ":" _ eq_refl Hd),
    (word_char_has_not _ ":" eq_refl Hw). reflexivity.
Qed.

Lemma phrase_space e : has_char " " (phrase e) = true.
Proof.
  rewrite phrase_word, !has_char_app.
  replace (has_char " " " ") with true by reflexivity.
  rewrite orb_true_l, orb_true_r. reflexivity.
Qed.

Lemma strip_phrase e : entry_ok e -> strip (phrase e) = stripped e.
Proof.
  intros H. destruct (entry_facts e H) as (HN & Hd & HW & Hw & _).
  rewrite phrase_word, !strip_app, (strip_none (of_number _)),
    (strip_none (word _ _)) by auto using digit_not_space, word_char_no_space.
  reflexivity.
Qed.

Lemma join_has_comma p p' r : has_char "," (join ", " (p :: p' :: r)) = true.
Proof.
  rewrite join_cons2, !has_char_app.
  replace (has_char "," ", ") with true by reflexivity.
  rewrite orb_true_l, orb_true_r. reflexivity.
Qed.

(** The rendering of the entries is their sentence. *)
Lemma finish_sentence es :
  Forall entry_ok es -> finish (join ", " (map phrase es)) = sentence es.
Proof.
  induction es as [| e | e e' | e e' e'' r IH] using sentence_ind'; intros H.
  - reflexivity.
  - inversion H; subst. apply finish_no_comma, phrase_no_comma. assumption.
  - inversion H as [|? ? _ H']; subst. inversion H'; subst.
    cbn [map sentence]. rewrite join_cons2. cbn [join].
    change (", " ++ phrase e') with ("," ++ " " ++ phrase e').
    rewrite finish_last; [reflexivity|].
    rewrite has_char_app, phrase_no_comma by assumption. reflexivity.
  - inversion H as [|? ? _ H']; subst.
    cbn [map]. rewrite join_cons2, <- append_assoc.
    rewrite finish_cons by apply join_has_comma.
    change (join ", " (phrase e' :: phrase e'' :: map phrase r))
      with (join ", " (map phrase (e' :: e'' :: r))).
    rewrite IH by assumption. rewrite append_assoc. reflexivity.
Qed.

Lemma sentence_no_colon es :
  Forall entry_ok es -> has_char ":" (sentence es) = false.
Proof.
  induction es as [| e | e e' | e e' e'' r IH] using sentence_ind'; intros H.
  - reflexivity.
  - inversion H; subst. apply phrase_no_colon. assumption.
  - inversion H as [|? ? ? H']; subst. inversion H'; subst.
    cbn [sentence]. rewrite !has_char_app, !phrase_no_colon by assumption.
    reflexivity.
  - inversion H as [|? ? ? H']; subst.
    change (sentence (e :: e' :: e'' :: r))
      with (phrase e ++ ", " ++ sentence (e' :: e'' :: r)).
    rewrite !has_char_app, phrase_no_colon, IH by assumption. reflexivity.
Qed.

Lemma sentence_space es : es <> [] -> has_char " " (sentence es) = true.
Proof.
  destruct es as [|e [|e' [|e'' r]]]; [contradiction| | |]; intros _.
  - apply phrase_space.
  - cbn [sentence]. rewrite has_char_app, phrase_space. reflexivity.
  - change (sentence (e :: e' :: e'' :: r))
      with (phrase e ++ ", " ++ sentence (e' :: e'' :: r)).
    rewrite has_char_app, phrase_space. reflexivity.
Qed.

Lemma strip_sentence es :
  Forall entry_ok es -> strip (sentence es) = concat_all (sentence_tokens es).
Proof.
  induction es as [| e | e e' | e e' e'' r IH] using sentence_ind'; intros H.
  - reflexivity.
  - inversion H; subst. cbn [sentence sentence_tokens concat_all fold_right].
    rewrite append_nil_r. apply strip_phrase. assumption.
  - inversion H as [|? ? ? H']; subst. inversion H'; subst.
    cbn [sentence sentence_tokens concat_all fold_right].
    rewrite !strip_app, !strip_phrase by assumption.
    rewrite append_nil_r, append_assoc. reflexivity.
  - inversion H as [|? ? ? H']; subst.
    change (sentence (e :: e' :: e'' :: r))
      with (phrase e ++ ", " ++ sentence (e' :: e'' :: r)).
    change (sentence_tokens (e :: e' :: e'' :: r))
      with ((stripped e ++ ",") :: sentence_tokens (e' :: e'' :: r)).
    cbn [concat_all fold_right]. fold (concat_all (sentence_tokens (e' :: e'' :: r))).
    rewrite !strip_app, strip_phrase, IH by assumption.
    rewrite append_assoc. reflexivity.
Qed.

Lemma stripped_start e rest :
  entry_ok e -> stops not_digit (stripped e ++ rest) = true.
Proof.
  intros H. destruct (entry_facts e H) as (HN & Hd & _).
  unfold stripped. destruct (of_number (snd e)) as [|c N]; [contradiction|].
  rewrite !append_cons. cbn [stops all_chars] in *.
  apply andb_prop in Hd as [Hc _]. unfold not_digit. rewrite Hc. reflexivity.
Qed.

Lemma tokens_start es :
  Forall entry_ok es -> stops not_digit (concat_all (sentence_tokens es)) = true.
Proof.
  destruct es as [|e [|e' [|e'' r]]]; intros H; [reflexivity| | |];
    inversion H; subst; cbn [sentence_tokens concat_all fold_right];
    rewrite ?append_assoc; apply stripped_start; assumption.
Qed.

Lemma token_in_place e sfx Y :
  entry_ok e -> all_chars not_digit sfx = true -> stops not_digit Y = true ->
  match_here token_regex ((stripped e ++ sfx) ++ Y)
  = Some (String.length (stripped e ++ sfx)).
Proof.
  intros H Hsfx HY. destruct (entry_facts e H) as (HN & Hd & HW & Hw & _).
  unfold stripped. rewrite !append_assoc.
  pose proof (match_token (of_number (snd e)) EmptyString EmptyString
                (word (fst e) (snd e) ++ sfx) Y HN Hd eq_refl eq_refl) as M.
  rewrite !append_nil_l, !append_assoc in M. apply M.
  - apply append_nonempty_l. assumption.
  - rewrite all_chars_app, (word_char_not_digit _ Hw), Hsfx. reflexivity.
  - rewrite stops_app by assumption.
    destruct (word (fst e) (snd e)) as [|c W]; [contradiction|].
    cbn [stops all_chars] in *. apply andb_prop in Hw as [Hc _].
    unfold is_word_char in Hc. repeat (apply andb_prop in Hc as [Hc _]). exact Hc.
  - rewrite stops_app by assumption. apply word_char_stops_dot. assumption.
  - assumption.
Qed.

Lemma stripped_nonempty e sfx : entry_ok e -> stripped e ++ sfx <> EmptyString.
Proof.
  intros H. destruct (entry_facts e H) as (HN & _).
  unfold stripped. rewrite append_assoc. apply append_nonempty_l. assumption.
Qed.

Lemma sentence_tokens_in_place es :
  Forall entry_ok es ->
  tokens_in_place (sentence_tokens es) /\
  Forall (fun tok => tok <> EmptyString) (sentence_tokens es).
Proof.
  induction es as [| e | e e' | e e' e'' r IH] using sentence_ind'; intros H.
  - split; constructor.
  - inversion H; subst. cbn [sentence_tokens tokens_in_place concat_all fold_right].
    split; [split; [|exact I]|].
    + pose proof (token_in_place e EmptyString EmptyString) as M.
      rewrite !append_nil_r in *. apply M; auto.
    + constructor; [|constructor].
      rewrite <- (append_nil_r (stripped e)). apply stripped_nonempty. assumption.
  - inversion H as [|? ? ? H']; subst. inversion H'; subst.
    cbn [sentence_tokens tokens_in_place concat_all fold_right].
    split; [split; [|split; [|exact I]]|].
    + apply token_in_place; auto. rewrite append_nil_r.
      rewrite <- (append_nil_r (stripped e')). apply stripped_start. assumption.
    + pose proof (token_in_place e' EmptyString EmptyString) as M.
      rewrite !append_nil_r in *. apply M; auto.
    + constructor; [apply stripped_nonempty; assumption|].
      constructor; [|constructor].
      rewrite <- (append_nil_r (stripped e')). apply stripped_nonempty. assumption.
  - inversion H as [|? ? ? H']; subst. destruct (IH H') as [IH1 IH2].
    change (sentence_tokens (e :: e' :: e'' :: r))
      with ((stripped e ++ ",") :: sentence_tokens (e' :: e'' :: r)).
    split.
    + split; [|exact IH1]. apply token_in_place; auto using tokens_start.
    + constructor; [apply stripped_nonempty; assumption|exact IH2].
Qed.

Lemma token_millis_inner e sfx :
  entry_ok e -> sfx = "," \/ sfx = "and" ->
  token_millis (toLowerCase (stripped e ++ sfx)) = 0.
Proof.
  intros H Hsfx. destruct (entry_facts e H) as (HN & Hd & HW & Hw & _).
  destruct H as [_ Hk].
  destruct (word_facts (fst e) (snd e) Hk) as (_ & _ & W1 & W2 & _).
  unfold stripped. rewrite append_assoc.
  rewrite plain_token_millis; try assumption.
  - replace (String.length (word (fst e) (snd e) ++ sfx) =? 1)%nat with false.
    + destruct Hsfx as [-> | ->]; [rewrite W1|rewrite W2]; ring.
    + symmetry. apply Nat.eqb_neq. rewrite length_append.
      apply nonempty_length in HW. destruct Hsfx as [-> | ->]; cbn; lia.
  - apply append_nonempty_l. assumption.
  - rewrite all_chars_app, (word_char_not_digit _ Hw).
    destruct Hsfx as [-> | ->]; reflexivity.
  - rewrite stops_app by assumption. apply word_char_stops_dot. assumption.
Qed.

Lemma token_millis_last e :
  entry_ok e ->
  token_millis (toLowerCase (stripped e)) = snd e * millis_of (fst e).
Proof.
  intros H. destruct (entry_facts e H) as (HN & Hd & HW & Hw & Hv).
  destruct H as [_ Hk].
  destruct (word_facts (fst e) (snd e) Hk) as (_ & _ & _ & _ & W3).
  unfold stripped.
  rewrite plain_token_millis
    by auto using word_char_not_digit, word_char_stops_dot.
  rewrite W3, Hv. reflexivity.
Qed.

Lemma sum_sentence es :
  Forall entry_ok es -> sum_millis (sentence_tokens es) = last_millis es.
Proof.
  induction es as [| e | e e' | e e' e'' r IH] using sentence_ind'; intros H.
  - reflexivity.
  - inversion H; subst. cbn [sentence_tokens sum_millis fold_right].
    rewrite token_millis_last by assumption. unfold last_millis. cbn. lia.
  - inversion H as [|? ? ? H']; subst. inversion H'; subst.
    cbn [sentence_tokens sum_millis fold_right].
    rewrite token_millis_inner, token_millis_last by auto.
    unfold last_millis. cbn. lia.
  - inversion H as [|? ? ? H']; subst.
    change (sentence_tokens (e :: e' :: e'' :: r))
      with ((stripped e ++ ",") :: sentence_tokens (e' :: e'' :: r)).
    cbn [sum_millis fold_right].
    fold (sum_millis (sentence_tokens (e' :: e'' :: r))).
    rewrite token_millis_inner, IH by auto. reflexivity.
Qed.

Lemma tokens_not_digits es :
  es <> [] -> Forall entry_ok es ->
  is_digits (concat_all (sentence_tokens es)) = false.
Proof.
  intros Hne H.
  assert (G : forall e rest, entry_ok e -> is_digits (stripped e ++ rest) = false).
  { intros e rest He. destruct (entry_facts e He) as (HN & Hd & HW & Hw & _).
    unfold stripped. rewrite append_assoc. unfold is_digits.
    assert (E : all_chars is_digit
                  (of_number (snd e) ++ word (fst e) (snd e) ++ rest) = false).
    { rewrite !all_chars_app.
      destruct (word (fst e) (snd e)) as [|c W]; [contradiction|].
      cbn [all_chars] in *. apply andb_prop in Hw as [Hc _].
      unfold is_word_char in Hc. repeat (apply andb_prop in Hc as [Hc _]).
      unfold not_digit in Hc. apply negb_true_iff in Hc. rewrite Hc.
      rewrite andb_false_l, andb_false_r. reflexivity. }
    destruct (_ ++ _); [reflexivity|exact E]. }
  destruct es as [|e [|e' [|e'' r]]]; [contradiction| | |];
    inversion H; subst; cbn [sentence_tokens concat_all fold_right];
    rewrite ?append_assoc; apply G; assumption.
Qed.

Lemma last_millis_pos es :
  es <> [] -> Forall entry_ok es -> 0 < last_millis es.
Proof.
  intros Hne H. unfold last_millis.
  destruct (last es) as [e|] eqn:E.
  - assert (He : entry_ok e).
    { rewrite Forall_forall in H. apply H.
      apply last_Some_elem_of. exact E. }
    destruct He as [Hv Hk]. cbn [map fst unit_millis In] in Hk.
    repeat (destruct Hk as [<-|Hk]; [unfold millis_of; cbn; lia|]).
    contradiction.
  - apply last_None in E. contradiction.
Qed.

(** [parseTime] reads the last phrase of a sentence, and only that one. *)
Lemma parseTime_sentence es :
  es <> [] -> Forall entry_ok es ->
  parseTime (sentence es) = Some (last_millis es).
Proof.
  intros Hne H.
  destruct (sentence_tokens_in_place es H) as [T1 T2].
  rewrite (parseTime_tokens _ (sentence_tokens es)); try assumption.
  - rewrite sum_sentence by assumption.
    pose proof (last_millis_pos es Hne H) as Hp.
    destruct (Z.eqb_spec (last_millis es) 0); [lia|reflexivity].
  - rewrite normalise_spaced.
    + apply strip_sentence. assumption.
    + apply sentence_no_colon. assumption.
    + apply sentence_space. assumption.
    + rewrite strip_sentence by assumption. apply tokens_not_digits; assumption.
Qed.

Lemma rendered_ok t : Forall entry_ok (rendered t).
Proof.
  unfold rendered. apply Forall_forall. intros e He.
  apply list_elem_of_In, filter_In in He as [Hin Hv]. apply Z.gtb_lt in Hv.
  split; [exact Hv|].
  cbn [entries In] in Hin. cbn [map fst unit_millis In].
  repeat (destruct Hin as [<-|Hin]; [cbn [fst]; auto 10|]). contradiction.
Qed.

Lemma render_sentence t : render false t = sentence (rendered t).
Proof.
  rewrite <- finish_sentence by apply rendered_ok.
  unfold render. rewrite collect_phrases. reflexivity.
Qed.

(** What [parseTime] makes of the non-minimal rendering of any counters:
    the last entry above zero. *)
Lemma parseTime_render t :
  rendered t <> [] ->
  parseTime (render false t) = Some (last_millis (rendered t)).
Proof.
  intros H. rewrite render_sentence.
  apply parseTime_sentence; [assumption|apply rendered_ok].
Qed.

Lemma div_mod_unit U q r :
  0 <= r < U -> (q * U + r) / U = q /\ (q * U + r) mod U = r.
Proof.
  intros H. split.
  - rewrite Z.add_comm, Z.div_add by lia. rewrite Z.div_small by lia. lia.
  - rewrite Z.add_comm, Z.mod_add by lia. apply Z.mod_small. lia.
Qed.

(** The decomposition of a duration below one week. *)
Lemma decomposition_duration d h m s :
  0 <= d < 7 -> 0 <= h < 24 -> 0 <= m < 60 -> 0 <= s < 60 ->
  decomposition (duration_of d h m s) = Times 0 0 0 d h m s.
Proof.
  intros Hd Hh Hm Hs. unfold decomposition, duration_of.
  set (ms := d * 86400000 + h * 3600000 + m * 60000 + s * 1000).
  assert (Hms : 0 <= ms < 604800000) by (unfold ms; lia).
  rewrite !(Z.mod_small ms) by lia.
  rewrite !(Z.div_small ms) by lia.
  destruct (div_mod_unit 86400000 d (h * 3600000 + m * 60000 + s * 1000)
              ltac:(lia)) as [D1 D2].
  replace (d * 86400000 + (h * 3600000 + m * 60000 + s * 1000)) with ms in D1, D2
    by (unfold ms; ring).
  rewrite D1, D2.
  destruct (div_mod_unit 3600000 h (m * 60000 + s * 1000) ltac:(lia)) as [H1 H2].
  replace (h * 3600000 + (m * 60000 + s * 1000))
    with (h * 3600000 + m * 60000 + s * 1000) in H1, H2 by ring.
  rewrite H1, H2.
  destruct (div_mod_unit 60000 m (s * 1000) ltac:(lia)) as [M1 M2].
  rewrite M1, M2.
  f_equal. unfold round_div.
  replace (2 * (s * 1000) + 1000) with (s * (2 * 1000) + 1000) by ring.
  apply div_mod_unit. lia.
Qed.

End Sentence.

(** ** Objects *)

Section Objects.

Import TrackUtils.

Lemma key_eqb_spec a b : reflect (a = b) (key_eqb a b).
Proof.
  destruct a as [x|x], b as [y|y]; cbn [key_eqb]; try (constructor; discriminate).
  - destruct (String.eqb_spec x y); constructor; congruence.
  - destruct x, y; constructor; congruence || discriminate.
Qed.

Lemma key_eqb_refl k : key_eqb k k = true.
Proof. destruct (key_eqb_spec k k); congruence. Qed.

Lemma own_In k p o : own k o = Some p -> In (k, p) o.
Proof.
  induction o as [|[k' p'] o IH]; [discriminate|]. cbn [own].
  destruct (key_eqb_spec k k') as [->|].
  - intros [= ->]. left. reflexivity.
  - intros H. right. apply IH, H.
Qed.

Lemma own_None_In k o : own k o = None -> forall p, ~ In (k, p) o.
Proof.
  induction o as [|[k' p'] o IH]; [intros _ p []|]. cbn [own].
  destruct (key_eqb_spec k k') as [->|Hne]; [discriminate|].
  intros H p [E|Hin]; [congruence|]. exact (IH H p Hin).
Qed.

Lemma own_symbol_only_names o y : only_names o -> own (KSym y) o = None.
Proof.
  intros H. induction o as [|[k p] o IH]; [reflexivity|].
  cbn [own]. pose proof (H (k, p) (or_introl eq_refl)) as Hk.
  destruct k; [|discriminate]. cbn [key_eqb].
  apply IH. intros kp Hin. apply H. right. exact Hin.
Qed.

Lemma put_absent k p o : own k o = None -> put k p o = (o ++ [(k, p)])%list.
Proof.
  induction o as [|[k' p'] o IH]; [reflexivity|]. cbn [own put].
  destruct (key_eqb k k'); [discriminate|]. intros H. rewrite IH by assumption.
  reflexivity.
Qed.

Lemma remove_absent k o : own k o = None -> remove k o = o.
Proof.
  unfold remove. induction o as [|[k' p'] o IH]; [reflexivity|].
  cbn [own List.filter fst]. destruct (key_eqb k k'); [discriminate|].
  intros H. cbn [negb]. rewrite IH by assumption. reflexivity.
Qed.

Lemma plain_names_remove k o : plain_names o -> plain_names (remove k o).
Proof.
  intros H n p Hin. apply filter_In in Hin as [Hin _]. apply (H n p Hin).
Qed.

Lemma delete_plain k o :
  plain_names o -> delete_property (KStr k) o = Ok (remove (KStr k) o).
Proof.
  intros H. unfold delete_property.
  destruct (own (KStr k) o) as [p|] eqn:E.
  - apply own_In, H in E. rewrite E. reflexivity.
  - rewrite remove_absent by assumption. reflexivity.
Qed.

Lemma filter_twice {A} (f g : A -> bool) l :
  List.filter f (List.filter g l) = List.filter (fun x => g x && f x) l.
Proof.
  induction l as [|x l IH]; [reflexivity|]. cbn [List.filter].
  destruct (g x); cbn [List.filter andb]; rewrite IH; reflexivity.
Qed.

(** The projection keeps the properties under the names of the whitelist
    and under the names it was not asked about. *)
Lemma project_spec keep names :
  forall track, plain_names track ->
    project keep names track
    = Ok (List.filter
            (fun kp => match fst kp with
                       | KStr n => negb (existsb (String.eqb n) names)
                                   || keep n
                       | KSym _ => true
                       end) track).
Proof.
  induction names as [|key rest IH]; intros track Hplain.
  - cbn [project existsb negb orb]. f_equal. symmetry.
    rewrite <- (filter_ext (fun _ => true)).
    + induction track as [|x t IHt]; [reflexivity|]. cbn. f_equal.
      apply IHt. intros k p Hin. apply (Hplain k p). right. exact Hin.
    + intros [[n|y] p]; reflexivity.
  - cbn [project]. destruct (keep key) eqn:Hinc.
    + rewrite IH by assumption. f_equal. apply filter_ext.
      intros [[n|y] p]; cbn [fst existsb]; [|reflexivity].
      destruct (String.eqb_spec n key) as [->|]; [|reflexivity].
      rewrite Hinc, !orb_true_r. reflexivity.
    + rewrite delete_plain by assumption. cbn [bind].
      rewrite IH by (apply plain_names_remove; assumption).
      f_equal. unfold remove. rewrite filter_twice. apply filter_ext.
      intros [[n|y] p]; cbn [fst key_eqb existsb negb andb]; [|reflexivity].
      rewrite (String.eqb_sym key n).
      destruct (String.eqb_spec n key) as [->|]; cbn [negb andb orb];
        [rewrite Hinc|]; reflexivity.
Qed.

Lemma track_literal_plain data requester :
  plain_names (track_literal data requester).
Proof.
  intros k p Hin. cbn [track_literal In] in Hin.
  repeat (destruct Hin as [[= <- <-]|Hin]; [reflexivity|]). contradiction.
Qed.

Lemma track_literal_names data requester :
  only_names (track_literal data requester).
Proof.
  intros kp Hin. cbn [track_literal In] in Hin.
  repeat (destruct Hin as [<-|Hin]; [reflexivity|]). contradiction.
Qed.

Lemma keys_track_literal data requester :
  keys (track_literal data requester) = track_fields.
Proof. reflexivity. Qed.

Lemma only_names_filter f o : only_names o -> only_names (List.filter f o).
Proof. intros H kp Hin. apply filter_In in Hin as [Hin _]. apply H, Hin. Qed.

Lemma plain_names_filter f o : plain_names o -> plain_names (List.filter f o).
Proof. intros H k p Hin. apply filter_In in Hin as [Hin _]. apply (H k p Hin). Qed.

(** The keys of a filtered object whose properties are plain. *)
Lemma keys_filter_plain (f : string -> bool) o :
  plain_names o -> only_names o ->
  keys (List.filter (fun kp => match fst kp with
                               | KStr n => f n
                               | KSym _ => true
                               end) o)
  = List.filter f (keys o) /\
  getOwnPropertyNames
    (List.filter (fun kp => match fst kp with
                            | KStr n => f n
                            | KSym _ => true
                            end) o)
  = List.filter f (keys o).
Proof.
  intros Hp Hn. induction o as [|[k p] o IH]; [split; reflexivity|].
  assert (Hp' : plain_names o)
    by (intros k' p' Hin; apply (Hp k' p'); right; exact Hin).
  assert (Hn' : only_names o) by (intros kp Hin; apply Hn; right; exact Hin).
  destruct (IH Hp' Hn') as [IH1 IH2].
  pose proof (Hn (k, p) (or_introl eq_refl)) as Hk.
  destruct k as [n|y]; [|discriminate].
  pose proof (Hp n p (or_introl eq_refl)) as Hplain.
  unfold keys, getOwnPropertyNames in *.
  cbn [List.filter fst flat_map]. rewrite Hplain. cbn [enumerable plain app].
  cbn [List.filter]. destruct (f n); cbn [flat_map fst enumerable plain app];
    rewrite ?IH1, ?IH2; split; reflexivity.
Qed.

Lemma keys_app_tag (o : object) y p :
  enumerable p = false ->
  keys (o ++ [(KSym y, p)])%list = keys o /\
  getOwnPropertyNames (o ++ [(KSym y, p)])%list = getOwnPropertyNames o.
Proof.
  intros _. unfold keys, getOwnPropertyNames.
  rewrite !flat_map_app. cbn [flat_map fst]. rewrite !app_nil_r.
  split; reflexivity.
Qed.

Lemma own_app_tag (o : object) y p :
  own (KSym y) o = None -> own (KSym y) (o ++ [(KSym y, p)])%list = Some p.
Proof.
  induction o as [|[k' p'] o IH]; cbn [own app].
  - rewrite key_eqb_refl. reflexivity.
  - destruct (key_eqb (KSym y) k'); [discriminate|]. exact IH.
Qed.

Lemma own_app_name (o : object) n y p :
  own (KStr n) (o ++ [(KSym y, p)])%list = own (KStr n) o.
Proof.
  induction o as [|[k' p'] o IH]; cbn [own app]; [reflexivity|].
  destruct (key_eqb (KStr n) k'); [reflexivity|exact IH].
Qed.

(** What [build] makes under a whitelist: the properties of the literal
    the whitelist names, then the tag. *)
Lemma partial_includes_array h partial elems :
  as_array h partial = Some elems ->
  partial_includes h partial = Some (array_includes elems).
Proof.
  intros Ha. unfold partial_includes.
  destruct partial; try (rewrite Ha; reflexivity). discriminate Ha.
Qed.

Lemma build_object_projected h partial elems data requester :
  truthy partial = true -> as_array h partial = Some elems ->
  build_object h partial data requester
  = Ok (List.filter (kept elems) (track_literal data requester)
        ++ [(KSym TRACK_SYMBOL, tag_property)])%list.
Proof.
  intros Ht Ha. unfold build_object. rewrite Ht.
  rewrite (partial_includes_array h partial elems Ha).
  rewrite project_spec by apply track_literal_plain. cbn [bind].
  assert (E : List.filter
                (fun kp => match fst kp with
                           | KStr n =>
                               negb (existsb (String.eqb n)
                                       (keys (track_literal data requester)))
                               || array_includes elems n
                           | KSym _ => true
                           end) (track_literal data requester)
              = List.filter (kept elems) (track_literal data requester)).
  { rewrite keys_track_literal.
    cbn [track_literal List.filter fst existsb negb orb kept].
    repeat match goal with
           | |- context [String.eqb ?a ?b] =>
               let r := eval vm_compute in (String.eqb a b) in
               change (String.eqb a b) with r
           end.
    reflexivity. }
  rewrite E. unfold define_tag.
  rewrite own_symbol_only_names
    by (apply only_names_filter, track_literal_names).
  rewrite put_absent
    by (apply own_symbol_only_names, only_names_filter, track_literal_names).
  reflexivity.
Qed.

(** Without a whitelist: the whole literal, then the tag. *)
Lemma build_object_whole h partial data requester :
  truthy partial = false ->
  build_object h partial data requester
  = Ok (track_literal data requester ++ [(KSym TRACK_SYMBOL, tag_property)])%list.
Proof.
  intros Ht. unfold build_object. rewrite Ht. cbn [bind]. unfold define_tag.
  rewrite own_symbol_only_names by apply track_literal_names.
  rewrite put_absent by (apply own_symbol_only_names, track_literal_names).
  reflexivity.
Qed.

End Objects.

(** ** [resolve()] *)

Section Resolve.

Import TrackUtils.

Lemma In_put k p o kp : In kp (put k p o) -> kp = (k, p) \/ In kp o.
Proof.
  induction o as [|[k' p'] o IH]; cbn [put].
  - intros [<-|[]]. left. reflexivity.
  - destruct (key_eqb k k').
    + intros [<-|H]; [left; reflexivity|right; right; exact H].
    + intros [<-|H]; [right; left; reflexivity|].
      destruct (IH H) as [->|H']; [left; reflexivity|right; right; exact H'].
Qed.

Lemma own_put_same k p o : own k (put k p o) = Some p.
Proof.
  induction o as [|[k' p'] o IH]; cbn [put own].
  - rewrite key_eqb_refl. reflexivity.
  - destruct (key_eqb k k') eqn:E; cbn [own].
    + rewrite key_eqb_refl. reflexivity.
    + rewrite E. exact IH.
Qed.

Lemma own_put_other k k' p o : k' <> k -> own k' (put k p o) = own k' o.
Proof.
  intros Hne. induction o as [|[k0 p0] o IH]; cbn [put own].
  - destruct (key_eqb_spec k' k); [contradiction|reflexivity].
  - destruct (key_eqb_spec k k0) as [->|]; cbn [own].
    + destruct (key_eqb_spec k' k0); [contradiction|reflexivity].
    + destruct (key_eqb k' k0); [reflexivity|exact IH].
Qed.

Lemma plain_names_put k v o :
  plain_names o -> plain_names (put (KStr k) (plain v) o).
Proof.
  intros H n p Hin. apply In_put in Hin as [[= -> ->]|Hin]; [reflexivity|].
  apply (H n p Hin).
Qed.

Lemma only_names_put k v o :
  only_names o -> only_names (put (KStr k) (plain v) o).
Proof.
  intros H kp Hin. apply In_put in Hin as [->|Hin]; [reflexivity|]. apply H, Hin.
Qed.

Lemma names_in_put k p o n :
  In n (getOwnPropertyNames (put (KStr k) p o)) <->
  n = k \/ In n (getOwnPropertyNames o).
Proof.
  unfold getOwnPropertyNames.
  induction o as [|[k' p'] o IH]; cbn [put flat_map fst].
  - cbn. intuition.
  - destruct (key_eqb_spec (KStr k) k') as [<-|Hne]; cbn [flat_map fst app In].
    + intuition.
    + destruct k' as [n'|y]; cbn [app In]; rewrite ?IH; intuition.
Qed.

(** The spread of [buildUnresolved] makes plain properties under names. *)
Lemma spread_plain src :
  forall o, names_only src -> plain_names o -> only_names o ->
    plain_names (spread o src) /\ only_names (spread o src).
Proof.
  unfold spread. induction src as [|[k v] src IH]; intros o Hsrc Hp Hn;
    [split; assumption|].
  cbn [fold_left fst snd].
  pose proof (Hsrc (k, v) (or_introl eq_refl)) as Hk.
  destruct k as [n|y]; [|discriminate].
  apply IH.
  - intros kv Hin. apply Hsrc. right. exact Hin.
  - apply plain_names_put, Hp.
  - apply only_names_put, Hn.
Qed.

Lemma enumerable_own_names o : hidden_tags o -> names_only (enumerable_own o).
Proof.
  intros Hh kv Hin. unfold enumerable_own in Hin.
  apply in_map_iff in Hin as ([k p] & <- & Hin). cbn [fst].
  apply in_app_or in Hin as [Hin|Hin]; apply filter_In in Hin as [Hin Hk].
  - exact Hk.
  - apply filter_In in Hin as [Hin He]. cbn [fst snd] in *.
    destruct k as [n|y]; [reflexivity|].
    rewrite (Hh y p Hin) in He. discriminate.
Qed.

Lemma spread_source_names (h : list cell) query :
  heap_hides_tags h -> names_only (spread_source h query).
Proof.
  intros Hh kv Hin. unfold spread_source in Hin.
  destruct query; try contradiction.
  destruct (h !! l) as [[o|elems]|] eqn:E; try contradiction.
  - exact (enumerable_own_names o (Hh l o E) kv Hin).
  - apply list_elem_of_In, elem_of_lookup_imap in Hin as (i & x & -> & _).
    reflexivity.
Qed.

Lemma unresolved_object_tagged (o : object) :
  plain_names o -> only_names o ->
  unresolved_object (o ++ [(KSym UNRESOLVED_TRACK_SYMBOL, tag_property)])%list.
Proof.
  intros Hp Hn. split; [|split].
  - intros k p Hin. apply in_app_or in Hin as [Hin|[[=]|[]]]. apply (Hp k p Hin).
  - apply own_app_tag, own_symbol_only_names, Hn.
  - clear Hp. induction o as [|[k p] o IH]; [reflexivity|].
    pose proof (Hn (k, p) (or_introl eq_refl)) as Hk.
    destruct k; [|discriminate]. cbn [app own key_eqb]. apply IH.
    intros kp Hin. apply Hn. right. exact Hin.
Qed.

(** [buildUnresolved] allocates an unresolved object at the next address. *)
Lemma buildUnresolved_object st query requester v st1 :
  heap_hides_tags (heap st) ->
  buildUnresolved st query requester = (Ok v, st1) ->
  exists o,
    v = VRef (length (heap st)) /\
    st1 = State (heap st ++ [CObject o]) (trackPartial st) (manager st) /\
    unresolved_object o.
Proof.
  intros Hh Hb. unfold buildUnresolved in Hb.
  set (lit := [(KStr "requester", plain requester);
               (KStr "resolve", plain (VFun "resolve"))]) in Hb.
  assert (Hlp : plain_names lit).
  { intros k p Hin. cbn [lit In] in Hin.
    repeat (destruct Hin as [[= <- <-]|Hin]; [reflexivity|]). contradiction. }
  assert (Hln : only_names lit).
  { intros kp Hin. cbn [lit In] in Hin.
    repeat (destruct Hin as [<-|Hin]; [reflexivity|]). contradiction. }
  set (u := if is_string query then put (KStr "title") (plain query) lit
            else spread lit (spread_source (heap st) query)) in Hb.
  assert (Hu : plain_names u /\ only_names u).
  { unfold u. destruct (is_string query).
    - split; [apply plain_names_put|apply only_names_put]; assumption.
    - apply spread_plain; auto using spread_source_names. }
  destruct Hu as [Hup Hun].
  assert (Hd : define_tag (KSym UNRESOLVED_TRACK_SYMBOL) u
               = Ok (u ++ [(KSym UNRESOLVED_TRACK_SYMBOL, tag_property)])%list).
  { unfold define_tag. rewrite own_symbol_only_names by assumption.
    rewrite put_absent by (apply own_symbol_only_names; assumption). reflexivity. }
  rewrite Hd in Hb. cbn [alloc] in Hb.
  exists (u ++ [(KSym UNRESOLVED_TRACK_SYMBOL, tag_property)])%list.
  destruct query; try discriminate Hb; injection Hb as <- <-;
    (split; [reflexivity|split; [reflexivity|]]);
    apply unresolved_object_tagged; assumption.
Qed.

(** Deleting every own name of an object whose named properties are plain
    leaves the properties under symbols. *)
Lemma delete_each_spec names :
  forall o, plain_names o ->
    delete_each names o
    = (Ok tt, List.filter
                (fun kp => match fst kp with
                           | KStr n => negb (existsb (String.eqb n) names)
                           | KSym _ => true
                           end) o).
Proof.
  induction names as [|key rest IH]; intros o Hp.
  - cbn [delete_each existsb negb]. f_equal. symmetry.
    rewrite <- (filter_ext (fun _ => true)).
    + clear Hp. induction o as [|x o IHo]; [reflexivity|]. cbn. f_equal. exact IHo.
    + intros [[n|y] p]; reflexivity.
  - cbn [delete_each]. rewrite delete_plain by assumption.
    rewrite IH by (apply plain_names_remove; assumption).
    f_equal. unfold remove. rewrite filter_twice. apply filter_ext.
    intros [[n|y] p]; cbn [fst key_eqb existsb negb andb]; [|reflexivity].
    rewrite (String.eqb_sym key n).
    destruct (String.eqb n key); reflexivity.
Qed.

Lemma delete_own_names o :
  plain_names o ->
  delete_each (getOwnPropertyNames o) o
  = (Ok tt, List.filter (fun kp => negb (is_name (fst kp))) o).
Proof.
  intros Hp. rewrite delete_each_spec by assumption. f_equal.
  apply filter_ext_in. intros [[n|y] p] Hin; cbn [fst is_name negb]; [|reflexivity].
  apply negb_false_iff, existsb_exists. exists n.
  split; [|apply String.eqb_refl].
  unfold getOwnPropertyNames. apply in_flat_map. exists (KStr n, p).
  split; [exact Hin|left; reflexivity].
Qed.

Lemma assign_plain k v o :
  plain_names o -> assign_key (KStr k) v o = Ok (put (KStr k) (plain v) o).
Proof.
  intros Hp. unfold assign_key. destruct (own (KStr k) o) as [p|] eqn:E;
    [|reflexivity].
  apply own_In, Hp in E. rewrite E. reflexivity.
Qed.

(** [Object.assign] of properties under names onto plain properties: it
    does not throw, leaves the properties under symbols alone, and adds the
    copied names. *)
Lemma assign_each_spec src :
  forall o, names_only src -> plain_names o ->
    exists o2,
      assign_each src o = (Ok tt, o2) /\
      plain_names o2 /\
      (forall y, own (KSym y) o2 = own (KSym y) o) /\
      (forall n, In n (getOwnPropertyNames o2) <->
                 In n (getOwnPropertyNames o) \/ In (KStr n) (map fst src)) /\
      (NoDup (map fst src) ->
       forall n v, In (KStr n, v) src -> read o2 (KStr n) = v) /\
      (forall n, ~ In (KStr n) (map fst src) ->
                 own (KStr n) o2 = own (KStr n) o).
Proof.
  induction src as [|[k v] src IH]; intros o Hsrc Hp.
  - exists o. cbn [assign_each map In]. repeat split; auto; tauto.
  - pose proof (Hsrc (k, v) (or_introl eq_refl)) as Hk.
    destruct k as [n0|y]; [|discriminate].
    cbn [assign_each]. rewrite assign_plain by assumption.
    destruct (IH (put (KStr n0) (plain v) o)) as (o2 & E & P2 & S2 & N2 & V2 & O2).
    { intros kv Hin. apply Hsrc. right. exact Hin. }
    { apply plain_names_put, Hp. }
    exists o2. split; [exact E|]. split; [exact P2|]. split; [|split; [|split]].
    + intros y. rewrite S2. apply own_put_other. discriminate.
    + intros n. rewrite N2, names_in_put. cbn [map fst In].
      split; [intros [[->|H]|H]|intros [H|[[= ->]|H]]]; auto.
    + intros Hnd n v' [[= -> ->]|Hin].
      * cbn [map fst] in Hnd. apply NoDup_cons in Hnd as [Hnot _].
        unfold read. rewrite O2.
        -- rewrite own_put_same. reflexivity.
        -- intros Hin. apply Hnot. apply list_elem_of_In. exact Hin.
      * cbn [map fst] in Hnd. apply NoDup_cons in Hnd as [_ Hnd].
        apply (V2 Hnd n v' Hin).
    + intros n Hn. cbn [map fst In] in Hn. rewrite O2 by tauto.
      apply own_put_other. intros [= ->]. apply Hn. left. reflexivity.
Qed.

Lemma own_filter_symbols o y :
  own (KSym y) (List.filter (fun kp => negb (is_name (fst kp))) o) = own (KSym y) o.
Proof.
  induction o as [|[k p] o IH]; [reflexivity|].
  cbn [List.filter fst]. destruct k as [n|y']; cbn [is_name negb own key_eqb].
  - exact IH.
  - destruct (symbol_eqb y y'); [reflexivity|exact IH].
Qed.

Lemma names_filter_symbols o :
  getOwnPropertyNames (List.filter (fun kp => negb (is_name (fst kp))) o) = [].
Proof.
  unfold getOwnPropertyNames. induction o as [|[k p] o IH]; [reflexivity|].
  cbn [List.filter fst]. destruct k; cbn [is_name negb flat_map fst app]; exact IH.
Qed.

Lemma own_name_filter_symbols o n :
  own (KStr n) (List.filter (fun kp => negb (is_name (fst kp))) o) = None.
Proof.
  induction o as [|[k p] o IH]; [reflexivity|].
  cbn [List.filter fst]. destruct k; cbn [is_name negb own key_eqb]; exact IH.
Qed.

Lemma plain_filter_symbols o :
  plain_names (List.filter (fun kp => negb (is_name (fst kp))) o).
Proof.
  intros k p Hin. apply filter_In in Hin as [_ H]. discriminate H.
Qed.

Lemma find_track_member pred tracks c :
  find_track pred tracks = Ok (Some c) -> In c tracks.
Proof.
  induction tracks as [|t tracks IH]; [discriminate|]. cbn [find_track].
  destruct (pred t) as [[|]|]; cbn [bind]; try discriminate.
  - intros [= ->]. left. reflexivity.
  - intros H. right. apply IH, H.
Qed.

Lemma closest_member author title duration tracks c :
  closest author title duration tracks = Ok (Some c) -> In c tracks.
Proof.
  unfold closest.
  destruct (if truthy author then find_track (original_audio author title) tracks
            else Ok None) as [[a|]|] eqn:E1; cbn [bind]; try discriminate.
  - intros [= ->]. destruct (truthy author); [|discriminate].
    eapply find_track_member, E1.
  - destruct (if truthy duration then find_track (same_duration duration) tracks
              else Ok None) as [[a|]|] eqn:E2; cbn [bind]; try discriminate.
    + intros [= ->]. destruct (truthy duration); [|discriminate].
      eapply find_track_member, E2.
    + destruct tracks; [discriminate|]. intros [= ->]. left. reflexivity.
Qed.

Lemma getClosestTrack_member st v c :
  getClosestTrack st v = Ok (Some c) ->
  exists m query requester res,
    manager st = Some m /\ search m query requester = Ok res /\ In c (tracks res).
Proof.
  unfold getClosestTrack. destruct (manager st) as [m|]; [|discriminate].
  destruct (isUnresolvedTrack (heap st) v) as [[|]|]; cbn [bind negb];
    try discriminate.
  destruct (get (heap st) v (KStr "author")) as [author|]; cbn [bind];
    [|discriminate].
  destruct (get (heap st) v (KStr "title")) as [title|]; cbn [bind];
    [|discriminate].
  destruct (get (heap st) v (KStr "duration")) as [duration|]; cbn [bind];
    [|discriminate].
  destruct (get (heap st) v (KStr "requester")) as [requester|]; cbn [bind];
    [|discriminate].
  match goal with
  | |- context [search m ?q ?r] => destruct (search m q r) as [res|] eqn:E
  end; cbn [bind]; [|discriminate].
  destruct (loadType res); try discriminate.
  intros H. apply closest_member in H. eauto 10.
Qed.

Lemma copied_names st v resolved :
  (forall m, manager st = Some m -> provider_hides_tags m) ->
  getClosestTrack st v = Ok resolved -> names_only (copied resolved).
Proof.
  intros Hprov H. destruct resolved as [c|]; [|intros kv []].
  destruct (getClosestTrack_member _ _ _ H) as (m & q & r & res & Hm & Hs & Hin).
  apply enumerable_own_names.
  pose proof (Hprov m Hm q r res Hs) as Hall.
  rewrite Forall_forall in Hall. apply Hall, list_elem_of_In, Hin.
Qed.

(** [resolve()] on an unresolved object: when the lookup throws, nothing
    has been touched; otherwise the named properties are replaced by the
    copied ones, and the properties under symbols stay. *)
Lemma resolve_spec st l o :
  heap st !! l = Some (CObject o) -> unresolved_object o ->
  (forall m, manager st = Some m -> provider_hides_tags m) ->
  (forall e, getClosestTrack st (VRef l) = Throw e ->
             resolve st (VRef l) = (Throw e, st)) /\
  (forall resolved,
     getClosestTrack st (VRef l) = Ok resolved ->
     exists o2,
       resolve st (VRef l)
       = (Ok tt, State (<[l := CObject o2]> (heap st)) (trackPartial st)
                       (manager st)) /\
       unresolved_object o2 /\
       (forall n, In n (getOwnPropertyNames o2) <->
                  In (KStr n) (map fst (copied resolved))) /\
       (NoDup (map fst (copied resolved)) ->
        forall n v, In (KStr n, v) (copied resolved) -> read o2 (KStr n) = v)).
Proof.
  intros Hl (Hp & Hu & Ht) Hprov. split.
  - intros e He. unfold resolve. rewrite He. reflexivity.
  - intros resolved Hr. unfold resolve. rewrite Hr, Hl.
    rewrite delete_own_names by assumption.
    destruct (assign_each_spec (copied resolved)
                (List.filter (fun kp => negb (is_name (fst kp))) o)
                (copied_names _ _ _ Hprov Hr) (plain_filter_symbols o))
      as (o2 & E & P2 & S2 & N2 & V2 & _).
    fold (copied resolved). rewrite E. exists o2.
    split; [reflexivity|]. split; [|split].
    + split; [exact P2|]. rewrite !S2, !own_filter_symbols. split; assumption.
    + intros n. rewrite N2, names_filter_symbols. cbn [In]. tauto.
    + exact V2.
Qed.

End Resolve.

(** ** The patterns of [getClosestTrack] *)

Section Patterns.

Import TrackUtils.










End Patterns.

(** * The claims *)

(** ** Durations below half a second, and negative ones *)

Lemma decomposition_subsecond ms :
  0 < ms < 500 -> decomposition ms = zero_times.
Proof.
  intros H. unfold decomposition, round_div.
  rewrite !(Z.mod_small ms) by lia.
  rewrite !Z.div_small by lia. reflexivity.
Qed.

(** C9. For every negative number of milliseconds and for every positive
    one strictly below 500, [formatTime] returns the empty string in both
    modes, which is neither ["N/A"] nor ["00:00"]; the renderings of zero
    are returned for the input 0 only. *)
Theorem formatTime_empty_off_zero (ms : Z) (minimal : bool)
  (H : ms < 0 \/ 0 < ms < 500) :
  formatTime ms minimal = EmptyString /\
  formatTime ms minimal <> zero_rendering minimal /\
  (forall ms', formatTime ms' minimal = zero_rendering minimal <-> ms' = 0).
Proof.
  assert (E : formatTime ms minimal = EmptyString).
  { rewrite formatTime_render by lia.
    destruct (Z.leb_spec ms 0).
    - destruct minimal; reflexivity.
    - rewrite decomposition_subsecond by lia. destruct minimal; reflexivity. }
  split; [exact E|]. split.
  - rewrite E. destruct minimal; discriminate.
  - intros ms'. apply formatTime_zero_rendering.
Qed.

Lemma formatTime_empty_off_zero_witness :
  (formatTime (-5) true = EmptyString /\
   formatTime (-5) true <> zero_rendering true /\
   (forall ms', formatTime ms' true = zero_rendering true <-> ms' = 0)) /\
  (formatTime 499 false = EmptyString /\
   formatTime 499 false <> zero_rendering false /\
   (forall ms', formatTime ms' false = zero_rendering false <-> ms' = 0)).
Proof.
  split.
  - apply (formatTime_empty_off_zero (-5) true). left. lia.
  - apply (formatTime_empty_off_zero 499 false). right. lia.
Defined.

(** ** Decimal numbers in [parseTime] *)




(** ** [formatTime] followed by [parseTime] *)

(** C4, as stated, fails: one minute and one second is a sum of whole
    units below one week, and comes back as one second. *)
Lemma roundtrip_loses_the_minute :
  duration_of 0 0 1 1 = 61000 /\
  formatTime 61000 false = "1 minute and  1 second" /\
  parseTime (formatTime 61000 false) = Some 1000 /\
  parseTime (formatTime 61000 false) <> Some 61000.
Proof. vm_compute. repeat split; discriminate. Qed.

Lemma rendered_duration d h m s :
  rendered (Times 0 0 0 d h m s) =
  ((if d >? 0 then [("days", d)] else []) ++
   (if h >? 0 then [("hours", h)] else []) ++
   (if m >? 0 then [("minutes", m)] else []) ++
   (if s >? 0 then [("seconds", s)] else []))%list.
Proof.
  unfold rendered. cbn [entries List.filter snd years months weeks days hours
                        minutes seconds].
  change (0 >? 0) with false. cbn iota.
  destruct (d >? 0), (h >? 0), (m >? 0), (s >? 0); reflexivity.
Qed.

(** C4, amended. For a duration of [d] days, [h] hours, [m] minutes and [s]
    seconds below one week that is not zero, [parseTime] of the non-minimal
    [formatTime] returns the milliseconds of the smallest unit that is not
    zero, and nothing of the larger ones; it returns the duration itself
    exactly when a single unit is not zero. *)
Theorem roundtrip_returns_smallest_unit (d h m s : Z)
  (Hd : 0 <= d < 7) (Hh : 0 <= h < 24) (Hm : 0 <= m < 60) (Hs : 0 <= s < 60)
  (Hnz : duration_of d h m s <> 0) :
  parseTime (formatTime (duration_of d h m s) false)
  = Some (smallest_unit d h m s) /\
  (parseTime (formatTime (duration_of d h m s) false)
   = Some (duration_of d h m s) <-> single_unit d h m s).
Proof.
  assert (E : parseTime (formatTime (duration_of d h m s) false)
              = Some (smallest_unit d h m s)).
  { rewrite formatTime_render by assumption.
    replace (duration_of d h m s <=? 0) with false
      by (symmetry; apply Z.leb_gt; unfold duration_of in *; lia).
    rewrite decomposition_duration by assumption.
    assert (R : rendered (Times 0 0 0 d h m s) <> [] /\
                last_millis (rendered (Times 0 0 0 d h m s))
                = smallest_unit d h m s).
    { rewrite rendered_duration. unfold smallest_unit, duration_of in *.
      destruct (Z.gtb_spec d 0), (Z.gtb_spec h 0), (Z.gtb_spec m 0),
        (Z.gtb_spec s 0);
        try (split; [discriminate|unfold last_millis; cbn; lia]).
      exfalso. lia. }
    destruct R as [R1 R2]. rewrite parseTime_render by assumption.
    rewrite R2. reflexivity. }
  split; [exact E|]. rewrite E.
  unfold smallest_unit, duration_of, single_unit in *.
  destruct (Z.gtb_spec s 0), (Z.gtb_spec m 0), (Z.gtb_spec h 0);
    split; intros Heq; try injection Heq as Heq; try (f_equal); lia.
Qed.

Lemma roundtrip_returns_smallest_unit_witness :
  parseTime (formatTime (duration_of 1 2 0 3) false) = Some 3000 /\
  parseTime (formatTime (duration_of 0 5 0 0) false)
  = Some (duration_of 0 5 0 0).
Proof.
  split.
  - apply (roundtrip_returns_smallest_unit 1 2 0 3); [lia..|discriminate].
  - apply (roundtrip_returns_smallest_unit 0 5 0 0); [lia..|discriminate|].
    unfold single_unit. lia.
Defined.

(** ** The structure registry *)

Section Registry.

Implicit Types (reg : gmap string value) (fn : value -> outcome value).

Lemma extend_truthy reg name fn v :
  name <> "__proto__" ->
  truthy (Structure.lookup reg name) = true ->
  fn (Structure.lookup reg name) = Ok v ->
  Structure.extend reg name fn = Some (Ok v, <[name := v]> reg).
Proof.
  intros Hn Ht Hf. unfold Structure.extend.
  destruct (String.eqb_spec name "__proto__"); [contradiction|].
  rewrite Ht, Hf. reflexivity.
Qed.

Lemma extend_falsy reg name fn :
  name <> "__proto__" ->
  truthy (Structure.lookup reg name) = false ->
  Structure.extend reg name fn = Some (Throw (invalid_structure name), reg).
Proof.
  intros Hn Ht. unfold Structure.extend.
  destruct (String.eqb_spec name "__proto__"); [contradiction|].
  rewrite Ht. reflexivity.
Qed.

Lemma get_truthy reg name :
  name <> "__proto__" ->
  truthy (Structure.lookup reg name) = true ->
  Structure.get reg name = Some (Ok (Structure.lookup reg name)).
Proof.
  intros Hn Ht. unfold Structure.get.
  destruct (String.eqb_spec name "__proto__"); [contradiction|].
  cbv zeta. rewrite Ht. reflexivity.
Qed.

Lemma get_falsy reg name :
  name <> "__proto__" ->
  truthy (Structure.lookup reg name) = false ->
  Structure.get reg name = Some (Throw missing_structure).
Proof.
  intros Hn Ht. unfold Structure.get.
  destruct (String.eqb_spec name "__proto__"); [contradiction|].
  cbv zeta. rewrite Ht. reflexivity.
Qed.

Lemma lookup_stored reg name v : Structure.lookup (<[name := v]> reg) name = v.
Proof. unfold Structure.lookup. rewrite lookup_insert_eq. reflexivity. Qed.

Lemma role_is_not_proto role : In role roles -> role <> "__proto__".
Proof.
  unfold roles. cbn [In]. intros [<-|[<-|[<-|[]]]]; discriminate.
Qed.

Lemma inherited_nothing name :
  ~ In name Structure.Object_prototype -> Structure.inherited name = VUndefined.
Proof.
  intros Hout. unfold Structure.inherited.
  destruct (existsb (String.eqb name) Structure.Object_prototype) eqn:E;
    [|reflexivity].
  apply existsb_exists in E as (m & Hin & Heq).
  apply String.eqb_eq in Heq. subst m. contradiction.
Qed.

(** A name that is bound is a role, or one the first lookup of an
    [extend] found in [Object.prototype]. *)
Lemma reachable_bound (Player Queue Node : value) reg :
  reachable Player Queue Node reg ->
  forall name, is_Some (reg !! name) ->
               In name roles \/ In name Structure.Object_prototype.
Proof.
  induction 1 as [|reg name' fn r reg' Hreach IH Hext]; intros name.
  - unfold Structure.structures, roles. cbn [In].
    rewrite <- elem_of_dom, !dom_insert_L, dom_singleton_L.
    rewrite !elem_of_union, !elem_of_singleton. intuition.
  - unfold Structure.extend in Hext.
    destruct (String.eqb name' "__proto__"); [discriminate|].
    injection Hext as Hext.
    destruct (truthy (Structure.lookup reg name')) eqn:Ht; cbn [negb] in Hext.
    + destruct (fn (Structure.lookup reg name')) as [extended|e];
        injection Hext as _ <-; [|apply IH].
      destruct (decide (name' = name)) as [->|Hne];
        [|rewrite lookup_insert_ne by assumption; apply IH].
      intros _. destruct (reg !! name) eqn:E; [apply IH; rewrite E; eauto|].
      right. unfold Structure.lookup in Ht. rewrite E in Ht.
      unfold Structure.inherited in Ht.
      destruct (existsb (String.eqb name) Structure.Object_prototype) eqn:Ex;
        [|discriminate Ht].
      apply existsb_exists in Ex as (m & Hin & Heq).
      apply String.eqb_eq in Heq. subst m. exact Hin.
    + injection Hext as _ <-. apply IH.
Qed.

Lemma reachable_outside (Player Queue Node : value) reg name :
  reachable Player Queue Node reg ->
  ~ In name roles -> ~ In name Structure.Object_prototype ->
  Structure.lookup reg name = VUndefined.
Proof.
  intros Hreach Hr Hp. unfold Structure.lookup.
  destruct (reg !! name) eqn:E.
  - destruct (reachable_bound _ _ _ _ Hreach name) as [H|H];
      [rewrite E; eauto|contradiction..].
  - apply inherited_nothing, Hp.
Qed.

End Registry.

(** C7, as stated, fails for a transform that returns a falsy value:
    [extend] stores and returns [null], the [get] that follows throws
    instead of returning it, and no further [extend] of the role is
    accepted.  Nor does [get] throw on every name without a binding: it
    returns what [structures] inherits under "constructor". *)
Lemma extend_to_null_then_get_throws :
  Structure.extend loaded "Player" (fun _ => Ok VNull)
  = Some (Ok VNull, <["Player" := VNull]> loaded) /\
  Structure.get (<["Player" := VNull]> loaded) "Player"
  = Some (Throw missing_structure) /\
  Structure.get (<["Player" := VNull]> loaded) "Player" <> Some (Ok VNull) /\
  Structure.extend (<["Player" := VNull]> loaded) "Player" (fun v => Ok v)
  = Some (Throw (invalid_structure "Player"), <["Player" := VNull]> loaded) /\
  loaded !! "constructor" = None /\
  Structure.get loaded "constructor" = Some (Ok (VFun "constructor")).
Proof.
  split; [apply extend_truthy; [discriminate|reflexivity..]|].
  assert (G : Structure.get (<["Player" := VNull]> loaded) "Player"
              = Some (Throw missing_structure))
    by (apply get_falsy; [discriminate|rewrite lookup_stored; reflexivity]).
  split; [exact G|]. split; [rewrite G; discriminate|].
  split; [apply extend_falsy; [discriminate|rewrite lookup_stored; reflexivity]|].
  split; reflexivity.
Qed.

(** C7, amended. The registry binds the roles Player, Queue and Node to
    the three classes.  In every registry that calls of [extend] lead to
    from there, for a role that holds a truthy value and a transform that
    returns, [extend(role, fn)] applies [fn] to the value held, stores the
    result and returns it; when the result is truthy the [get(role)] that
    follows returns exactly [fn(previous)] and a second [extend] is applied
    to the result of the first, and when it is falsy the [get(role)] that
    follows throws the missing-structure error and a further [extend] of
    the role throws the invalid-structure error.  [extend] with a name
    that is neither a role nor a member of [Object.prototype] throws the
    invalid-structure error and changes nothing, as [get] with such a name
    throws; and [get] throws the missing-structure error whenever the name
    holds nothing truthy. *)
Theorem extend_then_get (Player Queue Node : value) (reg : gmap string value)
  (Hreach : reachable Player Queue Node reg) :
  (Structure.lookup (Structure.structures Player Queue Node) "Player" = Player /\
   Structure.lookup (Structure.structures Player Queue Node) "Queue" = Queue /\
   Structure.lookup (Structure.structures Player Queue Node) "Node" = Node) /\
  (forall role fn v, In role roles ->
     truthy (Structure.lookup reg role) = true ->
     fn (Structure.lookup reg role) = Ok v ->
     let reg' := <[role := v]> reg in
     Structure.extend reg role fn = Some (Ok v, reg') /\
     (truthy v = true ->
      Structure.get reg' role = Some (Ok v) /\
      forall g w, g v = Ok w ->
        Structure.extend reg' role g = Some (Ok w, <[role := w]> reg') /\
        (truthy w = true ->
         Structure.get (<[role := w]> reg') role = Some (Ok w))) /\
     (truthy v = false ->
      Structure.get reg' role = Some (Throw missing_structure) /\
      forall g,
        Structure.extend reg' role g
        = Some (Throw (invalid_structure role), reg'))) /\
  (forall name fn,
     ~ In name roles -> ~ In name Structure.Object_prototype ->
     name <> "__proto__" ->
     Structure.extend reg name fn = Some (Throw (invalid_structure name), reg) /\
     Structure.get reg name = Some (Throw missing_structure)) /\
  (forall (r : gmap string value) name,
     name <> "__proto__" -> truthy (Structure.lookup r name) = false ->
     Structure.get r name = Some (Throw missing_structure)).
Proof.
  split; [repeat split|]. split; [|split].
  - intros role fn v Hin Ht Hf reg'.
    pose proof (role_is_not_proto role Hin) as Hn.
    split; [apply extend_truthy; assumption|]. split.
    + intros Hv.
      assert (L : Structure.lookup reg' role = v) by apply lookup_stored.
      split; [rewrite get_truthy, L; [reflexivity|exact Hn|rewrite L; exact Hv]|].
      intros g w Hg. split.
      * apply extend_truthy; [exact Hn|rewrite L; exact Hv|rewrite L; exact Hg].
      * intros Hw.
        assert (L' : Structure.lookup (<[role := w]> reg') role = w)
          by apply lookup_stored.
        rewrite get_truthy, L'; [reflexivity|exact Hn|rewrite L'; exact Hw].
    + intros Hv.
      assert (L : truthy (Structure.lookup reg' role) = false)
        by (unfold reg'; rewrite lookup_stored; exact Hv).
      split; [apply get_falsy; assumption|].
      intros g. apply extend_falsy; assumption.
  - intros name fn Hr Hp Hn.
    assert (L : truthy (Structure.lookup reg name) = false)
      by (rewrite (reachable_outside _ _ _ _ _ Hreach Hr Hp); reflexivity).
    split; [apply extend_falsy; assumption|apply get_falsy; assumption].
  - intros r name Hn Ht. apply get_falsy; assumption.
Qed.

Lemma extend_then_get_witness :
  Structure.extend loaded "Queue" (fun _ => Ok (VFun "MyQueue"))
  = Some (Ok (VFun "MyQueue"), <["Queue" := VFun "MyQueue"]> loaded) /\
  Structure.get (<["Queue" := VFun "MyQueue"]> loaded) "Queue"
  = Some (Ok (VFun "MyQueue")).
Proof.
  destruct (extend_then_get (VFun "Player") (VFun "Queue") (VFun "Node") loaded
              (reach_initial _ _ _)) as (_ & H & _).
  destruct (H "Queue" (fun _ => Ok (VFun "MyQueue")) (VFun "MyQueue"))
    as (He & Hg & _).
  - cbn. auto.
  - reflexivity.
  - reflexivity.
  - split; [exact He|]. apply Hg. reflexivity.
Defined.

(** ** Validation of tracks *)

Section Validate.

Import TrackUtils.

Variable h : list cell.
Hypothesis Htags : tags_true h.

Lemma get_tag v y :
  v <> VUndefined -> v <> VNull ->
  exists t, get h v (KSym y) = Ok t /\
            truthy t = tag_is_true h v y /\ is_true t = tag_is_true h v y.
Proof.
  intros H1 H2. unfold get, tag_is_true.
  destruct v as [| |b|n|s|f|l]; try contradiction;
    try (exists VUndefined; repeat split; reflexivity).
  destruct (h !! l) as [[o|elems]|] eqn:E;
    try (exists VUndefined; repeat split; reflexivity).
  unfold read. destruct (own (KSym y) o) as [p|] eqn:Ep;
    [|exists VUndefined; repeat split; reflexivity].
  exists (p_value p). rewrite (Htags _ _ _ _ E Ep). repeat split; reflexivity.
Qed.

Lemma either_tag_tagged v :
  v <> VUndefined -> v <> VNull ->
  exists t, either_tag h v = Ok t /\
            truthy t = tagged h v /\ is_true t = tagged h v.
Proof.
  intros H1 H2. unfold either_tag, tagged.
  destruct (get_tag v TRACK_SYMBOL H1 H2) as (a & -> & Ta & Ia).
  destruct (get_tag v UNRESOLVED_TRACK_SYMBOL H1 H2) as (b & Hb & Tb & Ib).
  cbn [bind]. destruct (truthy a) eqn:E.
  - exists a. rewrite E, Ia, <- Ta. auto.
  - exists b. rewrite Hb, Ib, Tb, <- Ta. auto.
Qed.

Lemma either_tag_absent v :
  v = VUndefined \/ v = VNull ->
  (exists e, either_tag h v = Throw e) /\ tagged h v = false.
Proof. intros [-> | ->]; (split; [eexists|]; reflexivity). Qed.

Lemma value_absent_dec v : {v = VUndefined \/ v = VNull} + {v <> VUndefined /\ v <> VNull}.
Proof. destruct v; (left; auto; fail) || (right; split; discriminate). Qed.

End Validate.

(** C8. The array branch of [validate] does not apply the check of the
    single branch.  On the array that holds one object whose track marker
    is the number 1, [validate] returns true, since its loop tests whether
    a marker is truthy; on the object itself it returns false, since
    there the marker is compared with [true], and the object fails
    [isTrack] and [isUnresolvedTrack].  The single branch compares the
    first truthy marker: an object whose track marker is 1 and whose
    unresolved marker is [true] passes [isUnresolvedTrack] and fails
    [validate].  The rest is as claimed: [undefined] makes [validate]
    throw the [RangeError], the empty array is not valid, and an object
    without a marker fails all three checks. *)
Theorem validate_array_accepts_a_truthy_marker :
  TrackUtils.validate marked_heap VUndefined
  = Throw (RangeError "Provided argument must be present.") /\
  as_array marked_heap (VRef 3) = Some [] /\
  TrackUtils.validate marked_heap (VRef 3) = Ok false /\
  TrackUtils.validate marked_heap (VRef 4) = Ok false /\
  TrackUtils.isTrack marked_heap (VRef 4) = Ok false /\
  TrackUtils.isUnresolvedTrack marked_heap (VRef 4) = Ok false /\
  as_array marked_heap (VRef 1) = Some [VRef 0] /\
  TrackUtils.validate marked_heap (VRef 1) = Ok true /\
  TrackUtils.validate marked_heap (VRef 0) = Ok false /\
  TrackUtils.isTrack marked_heap (VRef 0) = Ok false /\
  TrackUtils.isUnresolvedTrack marked_heap (VRef 0) = Ok false /\
  TrackUtils.isUnresolvedTrack marked_heap (VRef 2) = Ok true /\
  TrackUtils.validate marked_heap (VRef 2) = Ok false.
Proof. repeat split; vm_compute; reflexivity. Qed.

(** ** The field whitelist *)

Section Whitelist.

Import TrackUtils.

Lemma setTrackPartial_rejects st partial :
  (forall elems, as_array (heap st) partial = Some elems ->
                 forallb is_string elems = false) ->
  setTrackPartial st partial
  = (Throw (Error "Provided partial is not an array or not a string array."), st).
Proof.
  intros H. unfold setTrackPartial.
  destruct (as_array (heap st) partial) as [elems|] eqn:E; [|reflexivity].
  rewrite (H elems eq_refl). destruct partial; reflexivity.
Qed.

Lemma as_array_ref (h : list cell) v elems :
  as_array h v = Some elems ->
  exists l, v = VRef l /\ h !! l = Some (CArray elems).
Proof.
  unfold as_array. destruct v; try discriminate.
  destruct (h !! l) as [[|]|] eqn:E; try discriminate.
  intros [= ->]. eauto.
Qed.

Lemma setTrackPartial_accepts st partial elems :
  as_array (heap st) partial = Some elems ->
  forallb is_string elems = true ->
  exists l, partial = VRef l /\ heap st !! l = Some (CArray elems) /\
    setTrackPartial st partial
    = (Ok tt, State (<[l := CArray (whitelist elems)]> (heap st)) partial
                    (manager st)).
Proof.
  intros Harr Hstr. destruct (as_array_ref _ _ _ Harr) as (l & -> & Hl).
  exists l. split; [reflexivity|]. split; [exact Hl|].
  unfold setTrackPartial. rewrite Harr, Hstr. reflexivity.
Qed.

Lemma whitelist_includes_track elems :
  array_includes (whitelist elems) "track" = true.
Proof.
  unfold whitelist. destruct (array_includes elems "track") eqn:E; [exact E|].
  reflexivity.
Qed.

Lemma as_array_grow (h : list cell) v elems c :
  as_array h v = Some elems -> as_array (h ++ [c])%list v = Some elems.
Proof.
  intros H. destruct (as_array_ref _ _ _ H) as (l & -> & Hl).
  unfold as_array. rewrite lookup_app_l by (apply lookup_lt_Some in Hl; exact Hl).
  rewrite Hl. reflexivity.
Qed.

(** A track built under a whitelist. *)
Lemma build_under_whitelist st partial wl data requester :
  trackPartial st = partial -> as_array (heap st) partial = Some wl ->
  let o := (List.filter (kept wl) (track_literal data requester)
            ++ [(KSym TRACK_SYMBOL, tag_property)])%list in
  let st' := State (heap st ++ [CObject o]) partial (manager st) in
  build st (Some data) requester = (Ok (VRef (length (heap st))), st') /\
  as_array (heap st') partial = Some wl /\
  keys o = List.filter (array_includes wl) track_fields /\
  getOwnPropertyNames o = keys o /\
  (forall n, ~ In n (List.filter (array_includes wl) track_fields) ->
             own (KStr n) o = None) /\
  own (KSym TRACK_SYMBOL) o = Some tag_property /\
  isTrack (heap st') (VRef (length (heap st))) = Ok true /\
  isUnresolvedTrack (heap st') (VRef (length (heap st))) = Ok false /\
  (forall l0 c, heap st !! l0 = Some c -> heap st' !! l0 = Some c).
Proof.
  intros Htp Harr o st'.
  destruct (as_array_ref _ _ _ Harr) as (l & Hp & Hl).
  assert (Ht : truthy partial = true) by (rewrite Hp; reflexivity).
  assert (Hnames : only_names (List.filter (kept wl) (track_literal data requester)))
    by apply only_names_filter, track_literal_names.
  destruct (keys_filter_plain (array_includes wl) (track_literal data requester)
              (track_literal_plain _ _) (track_literal_names _ _)) as [K1 K2].
  change (fun kp : key * property =>
            match fst kp with
            | KStr n => array_includes wl n
            | KSym _ => true
            end) with (kept wl) in K1, K2.
  rewrite keys_track_literal in K1, K2.
  destruct (keys_app_tag (List.filter (kept wl) (track_literal data requester))
              TRACK_SYMBOL tag_property eq_refl) as [A1 A2].
  assert (Hown : own (KSym TRACK_SYMBOL) o = Some tag_property)
    by (apply own_app_tag, own_symbol_only_names, Hnames).
  assert (Hlook : (heap st ++ [CObject o])%list !! length (heap st)
                  = Some (CObject o))
    by (rewrite lookup_app_r, Nat.sub_diag by lia; reflexivity).
  split; [|split; [|split; [|split; [|split; [|split; [|split; [|split]]]]]]].
  - unfold build. rewrite Htp.
    rewrite (build_object_projected _ _ wl) by assumption. reflexivity.
  - apply as_array_grow. exact Harr.
  - unfold o. rewrite A1. exact K1.
  - unfold o. rewrite A1, A2, K2, K1. reflexivity.
  - intros n Hn. unfold o. rewrite own_app_name.
    destruct (own (KStr n) (List.filter (kept wl) (track_literal data requester)))
      as [p|] eqn:E; [|reflexivity].
    exfalso. apply Hn. rewrite <- K1.
    apply own_In in E. pose proof E as E'.
    apply plain_names_filter in E'; [|apply track_literal_plain].
    unfold keys. apply in_flat_map. exists (KStr n, p).
    split; [exact E|]. rewrite E'. left. reflexivity.
  - exact Hown.
  - unfold isTrack, get. cbn [heap st']. rewrite Hlook. unfold read. rewrite Hown.
    reflexivity.
  - unfold isUnresolvedTrack, get. cbn [heap st']. rewrite Hlook. unfold read.
    replace (own (KSym UNRESOLVED_TRACK_SYMBOL) o) with (@None property);
      [reflexivity|].
    symmetry. unfold o.
    assert (G : forall (x : object), only_names x ->
                own (KSym UNRESOLVED_TRACK_SYMBOL)
                    (x ++ [(KSym TRACK_SYMBOL, tag_property)])%list = None).
    { induction x as [|[k p] x IHx]; intros Hx; [reflexivity|].
      pose proof (Hx (k, p) (or_introl eq_refl)) as Hk.
      destruct k; [|discriminate]. cbn [app own key_eqb]. apply IHx.
      intros kp Hin. apply Hx. right. exact Hin. }
    apply G, Hnames.
  - intros l0 c Hc. cbn [heap st']. rewrite lookup_app_l; [exact Hc|].
    apply lookup_lt_Some in Hc. exact Hc.
Qed.

End Whitelist.

(** C6. [setTrackPartial] throws, and changes nothing, on any input that
    is not an array of strings.  On an array of strings it prepends
    ["track"] when absent and keeps the array as the whitelist, touching no
    other object; and from then on, in every state that still holds this
    whitelist, [build] returns a new object whose string keys are exactly
    the track fields the whitelist names (every other field is gone, and
    the object has no other own name), to which the hidden tag of a
    resolved track is then added, so that it passes [isTrack]; the state
    after the call holds the whitelist again, and no object that existed
    before is changed by the call. *)
Theorem whitelist_projects_built_tracks (st : TrackUtils.state) (partial : value)
  (elems : list value)
  (Harr : as_array (TrackUtils.heap st) partial = Some elems)
  (Hstr : forallb is_string elems = true) :
  (forall st0 v,
     (forall es, as_array (TrackUtils.heap st0) v = Some es ->
                 forallb is_string es = false) ->
     TrackUtils.setTrackPartial st0 v
     = (Throw (Error "Provided partial is not an array or not a string array."),
        st0)) /\
  exists st1,
    TrackUtils.setTrackPartial st partial = (Ok tt, st1) /\
    TrackUtils.trackPartial st1 = partial /\
    as_array (TrackUtils.heap st1) partial = Some (whitelist elems) /\
    whitelist elems
    = (if TrackUtils.array_includes elems "track" then elems
       else VStr "track" :: elems) /\
    TrackUtils.array_includes (whitelist elems) "track" = true /\
    (forall l0 c, VRef l0 <> partial ->
       TrackUtils.heap st !! l0 = Some c -> TrackUtils.heap st1 !! l0 = Some c) /\
    forall st' data requester,
      TrackUtils.trackPartial st' = partial ->
      as_array (TrackUtils.heap st') partial = Some (whitelist elems) ->
      exists st'' o,
        TrackUtils.build st' (Some data) requester
        = (Ok (VRef (length (TrackUtils.heap st'))), st'') /\
        TrackUtils.heap st'' = (TrackUtils.heap st' ++ [CObject o])%list /\
        TrackUtils.trackPartial st'' = partial /\
        as_array (TrackUtils.heap st'') partial = Some (whitelist elems) /\
        o = (List.filter (kept (whitelist elems))
                         (TrackUtils.track_literal data requester)
             ++ [(KSym TRACK_SYMBOL, tag_property)])%list /\
        keys o
        = List.filter (TrackUtils.array_includes (whitelist elems)) track_fields /\
        getOwnPropertyNames o = keys o /\
        (forall n, ~ In n (keys o) -> own (KStr n) o = None) /\
        TrackUtils.isTrack (TrackUtils.heap st'')
                           (VRef (length (TrackUtils.heap st'))) = Ok true /\
        (forall l0 c, TrackUtils.heap st' !! l0 = Some c ->
                      TrackUtils.heap st'' !! l0 = Some c).
Proof.
  split; [intros st0 v; apply setTrackPartial_rejects|].
  destruct (setTrackPartial_accepts st partial elems Harr Hstr)
    as (l & Hp & Hl & Hset).
  eexists. split; [exact Hset|]. cbn [TrackUtils.trackPartial TrackUtils.heap].
  split; [reflexivity|]. split.
  { rewrite Hp. unfold as_array.
    rewrite list_lookup_insert_eq by (apply lookup_lt_Some in Hl; exact Hl).
    reflexivity. }
  split; [reflexivity|]. split; [apply whitelist_includes_track|]. split.
  { intros l0 c Hne Hc. rewrite list_lookup_insert_ne; [exact Hc|]. congruence. }
  intros st' data requester Htp Hwl.
  destruct (build_under_whitelist st' partial (whitelist elems) data requester
              Htp Hwl) as (B1 & B2 & B3 & B4 & B5 & B6 & B7 & _ & B9).
  eexists _, _. split; [exact B1|].
  cbn [TrackUtils.trackPartial TrackUtils.heap].
  repeat (split; [reflexivity || assumption|]).
  split; [|split; [exact B7|exact B9]].
  intros n Hn. apply B5. rewrite <- B3. exact Hn.
Qed.

Lemma whitelist_projects_built_tracks_witness :
  exists st1,
    TrackUtils.setTrackPartial title_only (VRef 0) = (Ok tt, st1) /\
    as_array (TrackUtils.heap st1) (VRef 0) = Some [VStr "track"; VStr "title"] /\
    exists st2 o,
      TrackUtils.build st1 (Some example_data) VUndefined = (Ok (VRef 1), st2) /\
      TrackUtils.heap st2 !! 1%nat = Some (CObject o) /\
      keys o = ["track"; "title"].
Proof.
  destruct (whitelist_projects_built_tracks title_only (VRef 0) [VStr "title"]
              eq_refl eq_refl)
    as (_ & st1 & Hset & Htp & Harr & _ & _ & _ & Hbuild).
  exists st1. split; [exact Hset|]. split; [exact Harr|].
  destruct (Hbuild st1 example_data VUndefined Htp Harr)
    as (st2 & o & Hb & Hh & _ & _ & _ & Hk & _).
  vm_compute in Hset. injection Hset as <-.
  exists st2, o. split; [exact Hb|]. split; [rewrite Hh; reflexivity|].
  rewrite Hk. reflexivity.
Defined.

(** ** [resolve()] and the capability tags *)

Section ResolveClaims.

Import TrackUtils.

Lemma example_track_hidden : hidden_tags example_track.
Proof.
  intros y p Hin. unfold example_track in Hin. cbn [track_literal app In] in Hin.
  repeat (destruct Hin as [Hin|Hin]; [try discriminate Hin|]);
    try contradiction.
  injection Hin as _ <-. reflexivity.
Qed.

Lemma example_provider_hides : provider_hides_tags example_provider.
Proof.
  intros q r res [= <-]. cbn [tracks].
  constructor; [apply example_track_hidden|constructor].
Qed.

Lemma empty_provider_hides : provider_hides_tags empty_provider.
Proof. intros q r res [= <-]. constructor. Qed.

Lemma empty_heap_hides : heap_hides_tags [].
Proof. intros l o H. destruct l; discriminate H. Qed.

(** What [resolve()] does to an object that [buildUnresolved] has just
    made. *)
Lemma resolve_after_build st query requester v st1 :
  heap_hides_tags (heap st) ->
  (forall m, manager st = Some m -> provider_hides_tags m) ->
  buildUnresolved st query requester = (Ok v, st1) ->
  exists l o,
    v = VRef l /\ heap st1 !! l = Some (CObject o) /\ unresolved_object o /\
    (forall e, getClosestTrack st1 v = Throw e -> resolve st1 v = (Throw e, st1)) /\
    (forall resolved,
       getClosestTrack st1 v = Ok resolved ->
       exists o2,
         resolve st1 v
         = (Ok tt, State (<[l := CObject o2]> (heap st1)) (trackPartial st1)
                         (manager st1)) /\
         (<[l := CObject o2]> (heap st1)) !! l = Some (CObject o2) /\
         unresolved_object o2 /\
         (forall n, In n (getOwnPropertyNames o2) <->
                    In (KStr n) (map fst (copied resolved))) /\
         (NoDup (map fst (copied resolved)) ->
          forall n x, In (KStr n, x) (copied resolved) -> read o2 (KStr n) = x)).
Proof.
  intros Hheap Hprov Hbuild.
  destruct (buildUnresolved_object _ _ _ _ _ Hheap Hbuild) as (o & -> & -> & Ho).
  exists (length (heap st)), o.
  assert (Hl : (heap st ++ [CObject o])%list !! length (heap st)
               = Some (CObject o))
    by (rewrite lookup_app_r, Nat.sub_diag by lia; reflexivity).
  split; [reflexivity|]. split; [exact Hl|]. split; [exact Ho|].
  destruct (resolve_spec (State (heap st ++ [CObject o]) (trackPartial st)
                                (manager st))
              (length (heap st)) o Hl Ho Hprov) as [R1 R2].
  split; [exact R1|]. intros resolved Hr.
  destruct (R2 resolved Hr) as (o2 & E & U2 & N2 & V2).
  exists o2. split; [exact E|]. split; [|auto].
  cbn [heap]. apply list_lookup_insert_eq. apply lookup_lt_Some in Hl. exact Hl.
Qed.

Lemma unresolved_object_checks (h : list cell) l o :
  h !! l = Some (CObject o) -> unresolved_object o ->
  isUnresolvedTrack h (VRef l) = Ok true /\ isTrack h (VRef l) = Ok false.
Proof.
  intros Hl (_ & Hu & Ht). unfold isUnresolvedTrack, isTrack, get, read.
  rewrite Hl, Hu, Ht. split; reflexivity.
Qed.

End ResolveClaims.

(** C1, as stated, fails: after a successful [resolve()] the object that
    [buildUnresolved] made holds the fields of the track that was found,
    still fails [isTrack] and still passes [isUnresolvedTrack]. *)
Lemma resolved_object_is_not_a_track :
  fst (TrackUtils.buildUnresolved found_start (VStr "Song") VUndefined)
  = Ok (VRef 0) /\
  fst (TrackUtils.resolve found_built (VRef 0)) = Ok tt /\
  read (object_at found_resolved 0) (KStr "track") = VStr "QAAAjQIAJVJpY2s" /\
  TrackUtils.isTrack (TrackUtils.heap found_resolved) (VRef 0) = Ok false /\
  TrackUtils.isUnresolvedTrack (TrackUtils.heap found_resolved) (VRef 0) = Ok true.
Proof. vm_compute. repeat split; reflexivity. Qed.

(** C1, amended. For every object that [buildUnresolved] returns, in a
    state whose objects and whose provider keep their tags hidden, a
    [resolve()] that completes leaves the same object with its unresolved
    tag and without a resolved tag: it still passes [isUnresolvedTrack] and
    still fails [isTrack], while its own names are now those copied from
    the track that the lookup returned. *)
Theorem resolve_keeps_the_unresolved_tag
  (st : TrackUtils.state) (query requester v : value) (st1 st2 : TrackUtils.state)
  (Hheap : heap_hides_tags (TrackUtils.heap st))
  (Hprov : forall m, TrackUtils.manager st = Some m -> provider_hides_tags m)
  (Hbuild : TrackUtils.buildUnresolved st query requester = (Ok v, st1))
  (Hres : TrackUtils.resolve st1 v = (Ok tt, st2)) :
  TrackUtils.isUnresolvedTrack (TrackUtils.heap st2) v = Ok true /\
  TrackUtils.isTrack (TrackUtils.heap st2) v = Ok false /\
  exists l o2 resolved,
    v = VRef l /\
    TrackUtils.heap st2 !! l = Some (CObject o2) /\
    TrackUtils.getClosestTrack st1 v = Ok resolved /\
    (forall n, In n (getOwnPropertyNames o2) <->
               In (KStr n) (map fst (copied resolved))).
Proof.
  destruct (resolve_after_build _ _ _ _ _ Hheap Hprov Hbuild)
    as (l & o & -> & Hl & Ho & R1 & R2).
  destruct (TrackUtils.getClosestTrack st1 (VRef l)) as [resolved|e] eqn:E.
  - destruct (R2 resolved eq_refl) as (o2 & Er & Hl2 & U2 & N2 & _).
    rewrite Er in Hres. injection Hres as <-. cbn [TrackUtils.heap].
    destruct (unresolved_object_checks _ _ _ Hl2 U2) as [C1 C2].
    split; [exact C1|]. split; [exact C2|]. exists l, o2, resolved. auto.
  - rewrite (R1 e eq_refl) in Hres. discriminate Hres.
Qed.

Lemma resolve_keeps_the_unresolved_tag_witness :
  TrackUtils.isUnresolvedTrack (TrackUtils.heap found_resolved) (VRef 0) = Ok true /\
  TrackUtils.isTrack (TrackUtils.heap found_resolved) (VRef 0) = Ok false.
Proof.
  destruct (resolve_keeps_the_unresolved_tag found_start (VStr "Song") VUndefined
              (VRef 0) found_built found_resolved) as (H1 & H2 & _).
  - apply empty_heap_hides.
  - intros m [= <-]. apply example_provider_hides.
  - reflexivity.
  - reflexivity.
  - split; assumption.
Defined.

(** C2, as stated, fails: when the lookup finds nothing, [resolve()] throws
    and the object is as it was, with its fields in place. *)
Lemma failed_resolve_leaves_the_fields :
  fst (TrackUtils.resolve missing_built (VRef 0))
  = Throw (ThrownException TrackUtils.no_tracks_found) /\
  missing_resolved = missing_built /\
  getOwnPropertyNames (object_at missing_resolved 0)
  = ["requester"; "resolve"; "title"] /\
  read (object_at missing_resolved 0) (KStr "title") = VStr "Song".
Proof. vm_compute. repeat split; reflexivity. Qed.

(** C2, amended. For every object that [buildUnresolved] returns, in a state
    whose objects and whose provider keep their tags hidden: when
    [resolve()] throws, the error is the one the closest-track lookup threw
    and the state is unchanged, so the object keeps its fields; when it
    completes, the lookup returned and the own names of the object are
    exactly the names copied from what it returned, with their values.  In
    no outcome does [resolve()] throw with the fields deleted. *)
Theorem resolve_throws_before_it_clears
  (st : TrackUtils.state) (query requester v : value) (st1 : TrackUtils.state)
  (Hheap : heap_hides_tags (TrackUtils.heap st))
  (Hprov : forall m, TrackUtils.manager st = Some m -> provider_hides_tags m)
  (Hbuild : TrackUtils.buildUnresolved st query requester = (Ok v, st1)) :
  (forall e st2,
     TrackUtils.resolve st1 v = (Throw e, st2) ->
     st2 = st1 /\ TrackUtils.getClosestTrack st1 v = Throw e) /\
  (forall r st2,
     TrackUtils.resolve st1 v = (Ok r, st2) ->
     exists l o2 resolved,
       v = VRef l /\
       TrackUtils.getClosestTrack st1 v = Ok resolved /\
       TrackUtils.heap st2 !! l = Some (CObject o2) /\
       (forall n, In n (getOwnPropertyNames o2) <->
                  In (KStr n) (map fst (copied resolved))) /\
       (NoDup (map fst (copied resolved)) ->
        forall n x, In (KStr n, x) (copied resolved) -> read o2 (KStr n) = x)).
Proof.
  destruct (resolve_after_build _ _ _ _ _ Hheap Hprov Hbuild)
    as (l & o & -> & Hl & Ho & R1 & R2).
  split.
  - intros e st2 Hres.
    destruct (TrackUtils.getClosestTrack st1 (VRef l)) as [resolved|e'] eqn:E.
    + destruct (R2 resolved eq_refl) as (o2 & Er & _).
      rewrite Er in Hres. discriminate Hres.
    + rewrite (R1 e' eq_refl) in Hres. injection Hres as <- <-. auto.
  - intros r st2 Hres.
    destruct (TrackUtils.getClosestTrack st1 (VRef l)) as [resolved|e'] eqn:E.
    + destruct (R2 resolved eq_refl) as (o2 & Er & Hl2 & _ & N2 & V2).
      rewrite Er in Hres. injection Hres as _ <-.
      exists l, o2, resolved. cbn [TrackUtils.heap]. auto.
    + rewrite (R1 e' eq_refl) in Hres. discriminate Hres.
Qed.

Lemma resolve_throws_before_it_clears_witness :
  missing_resolved = missing_built /\
  TrackUtils.getClosestTrack missing_built (VRef 0)
  = Throw (ThrownException TrackUtils.no_tracks_found).
Proof.
  destruct (resolve_throws_before_it_clears missing_start (VStr "Song") VUndefined
              (VRef 0) missing_built) as (H & _).
  - apply empty_heap_hides.
  - intros m [= <-]. apply empty_provider_hides.
  - reflexivity.
  - apply (H (ThrownException TrackUtils.no_tracks_found) missing_resolved).
    reflexivity.
Defined.

(** ** The selection of the closest track *)




(** * Lemmas for the further properties *)
(** ** Tokens that stand one after the other *)

Section TokenLists.

Lemma concat_tokens_start l :
  Forall token_ok l -> stops not_digit (concat_all (map token l)) = true.
Proof.
  intros H. destruct H as [|[a u] l (Ha & _) _]; [reflexivity|].
  cbn [map concat_all fold_right]. unfold token at 1. cbn [fst snd] in *.
  destruct a as [|c a]; [discriminate Ha|].
  rewrite !append_cons. cbn [stops]. unfold not_digit.
  cbn [is_digits all_chars] in Ha. apply andb_true_iff in Ha as [-> _]. reflexivity.
Qed.

Lemma tokens_stand l : Forall token_ok l -> tokens_in_place (map token l).
Proof.
  induction 1 as [|[a u] l (Ha & Hu & Hn & Hd) Hl IH]; [exact I|].
  cbn [map tokens_in_place] in *. unfold token at 1 2. cbn [fst snd] in *.
  split; [|exact IH].
  destruct (is_digits_spec a Ha) as [Hne Hda].
  pose proof (match_token a EmptyString EmptyString u
                (concat_all (map token l)) Hne Hda eq_refl eq_refl Hu Hn) as M.
  rewrite !append_nil_l in M. rewrite append_assoc. apply M.
  - rewrite stops_app by assumption.
    destruct u as [|c u]; [contradiction|]. cbn [all_chars stops] in *.
    apply andb_true_iff in Hn as [Hc _]. unfold not_digit in Hc.
    destruct (is_digit c); [discriminate|reflexivity].
  - rewrite stops_app by assumption. exact Hd.
  - apply concat_tokens_start. exact Hl.
Qed.

Lemma tokens_nonempty l :
  Forall token_ok l -> Forall (fun tok => tok <> EmptyString) (map token l).
Proof.
  induction 1 as [|[a u] l (Ha & _) _ IH]; constructor; [|exact IH].
  unfold token. cbn [fst snd]. destruct a; [discriminate Ha|discriminate].
Qed.

Lemma sum_tokens l :
  Forall token_ok l ->
  sum_millis (map token l)
  = sum_Z (map (fun au => digits_value (fst au)
                          * suffix_weight (String.length (snd au) =? 1)%nat
                                          (toLowerCase (snd au))) l).
Proof.
  induction 1 as [|[a u] l (Ha & Hu & Hn & Hd) _ IH]; [reflexivity|].
  cbn [map sum_millis fold_right sum_Z] in *. unfold token at 1.
  cbn [fst snd] in *.
  destruct (is_digits_spec a Ha) as [Hne Hda].
  rewrite plain_token_millis by assumption. f_equal. exact IH.
Qed.

End TokenLists.

(** ** The unit words *)

Section Units.

Lemma lower_char_keeps (c x : ascii) :
  (N_of_ascii c <? 65)%N = true ->
  Ascii.eqb (lower_char x) c = Ascii.eqb x c.
Proof.
  intros Hc. unfold lower_char.
  destruct (((65 <=? N_of_ascii x)%N && (N_of_ascii x <=? 90)%N)
            || ((192 <=? N_of_ascii x)%N && (N_of_ascii x <=? 222)%N
                && negb (N_of_ascii x =? 215)%N)) eqn:E;
    [|reflexivity].
  assert (B : (65 <= N_of_ascii x <= 222)%N).
  { apply orb_true_iff in E as [E|E].
    - apply andb_true_iff in E as [E1 E2]. apply N.leb_le in E1, E2. lia.
    - apply andb_true_iff in E as [E _]. apply andb_true_iff in E as [E1 E2].
      apply N.leb_le in E1, E2. lia. }
  apply N.ltb_lt in Hc.
  transitivity false; [|symmetry]; apply Ascii.eqb_neq; intros <-.
  - rewrite N_ascii_embedding in Hc by lia. lia.
  - lia.
Qed.

Lemma has_char_lower c s :
  (N_of_ascii c <? 65)%N = true -> has_char c (toLowerCase s) = has_char c s.
Proof.
  intros Hc. unfold has_char. f_equal.
  induction s as [|x s IH]; [reflexivity|].
  cbn [toLowerCase all_chars]. rewrite IH, lower_char_keeps by exact Hc.
  reflexivity.
Qed.

Lemma unit_word u :
  In (toLowerCase u) (map fst unit_table) ->
  (snd (u, u) <> EmptyString /\ all_chars not_digit u = true /\
   stops is_dot u = true) /\
  has_char ":" u = false /\ has_char " " u = false /\
  suffix_weight (String.length u =? 1)%nat (toLowerCase u) = unit_weight u.
Proof.
  intros Hin.
  rewrite <- (all_not_digit_lower u), <- (stops_dot_lower u).
  rewrite <- (has_char_lower ":" u), <- (has_char_lower " " u) by reflexivity.
  rewrite <- (length_toLowerCase u). unfold unit_weight.
  assert (Hne : toLowerCase u <> EmptyString -> u <> EmptyString)
    by (intros H ->; apply H; reflexivity).
  cbn [snd]. cbn [map fst unit_table In] in Hin.
  repeat (destruct Hin as [Hin|Hin];
          [rewrite <- Hin in *;
           repeat split; (apply Hne; discriminate) || (vm_compute; reflexivity)|]).
  contradiction.
Qed.

End Units.

(** ** What [parseTime] reads *)

Section Reading.

Lemma parseTime_normalised time :
  normalise (normalise time) = normalise time ->
  parseTime time = parseTime (normalise time).
Proof. intros H. unfold parseTime. rewrite H. reflexivity. Qed.

Lemma is_digits_app_word x u r :
  u <> EmptyString -> all_chars not_digit u = true ->
  is_digits (x ++ u ++ r) = false.
Proof.
  intros Hu Hn.
  assert (E : all_chars is_digit (x ++ u ++ r) = false).
  { rewrite !all_chars_app. destruct u as [|c u]; [contradiction|].
    cbn [all_chars] in *. apply andb_true_iff in Hn as [Hc _].
    unfold not_digit in Hc. destruct (is_digit c); [discriminate|].
    apply andb_false_r. }
  unfold is_digits. destruct (x ++ u ++ r); [reflexivity|exact E].
Qed.

Lemma concat_tokens_plain l :
  Forall (fun au => is_digits (fst au) = true) l ->
  Forall (fun au => In (toLowerCase (snd au)) (map fst unit_table)) l ->
  has_char ":" (concat_all (map token l)) = false /\
  has_char " " (concat_all (map token l)) = false /\
  is_digits (concat_all (map token l)) = false.
Proof.
  intros Hnum Hunit. split; [|split].
  - induction Hnum as [|[a u] l Ha _ IH]; [reflexivity|].
    inversion Hunit as [|? ? Hu Hl]; subst.
    cbn [map concat_all fold_right]. unfold token at 1. cbn [fst snd] in *.
    destruct (unit_word u Hu) as (_ & Hc & _).
    destruct (is_digits_spec a Ha) as [_ Hda].
    rewrite !has_char_app, Hc, (has_char_digits ":" a) by (reflexivity || assumption).
    apply IH. exact Hl.
  - induction Hnum as [|[a u] l Ha _ IH]; [reflexivity|].
    inversion Hunit as [|? ? Hu Hl]; subst.
    cbn [map concat_all fold_right]. unfold token at 1. cbn [fst snd] in *.
    destruct (unit_word u Hu) as (_ & _ & Hc & _).
    destruct (is_digits_spec a Ha) as [_ Hda].
    rewrite !has_char_app, Hc, (has_char_digits " " a) by (reflexivity || assumption).
    apply IH. exact Hl.
  - destruct Hnum as [|[a u] l Ha _]; [reflexivity|].
    inversion Hunit as [|? ? Hu Hl]; subst.
    cbn [map concat_all fold_right]. unfold token at 1. cbn [fst snd] in *.
    destruct (unit_word u Hu) as ((Hne & Hn & _) & _).
    rewrite append_assoc. apply is_digits_app_word; assumption.
Qed.

Lemma tokens_of_units l :
  Forall (fun au => is_digits (fst au) = true) l ->
  Forall (fun au => In (toLowerCase (snd au)) (map fst unit_table)) l ->
  Forall token_ok l /\
  sum_millis (map token l) = sum_Z (map token_value l).
Proof.
  intros Hnum Hunit.
  assert (Hok : Forall token_ok l).
  { induction Hnum as [|[a u] l Ha _ IH]; [constructor|].
    inversion Hunit as [|? ? Hu Hl]; subst. constructor; [|apply IH, Hl].
    destruct (unit_word u Hu) as (H & _). split; [exact Ha|exact H]. }
  split; [exact Hok|]. rewrite sum_tokens by exact Hok. f_equal.
  clear Hok Hnum. induction Hunit as [|[a u] l Hu _ IH]; [reflexivity|].
  cbn [map]. rewrite IH. f_equal. unfold token_value. cbn [fst snd] in *.
  destruct (unit_word u Hu) as (_ & _ & _ & ->). reflexivity.
Qed.

Lemma parseTime_token_list l :
  Forall (fun au => is_digits (fst au) = true) l ->
  Forall (fun au => In (toLowerCase (snd au)) (map fst unit_table)) l ->
  parseTime (concat_all (map token l)) = nonzero (sum_Z (map token_value l)).
Proof.
  intros Hnum Hunit.
  destruct (concat_tokens_plain l Hnum Hunit) as (Hc & Hs & Hd).
  destruct (tokens_of_units l Hnum Hunit) as [Hok Hsum].
  rewrite (parseTime_tokens _ (map token l)).
  - rewrite Hsum. reflexivity.
  - apply normalise_plain; assumption.
  - apply tokens_stand, Hok.
  - apply tokens_nonempty, Hok.
Qed.

Lemma normalise_digits a : is_digits a = true -> normalise a = a ++ "seconds".
Proof.
  intros Ha. destruct (is_digits_spec a Ha) as [_ Hda]. unfold normalise.
  rewrite !includes_char, (has_char_digits ":" a), (has_char_digits " " a)
    by (reflexivity || assumption).
  rewrite Ha. reflexivity.
Qed.

Lemma parseTime_digits a :
  is_digits a = true -> parseTime a = nonzero (digits_value a * 1000).
Proof.
  intros Ha.
  pose proof (parseTime_token_list [(a, "seconds")]) as P.
  cbn [map concat_all fold_right sum_Z] in P. unfold token, token_value in P.
  cbn [fst snd] in P. rewrite append_nil_r, Z.add_0_r in P.
  change (unit_weight "seconds") with 1000 in P.
  assert (N : normalise (a ++ "seconds") = a ++ "seconds").
  { destruct (is_digits_spec a Ha) as [_ Hda]. apply normalise_plain.
    - rewrite has_char_app, (has_char_digits ":" a) by (reflexivity || assumption).
      reflexivity.
    - rewrite has_char_app, (has_char_digits " " a) by (reflexivity || assumption).
      reflexivity.
    - apply is_digits_with_letter; [discriminate|reflexivity]. }
  rewrite parseTime_normalised
    by (rewrite (normalise_digits a) by exact Ha; exact N).
  rewrite normalise_digits by exact Ha.
  apply P.
  - constructor; [exact Ha|constructor].
  - constructor; [vm_compute; left; reflexivity|constructor].
Qed.

End Reading.

(** ** Whitespace, strings without a digit, and the sign of the result *)

Section Edges.

Lemma has_char_strip_space s : has_char " " (strip s) = false.
Proof.
  unfold has_char. apply negb_false_iff.
  induction s as [|x s IH]; [reflexivity|]. cbn [strip].
  destruct (is_whitespace x) eqn:E; [exact IH|]. cbn [all_chars].
  rewrite IH, andb_true_r. apply negb_true_iff, Ascii.eqb_neq.
  intros ->. discriminate E.
Qed.

Lemma has_char_strip_colon s : has_char ":" (strip s) = has_char ":" s.
Proof.
  unfold has_char. f_equal.
  induction s as [|x s IH]; [reflexivity|]. cbn [strip].
  destruct (is_whitespace x) eqn:E; cbn [all_chars]; rewrite IH; [|reflexivity].
  replace (Ascii.eqb x ":") with false; [reflexivity|].
  symmetry. apply Ascii.eqb_neq. intros ->. discriminate E.
Qed.

Lemma normalise_strip time :
  has_char ":" time = false -> has_char " " time = true ->
  normalise time = normalise (strip time).
Proof.
  intros Hc Hs. unfold normalise. cbv zeta.
  rewrite !(includes_char _ ":"), has_char_strip_colon, Hc. cbv iota.
  rewrite !includes_char, has_char_strip_space, Hs, join_split_ws. reflexivity.
Qed.

Lemma all_chars_strip p s : all_chars p s = true -> all_chars p (strip s) = true.
Proof.
  induction s as [|x s IH]; [reflexivity|]. cbn [all_chars strip].
  intros H. apply andb_true_iff in H as [Hx Hs].
  destruct (is_whitespace x); [apply IH, Hs|].
  cbn [all_chars]. rewrite Hx, IH by exact Hs. reflexivity.
Qed.

Lemma split_char_all p c s :
  all_chars p s = true ->
  Forall (fun w => all_chars p w = true) (split_char c s).
Proof.
  induction s as [|a s IH]; [repeat constructor|]. cbn [all_chars split_char].
  intros H. apply andb_true_iff in H as [Ha Hs]. specialize (IH Hs).
  destruct (Ascii.eqb a c); [constructor; [reflexivity|exact IH]|].
  destruct IH as [|w ws Hw Hws]; constructor; try constructor;
    cbn [all_chars]; rewrite ?Ha, ?Hw; auto.
Qed.

Lemma with_unit_no_digit i v :
  all_chars not_digit v = true -> all_chars not_digit (with_unit i v) = true.
Proof.
  intros Hv. unfold with_unit. rewrite all_chars_app, Hv.
  do 7 (destruct i as [|i]; [reflexivity|]). reflexivity.
Qed.

Lemma join_imap_all (p : ascii -> bool) l :
  forall f : nat -> string -> string,
    (forall i v, all_chars p v = true -> all_chars p (f i v) = true) ->
    Forall (fun w => all_chars p w = true) l ->
    all_chars p (join EmptyString (imap f l)) = true.
Proof.
  induction l as [|w l IH]; intros f Hf Hl; [reflexivity|].
  inversion Hl as [|? ? Hw Hl']; subst. cbn [imap].
  rewrite join_empty_cons, all_chars_app, Hf by exact Hw.
  apply IH; [intros i v; apply Hf|exact Hl'].
Qed.

Lemma normalise_no_digit time :
  all_chars not_digit time = true -> all_chars not_digit (normalise time) = true.
Proof.
  intros H. unfold normalise.
  set (t1 := if includes time ":" then _ else time).
  assert (H1 : all_chars not_digit t1 = true).
  { unfold t1. destruct (includes time ":"); [|exact H].
    apply join_imap_all; [apply with_unit_no_digit|].
    apply List.Forall_rev, split_char_all, H. }
  set (t2 := if includes t1 " " then _ else t1).
  assert (H2 : all_chars not_digit t2 = true).
  { unfold t2. destruct (includes t1 " "); [|exact H1].
    rewrite join_split_ws. apply all_chars_strip, H1. }
  destruct (is_digits t2); [|exact H2].
  rewrite all_chars_app, H2. reflexivity.
Qed.

Lemma search_no_digit s :
  forall i, all_chars not_digit s = true -> search token_regex s i = None.
Proof.
  induction s as [|c s IH]; intros i H; [reflexivity|].
  cbn [all_chars] in H. apply andb_true_iff in H as [Hc Hs].
  unfold not_digit in Hc. apply negb_true_iff in Hc.
  cbn [search]. unfold token_regex at 1. rewrite match_here_cons.
  cbn [cls plus span least]. rewrite Hc. cbn [fst String.length greedy Nat.ltb Nat.leb].
  apply IH, Hs.
Qed.

Lemma parseInt_go_nonneg s : forall acc, 0 <= acc -> 0 <= parseInt_go s acc.
Proof.
  induction s as [|c s IH]; intros acc Hacc; [exact Hacc|]. cbn [parseInt_go].
  destruct (is_digit c) eqn:E; [|exact Hacc]. apply IH.
  unfold is_digit in E. apply andb_true_iff in E as [E _]. apply N.leb_le in E.
  unfold digit_value. lia.
Qed.

Lemma token_number_nonneg local : 0 <= token_number local.
Proof.
  unfold token_number. destruct (first_match number_regex local) as [m|]; [|lia].
  unfold parseInt. destruct m as [|c m]; [lia|].
  destruct (is_digit c); [|lia]. apply parseInt_go_nonneg. lia.
Qed.

Lemma token_millis_nonneg local : 0 <= token_millis local.
Proof.
  pose proof (token_number_nonneg local). unfold token_millis.
  repeat match goal with |- context [if ?b then _ else _] => destruct b end; lia.
Qed.

Lemma parse_loop_grows fuel time :
  forall lastIndex d d',
    parse_loop fuel time lastIndex d = Some d' -> d <= d'.
Proof.
  induction fuel as [|fuel IH]; intros i d d' H; [discriminate H|].
  cbn [parse_loop] in H.
  destruct (exec token_regex time i) as [[[index text]|] lastIndex'].
  - apply IH in H. pose proof (token_millis_nonneg (toLowerCase text)). lia.
  - injection H as <-. lia.
Qed.

End Edges.

(** ** Colon-separated times *)

Section Columns.

Lemma has_char_cons c a s :
  has_char c (String a s) = Ascii.eqb a c || has_char c s.
Proof. unfold has_char. cbn [all_chars]. destruct (Ascii.eqb a c); reflexivity. Qed.

Lemma split_char_none c x : has_char c x = false -> split_char c x = [x].
Proof.
  induction x as [|a x IH]; [reflexivity|]. rewrite has_char_cons.
  intros H. apply orb_false_iff in H as [Ha Hx]. cbn [split_char].
  rewrite Ha, IH by exact Hx. reflexivity.
Qed.

Lemma split_char_app c x rest :
  has_char c x = false ->
  split_char c (x ++ String c rest) = x :: split_char c rest.
Proof.
  induction x as [|a x IH].
  - intros _. rewrite append_nil_l. cbn [split_char].
    rewrite Ascii.eqb_refl. reflexivity.
  - rewrite has_char_cons. intros H. apply orb_false_iff in H as [Ha Hx].
    rewrite append_cons. cbn [split_char]. rewrite Ha, IH by exact Hx.
    reflexivity.
Qed.

Lemma split_join ds :
  ds <> [] -> Forall (fun d => has_char ":" d = false) ds ->
  split_char ":" (join ":" ds) = ds.
Proof.
  intros Hne H. induction H as [|d ds Hd Hds IH]; [contradiction|].
  destruct ds as [|d' ds]; [apply split_char_none, Hd|].
  rewrite join_cons2, append_cons, append_nil_l, split_char_app by exact Hd.
  rewrite IH by discriminate. reflexivity.
Qed.

Lemma join_has_colon d d' ds : has_char ":" (join ":" (d :: d' :: ds)) = true.
Proof.
  rewrite join_cons2, append_cons, append_nil_l, has_char_app, has_char_cons.
  rewrite Ascii.eqb_refl. apply orb_true_r.
Qed.

Lemma join_empty_concat l : join EmptyString l = concat_all l.
Proof.
  induction l as [|w l IH]; [reflexivity|].
  rewrite join_empty_cons, IH. reflexivity.
Qed.

Lemma imap_with_unit l :
  (length l <= 7)%nat -> imap with_unit l = map token (zip l template).
Proof.
  intros H.
  do 8 (destruct l as [|? l]; [reflexivity|]). cbn [length] in H. lia.
Qed.

Lemma columns_tokens_ok ds :
  Forall (fun d => is_digits d = true) ds ->
  Forall (fun au => is_digits (fst au) = true) (columns_tokens ds) /\
  Forall (fun au => In (toLowerCase (snd au)) (map fst unit_table))
         (columns_tokens ds).
Proof.
  intros H. apply List.Forall_rev in H. unfold columns_tokens.
  revert H. generalize (rev ds) as l. intros l H.
  assert (Ht : Forall (fun u => In (toLowerCase u) (map fst unit_table)) template).
  { unfold template.
    repeat (apply List.Forall_cons;
            [vm_compute; repeat ((left; reflexivity) || right)|]).
    apply List.Forall_nil. }
  revert Ht. generalize template as us. intros us Ht. revert us Ht.
  induction H as [|d l Hd _ IH]; intros us Ht; [split; constructor|].
  destruct Ht as [|u us Hu Hus]; [split; constructor|].
  destruct (IH us Hus) as [I1 I2]. split; constructor; assumption.
Qed.

Lemma columns_tokens_value ds :
  (length ds <= 7)%nat ->
  sum_Z (map token_value (columns_tokens ds)) = columns_millis ds.
Proof.
  intros H. unfold columns_tokens, columns_millis.
  rewrite <- length_rev in H. revert H. generalize (rev ds) as l. intros l H.
  do 8 (destruct l as [|? l]; [reflexivity|]). cbn [length] in H. lia.
Qed.

Lemma normalise_columns ds :
  Forall (fun d => is_digits d = true) ds -> (2 <= length ds <= 7)%nat ->
  normalise (join ":" ds) = concat_all (map token (columns_tokens ds)).
Proof.
  intros Hd Hlen.
  assert (Hcol : Forall (fun d => has_char ":" d = false) ds).
  { eapply List.Forall_impl; [|exact Hd]. cbn beta. intros d H.
    apply has_char_digits; [reflexivity|]. apply is_digits_spec, H. }
  destruct (columns_tokens_ok ds Hd) as [T1 T2].
  destruct (concat_tokens_plain _ T1 T2) as (_ & Hs & Hdig).
  unfold normalise. cbv zeta. rewrite (includes_char _ ":").
  destruct ds as [|d [|d' ds]]; try (cbn [length] in Hlen; lia).
  rewrite join_has_colon. cbv iota.
  rewrite split_join by (discriminate || exact Hcol).
  rewrite imap_with_unit by (rewrite length_rev; lia).
  rewrite join_empty_concat. fold (columns_tokens (d :: d' :: ds)).
  rewrite includes_char, Hs, Hdig. reflexivity.
Qed.

Lemma parseTime_columns ds :
  Forall (fun d => is_digits d = true) ds -> (2 <= length ds <= 7)%nat ->
  parseTime (join ":" ds) = nonzero (columns_millis ds).
Proof.
  intros Hd Hlen.
  destruct (columns_tokens_ok ds Hd) as [T1 T2].
  destruct (concat_tokens_plain _ T1 T2) as (Hc & Hs & Hdig).
  pose proof (normalise_columns ds Hd Hlen) as N.
  rewrite parseTime_normalised; rewrite N.
  - rewrite parseTime_token_list by assumption.
    rewrite columns_tokens_value by lia. reflexivity.
  - apply normalise_plain; assumption.
Qed.

End Columns.

(** ** The minimal rendering and its columns *)

Section Minimal.

Lemma pad2_digits v :
  0 <= v -> is_digits (pad2 v) = true /\ digits_value (pad2 v) = v.
Proof.
  intros Hv. pose proof (of_number_digits v Hv) as Hd.
  pose proof (digits_value_of_number v Hv) as Hval.
  unfold pad2. destruct (v <? 10); [|split; assumption].
  rewrite append_cons, append_nil_l.
  destruct (is_digits_spec _ Hd) as [_ Ha]. split.
  - cbn [is_digits all_chars]. rewrite Ha. reflexivity.
  - unfold digits_value in *. cbn [parseInt_go].
    change (is_digit "0") with true. cbv iota.
    change (10 * 0 + digit_value "0") with 0. exact Hval.
Qed.

Lemma join_digits_without c ds :
  is_digit c = false -> Ascii.eqb ":" c = false ->
  Forall (fun d => is_digits d = true) ds ->
  has_char c (join ":" ds) = false.
Proof.
  intros Hc Hcolon H. induction H as [|d ds Hd Hds IH]; [reflexivity|].
  assert (E : has_char c d = false)
    by (apply has_char_digits; [exact Hc|apply is_digits_spec, Hd]).
  destruct ds as [|d' ds]; [exact E|].
  rewrite join_cons2, append_cons, append_nil_l, has_char_app, has_char_cons.
  rewrite E, Hcolon, IH. reflexivity.
Qed.

Lemma render_columns t cols :
  columns false (entries t) = cols ->
  Forall (fun d => is_digits d = true) cols ->
  render true t
  = join ":" (if (length cols =? 1)%nat then "00" :: cols else cols).
Proof.
  intros Ht Hd. unfold render. rewrite collect_columns, app_nil_l, Ht.
  cbn [andb]. cbv zeta.
  rewrite includes_char, join_digits_without; try reflexivity.
  destruct (length cols =? 1)%nat; [constructor; [reflexivity|]|]; exact Hd.
Qed.

Lemma columns_small d h m s :
  columns false (entries (Times 0 0 0 d h m s))
  = if d =? 0 then
      if h =? 0 then
        if m =? 0 then if s =? 0 then [] else [pad2 s]
        else [pad2 m; pad2 s]
      else [pad2 h; pad2 m; pad2 s]
    else [pad2 d; pad2 h; pad2 m; pad2 s].
Proof.
  unfold columns, entries.
  cbn [from_first_nonzero snd years months weeks days hours minutes seconds].
  change (0 =? 0) with true. cbv iota.
  destruct (d =? 0), (h =? 0), (m =? 0), (s =? 0); reflexivity.
Qed.

Lemma render_minimal_small d h m s :
  0 <= d -> 0 <= h -> 0 <= m -> 0 <= s ->
  d * 86400000 + h * 3600000 + m * 60000 + s * 1000 <> 0 ->
  exists ds,
    Forall (fun x => is_digits x = true) ds /\ (2 <= length ds <= 7)%nat /\
    render true (Times 0 0 0 d h m s) = join ":" ds /\
    columns_millis ds = d * 86400000 + h * 3600000 + m * 60000 + s * 1000.
Proof.
  intros Hd Hh Hm Hs Hnz.
  destruct (pad2_digits d Hd) as [Dd Vd], (pad2_digits h Hh) as [Dh Vh],
    (pad2_digits m Hm) as [Dm Vm], (pad2_digits s Hs) as [Ds Vs].
  pose proof (columns_small d h m s) as C. unfold columns_millis.
  destruct (Z.eqb_spec d 0) as [->|Hd0];
    [destruct (Z.eqb_spec h 0) as [->|Hh0];
     [destruct (Z.eqb_spec m 0) as [->|Hm0];
      [destruct (Z.eqb_spec s 0) as [->|Hs0]; [lia|]|]|]|];
    (eexists; split; [|split; [|split; [apply (render_columns _ _ C)|]]]);
    cbn [length Nat.eqb rev app zip_with column_weights sum_Z fold_right];
    try (repeat constructor; assumption); try lia;
    rewrite ?Vd, ?Vh, ?Vm, ?Vs; change (digits_value "00") with 0; lia.
Qed.

End Minimal.

(** ** The decomposition, for durations below one week *)

Section Below_a_week.

Lemma decomposition_small ms :
  0 < ms < 604800000 ->
  decomposition ms
  = Times 0 0 0 (ms / 86400000) (ms mod 86400000 / 3600000)
          (ms mod 86400000 mod 3600000 / 60000)
          (round_div (ms mod 86400000 mod 3600000 mod 60000) 1000).
Proof.
  intros H. unfold decomposition.
  rewrite !(Z.mod_small ms) by lia. rewrite !(Z.div_small ms) by lia.
  reflexivity.
Qed.

Lemma rounded_total ms :
  0 <= ms ->
  ms / 86400000 * 86400000 + ms mod 86400000 / 3600000 * 3600000
  + ms mod 86400000 mod 3600000 / 60000 * 60000
  + round_div (ms mod 86400000 mod 3600000 mod 60000) 1000 * 1000
  = 1000 * round_div ms 1000.
Proof.
  intros H. unfold round_div. Z.div_mod_to_equations. lia.
Qed.

End Below_a_week.

(** ** The columns of the minimal rendering *)

Section MinimalColumns.

Lemma decomposition_ranges ms :
  0 < ms ->
  let t := decomposition ms in
  0 <= years t /\ 0 <= months t <= 12 /\
  (0 <= weeks t /\ (weeks t = 0 <-> whole_weeks ms = 0)) /\
  0 <= days t <= 6 /\ 0 <= hours t <= 23 /\ 0 <= minutes t <= 59 /\
  0 <= seconds t <= 60 /\
  -500 < millis_beside_weeks (whole_weeks ms) t - ms <= 500.
Proof.
  intros H. unfold decomposition, millis_beside_weeks, whole_weeks, round_div.
  cbn [years months weeks days hours minutes seconds].
  Z.div_mod_to_equations. lia.
Qed.

Lemma entries_nonneg ms :
  0 < ms -> Forall (fun e => 0 <= snd e) (entries (decomposition ms)).
Proof.
  intros H. pose proof (decomposition_ranges ms H) as R. cbv zeta in R.
  unfold entries. repeat constructor; cbn [snd]; lia.
Qed.

Lemma from_first_nonzero_suffix es :
  exists pre, es = (pre ++ from_first_nonzero es)%list.
Proof.
  induction es as [|e es [pre IH]]; [exists []; reflexivity|].
  cbn [from_first_nonzero]. destruct (snd e =? 0).
  - exists (e :: pre). cbn [app]. rewrite <- IH. reflexivity.
  - exists []. reflexivity.
Qed.

Lemma from_first_nonzero_nil es :
  from_first_nonzero es = [] -> Forall (fun e => snd e = 0) es.
Proof.
  induction es as [|e es IH]; [constructor|]. cbn [from_first_nonzero].
  destruct (Z.eqb_spec (snd e) 0); [|discriminate].
  intros H. constructor; [assumption|apply IH, H].
Qed.

Lemma single_digit_value s :
  is_digits s = true -> String.length s = 1%nat -> digits_value s <= 9.
Proof.
  destruct s as [|c [|c' s]]; try discriminate. intros H _.
  cbn [is_digits all_chars] in H. rewrite andb_true_r in H.
  unfold digits_value. cbn [parseInt_go]. rewrite H.
  unfold is_digit in H. apply andb_true_iff in H as [_ H]. apply N.leb_le in H.
  unfold digit_value. lia.
Qed.

Lemma pad2_length v : 0 <= v -> (2 <= String.length (pad2 v))%nat.
Proof.
  intros Hv. pose proof (of_number_digits v Hv) as Hd.
  pose proof (digits_value_of_number v Hv) as Hval.
  assert (Hne : (1 <= String.length (of_number v))%nat)
    by (destruct (of_number v); [discriminate Hd|cbn [String.length]; lia]).
  unfold pad2. destruct (Z.ltb_spec v 10).
  - rewrite append_cons, append_nil_l. cbn [String.length]. lia.
  - destruct (Nat.eq_dec (String.length (of_number v)) 1%nat) as [E|E]; [|lia].
    pose proof (single_digit_value _ Hd E). lia.
Qed.

End MinimalColumns.

(** ** Tracks built without a whitelist *)

Section Build.

Import TrackUtils.

Lemma lookup_new (h : list cell) c : (h ++ [c])%list !! length h = Some c.
Proof. rewrite lookup_app_r, Nat.sub_diag by lia. reflexivity. Qed.

Lemma lookup_old (h : list cell) c l x :
  h !! l = Some x -> (h ++ [c])%list !! l = Some x.
Proof.
  intros H. rewrite lookup_app_l; [exact H|]. apply lookup_lt_Some in H. exact H.
Qed.

Lemma own_name_whole data requester n :
  own (KStr n) (whole_track data requester)
  = own (KStr n) (track_literal data requester).
Proof. apply own_app_name. Qed.

Lemma own_tag_whole data requester :
  own (KSym TRACK_SYMBOL) (whole_track data requester) = Some tag_property /\
  own (KSym UNRESOLVED_TRACK_SYMBOL) (whole_track data requester) = None.
Proof. split; reflexivity. Qed.

Lemma build_whole st data requester :
  truthy (trackPartial st) = false ->
  build st (Some data) requester
  = (Ok (VRef (length (heap st))),
     State (heap st ++ [CObject (whole_track data requester)])
           (trackPartial st) (manager st)).
Proof.
  intros H. unfold build. rewrite build_object_whole by exact H. reflexivity.
Qed.

Lemma checks_of_track (h : list cell) l o :
  h !! l = Some (CObject o) ->
  own (KSym TRACK_SYMBOL) o = Some tag_property ->
  own (KSym UNRESOLVED_TRACK_SYMBOL) o = None ->
  isTrack h (VRef l) = Ok true /\ isUnresolvedTrack h (VRef l) = Ok false /\
  validate h (VRef l) = Ok true.
Proof.
  intros Hl Ht Hu. unfold isTrack, isUnresolvedTrack, validate, either_tag.
  unfold as_array, get, read. rewrite Hl, Ht, Hu. repeat split; reflexivity.
Qed.

Lemma checks_of_unresolved (h : list cell) l o :
  h !! l = Some (CObject o) ->
  own (KSym UNRESOLVED_TRACK_SYMBOL) o = Some tag_property ->
  own (KSym TRACK_SYMBOL) o = None ->
  isUnresolvedTrack h (VRef l) = Ok true /\ isTrack h (VRef l) = Ok false /\
  validate h (VRef l) = Ok true.
Proof.
  intros Hl Hu Ht. unfold isTrack, isUnresolvedTrack, validate, either_tag.
  unfold as_array, get, read. rewrite Hl, Ht, Hu. repeat split; reflexivity.
Qed.

Lemma build_throws st data requester e st' :
  build st data requester = (Throw e, st') ->
  st' = st /\
  match data with
  | None => e = RangeError ("Argument " ++ dq ++ "data" ++ dq ++ " must be present.")
  | Some d =>
      exists detail,
        build_object (heap st) (trackPartial st) d requester = Throw detail /\
        e = RangeError ("Argument " ++ dq ++ "data" ++ dq
                        ++ " is not a valid track: " ++ error_message detail)
  end.
Proof.
  unfold build. destruct data as [d|].
  - destruct (build_object (heap st) (trackPartial st) d requester) as [o|x] eqn:E.
    + cbn [alloc]. discriminate.
    + intros [= <- <-]. split; [reflexivity|]. exists x. auto.
  - intros [= <- <-]. auto.
Qed.

Lemma displayThumbnail_uri data this size uri :
  read this (KStr "uri") = VStr uri ->
  displayThumbnail data this size
  = Ok (if includes uri "youtube"
        then VStr (thumbnail_url (i_identifier (d_info data))
                     match size with
                     | VStr s => if existsb (String.eqb s) SIZES then s else "default"
                     | _ => "default"
                     end)
        else VNull).
Proof.
  intros Hu. unfold displayThumbnail, thumbnail_url. rewrite Hu. cbv zeta.
  destruct (includes uri "youtube"); [|reflexivity]. do 4 f_equal.
  destruct size as [| |b|n|s|f|l]; try reflexivity.
  unfold SIZES. cbn [List.find existsb].
  repeat match goal with
         | |- context [String.eqb ?a s] =>
             rewrite (String.eqb_sym a s); destruct (String.eqb_spec s a) as [->|]
         end; reflexivity.
Qed.

Lemma own_filter_kept wl n (o : object) :
  own (KStr n) (List.filter (kept wl) o)
  = if array_includes wl n then own (KStr n) o else None.
Proof.
  induction o as [|[k p] o IH]; [destruct (array_includes wl n); reflexivity|].
  cbn [List.filter]. unfold kept at 1. cbn [fst].
  destruct k as [m|y].
  - destruct (array_includes wl m) eqn:Em; cbn [own key_eqb].
    + destruct (String.eqb_spec n m) as [->|Hne]; [rewrite Em; reflexivity|].
      exact IH.
    + rewrite IH. destruct (String.eqb_spec n m) as [->|Hne];
        [rewrite Em; reflexivity|reflexivity].
  - cbn [own key_eqb]. exact IH.
Qed.

End Build.

(** ** Unresolved tracks as [buildUnresolved] makes them *)

Section BuildUnresolved.

Import TrackUtils.

Lemma own_spread src :
  forall (o : object) k,
    (~ In k (map fst src) -> own k (spread o src) = own k o) /\
    (NoDup (map fst src) ->
     forall v, In (k, v) src -> own k (spread o src) = Some (plain v)).
Proof.
  unfold spread.
  induction src as [|[k1 v1] src IH]; intros o k; cbn [fold_left map fst snd].
  - split; [reflexivity|]. intros _ v [].
  - destruct (IH (put k1 (plain v1) o) k) as [I1 I2]. split.
    + intros Hn. rewrite I1 by (intros H; apply Hn; right; exact H).
      apply own_put_other. intros ->. apply Hn. left. reflexivity.
    + intros Hnd v Hin. apply NoDup_cons in Hnd as [Hk1 Hnd].
      destruct Hin as [[= -> ->]|Hin]; [|apply I2; assumption].
      rewrite I1; [apply own_put_same|].
      intros H. apply Hk1. apply list_elem_of_In. exact H.
Qed.

Lemma own_NoDup (o : object) k p :
  NoDup (map fst o) -> In (k, p) o -> own k o = Some p.
Proof.
  induction o as [|[k' p'] o IH]; intros Hnd Hin; [destruct Hin|].
  cbn [map fst] in Hnd. apply NoDup_cons in Hnd as [Hk Hnd].
  cbn [own]. destruct (key_eqb_spec k k') as [->|Hne].
  - destruct Hin as [[= ->]|Hin]; [reflexivity|].
    exfalso. apply Hk. apply list_elem_of_In.
    change k' with (fst (k', p)). apply in_map. exact Hin.
  - destruct Hin as [[= -> ->]|Hin]; [contradiction|]. apply IH; assumption.
Qed.

Lemma enumerable_own_In (o : object) :
  hidden_tags o ->
  forall k v, In (k, v) (enumerable_own o)
              <-> exists p, In (k, p) o /\ enumerable p = true /\ v = p_value p.
Proof.
  intros Hh k v. unfold enumerable_own. rewrite in_map_iff. split.
  - intros ([k' p] & [= <- <-] & Hin). exists p.
    apply in_app_or in Hin. cbn [fst snd].
    destruct Hin as [Hin|Hin]; apply filter_In in Hin as [Hin _];
      apply filter_In in Hin as [Hin He]; auto.
  - intros (p & Hin & He & ->). exists (k, p). split; [reflexivity|].
    apply in_or_app. destruct k as [n|y].
    + left. apply filter_In. split; [|reflexivity]. apply filter_In. auto.
    + rewrite (Hh y p Hin) in He. discriminate He.
Qed.

Lemma enumerable_own_NoDup (o : object) :
  hidden_tags o -> NoDup (map fst o) -> NoDup (map fst (enumerable_own o)).
Proof.
  intros Hh Hnd. unfold enumerable_own. rewrite map_map. cbn [fst].
  assert (E : List.filter (fun kp : key * property => negb (is_name (fst kp)))
                (List.filter (fun kp => enumerable (snd kp)) o) = []).
  { induction o as [|[k p] o IH]; [reflexivity|].
    assert (Hh' : hidden_tags o) by (intros y q Hin; apply (Hh y q); right; exact Hin).
    apply NoDup_cons in Hnd as [_ Hnd]. cbn [List.filter snd].
    destruct (enumerable p) eqn:Ep; [|apply IH; assumption].
    cbn [List.filter fst]. destruct k as [n|y]; cbn [is_name negb].
    - apply IH; assumption.
    - rewrite (Hh y p (or_introl eq_refl)) in Ep. discriminate Ep. }
  rewrite E, app_nil_r.
  clear E Hh. induction o as [|[k p] o IH]; [constructor|].
  cbn [map fst] in Hnd. apply NoDup_cons in Hnd as [Hk Hnd].
  cbn [List.filter snd]. destruct (enumerable p); cbn [List.filter fst].
  - destruct (is_name k); [|apply IH, Hnd]. cbn [map fst].
    apply NoDup_cons. split; [|apply IH, Hnd].
    intros Hin. apply Hk. apply list_elem_of_In in Hin. apply list_elem_of_In.
    apply in_map_iff in Hin as (kp & <- & Hin).
    apply filter_In in Hin as [Hin _]. apply filter_In in Hin as [Hin _].
    apply in_map. exact Hin.
  - apply IH, Hnd.
Qed.

Lemma buildUnresolved_from_object st l (q : object) requester :
  heap st !! l = Some (CObject q) -> hidden_tags q ->
  let o := (spread (unresolved_literal requester) (enumerable_own q)
            ++ [(KSym UNRESOLVED_TRACK_SYMBOL, tag_property)])%list in
  buildUnresolved st (VRef l) requester
  = (Ok (VRef (length (heap st))),
     State (heap st ++ [CObject o]) (trackPartial st) (manager st)) /\
  own (KSym UNRESOLVED_TRACK_SYMBOL) o = Some tag_property /\
  own (KSym TRACK_SYMBOL) o = None.
Proof.
  intros Hl Hh o.
  assert (Hlit : plain_names (unresolved_literal requester) /\
                 only_names (unresolved_literal requester)).
  { split.
    - intros k p [[= <- <-]|[[= <- <-]|[]]]; reflexivity.
    - intros kp [<-|[<-|[]]]; reflexivity. }
  destruct (spread_plain (enumerable_own q) (unresolved_literal requester)
              (enumerable_own_names q Hh) (proj1 Hlit) (proj2 Hlit)) as [Sp Sn].
  destruct (unresolved_object_tagged _ Sp Sn) as (_ & Hu & Ht).
  split; [|split; assumption].
  unfold buildUnresolved. cbn [is_string]. unfold spread_source. rewrite Hl.
  fold (unresolved_literal requester). unfold define_tag.
  rewrite (own_symbol_only_names _ UNRESOLVED_TRACK_SYMBOL Sn).
  rewrite put_absent by (apply own_symbol_only_names, Sn). reflexivity.
Qed.

End BuildUnresolved.

(** ** The lookup of the closest track *)

Section Lookup.

Import TrackUtils.

Lemma getClosestTrack_unresolved st l (o : object) m :
  heap st !! l = Some (CObject o) ->
  read o (KSym UNRESOLVED_TRACK_SYMBOL) = VBool true ->
  manager st = Some m ->
  getClosestTrack st (VRef l)
  = bind (search m (search_query o) (read o (KStr "requester"))) (fun res =>
    match loadType res with
    | SEARCH_RESULT =>
        closest (read o (KStr "author")) (read o (KStr "title"))
                (read o (KStr "duration")) (tracks res)
    | _ => Throw (ThrownException (refusal res))
    end).
Proof.
  intros Hl Ht Hm. unfold getClosestTrack, isUnresolvedTrack, get.
  rewrite Hm, Hl, Ht. reflexivity.
Qed.

Lemma closest_of_none author title duration :
  closest author title duration [] = Ok None.
Proof. unfold closest. destruct (truthy author), (truthy duration); reflexivity. Qed.

Lemma closest_none author title duration tracks :
  closest author title duration tracks = Ok None -> tracks = [].
Proof.
  unfold closest.
  destruct (if truthy author then _ else _) as [[c|]|e]; cbn [bind];
    try discriminate.
  destruct (if truthy duration then _ else _) as [[c|]|e]; cbn [bind];
    try discriminate.
  destruct tracks; [reflexivity|discriminate].
Qed.

Lemma validate_each_app (h : list cell) pre rest :
  tags_true h -> Forall (fun e => tagged h e = true) pre ->
  validate_each h (pre ++ rest) = validate_each h rest.
Proof.
  intros Htags H. induction H as [|e pre He _ IH]; [reflexivity|].
  cbn [app validate_each].
  destruct (value_absent_dec e) as [Habs|[H1 H2]].
  - destruct (either_tag_absent h e Habs) as [_ Hf]. congruence.
  - destruct (either_tag_tagged h Htags e H1 H2) as (t & -> & Tt & _).
    cbn [bind]. rewrite Tt, He. exact IH.
Qed.

End Lookup.

(** ** A title that is not a string *)

Section Untitled.

Import TrackUtils.



End Untitled.
(** * Weeks in [formatTime] *)

(** C5, as stated, fails: the minimal rendering has a weeks column between
    months and days.  One month and one day is rendered in six columns,
    with 00 for the weeks before the day, and not in the five columns
    months:days:hours:minutes:seconds. *)
Lemma month_and_day_have_a_weeks_column_between :
  formatTime 2714400000 true = "01:00:01:00:00:00" /\
  formatTime 2714400000 true <> "01:01:00:00:00" /\
  split_char ":" (formatTime 2714400000 true)
  = ["01"; "00"; "01"; "00"; "00"; "00"].
Proof. vm_compute. repeat split; discriminate || reflexivity. Qed.

Lemma decomposition_days_bound ms : 0 <= days (decomposition ms) <= 6.
Proof.
  unfold decomposition. cbn [days].
  set (r3 := _ mod 604800000).
  assert (0 <= r3 < 604800000) by (apply Z.mod_pos_bound; lia).
  split; [apply Z.div_pos; lia|].
  apply Z.lt_succ_r, Z.div_lt_upper_bound; lia.
Qed.

Lemma decomposition_weeks ms :
  0 < ms ->
  0 <= weeks (decomposition ms) /\
  (weeks (decomposition ms) = 0 <-> whole_weeks ms = 0).
Proof.
  intros H. unfold decomposition, whole_weeks. cbn [weeks].
  Z.div_mod_to_equations. lia.
Qed.

Lemma rendered_names_weeks t :
  0 <= weeks t -> (In "weeks" (map fst (rendered t)) <-> weeks t <> 0).
Proof.
  intros Hw. unfold rendered, entries. cbn [List.filter snd].
  destruct (Z.gtb_spec (weeks t) 0) as [Hgt|Hle].
  - split; [lia|]. intros _.
    destruct (years t >? 0), (months t >? 0); cbn [map fst In]; auto 10.
  - split; [|lia]. intros Hin. exfalso.
    destruct (years t >? 0), (months t >? 0), (days t >? 0), (hours t >? 0),
      (minutes t >? 0), (seconds t >? 0);
      cbn [map fst In] in Hin; intuition discriminate.
Qed.

(** The columns of a duration of one month or more, from the weeks on. *)
Lemma columns_from_a_month t :
  0 <= years t -> 0 <= months t -> 0 <= weeks t -> 0 <= days t ->
  0 <= hours t -> 0 <= minutes t -> 0 <= seconds t ->
  years t <> 0 \/ months t <> 0 ->
  exists pre,
    (pre = [pad2 (months t)] \/ pre = [pad2 (years t); pad2 (months t)]) /\
    render true t
    = join ":" (pre ++ [pad2 (weeks t); pad2 (days t); pad2 (hours t);
                        pad2 (minutes t); pad2 (seconds t)]).
Proof.
  intros Hy Hm Hw Hd Hh Hmi Hs Hnz.
  destruct (Z.eqb_spec (years t) 0) as [Ey|Ey].
  - exists [pad2 (months t)]. split; [left; reflexivity|].
    rewrite (render_columns t
               ([pad2 (months t)]
                ++ [pad2 (weeks t); pad2 (days t); pad2 (hours t);
                    pad2 (minutes t); pad2 (seconds t)])).
    + reflexivity.
    + unfold columns, entries. cbn [from_first_nonzero snd].
      destruct (Z.eqb_spec (years t) 0); [|contradiction].
      destruct (Z.eqb_spec (months t) 0); [lia|]. reflexivity.
    + repeat (apply List.Forall_cons; [apply pad2_digits; assumption|]).
      apply List.Forall_nil.
  - exists [pad2 (years t); pad2 (months t)]. split; [right; reflexivity|].
    rewrite (render_columns t
               ([pad2 (years t); pad2 (months t)]
                ++ [pad2 (weeks t); pad2 (days t); pad2 (hours t);
                    pad2 (minutes t); pad2 (seconds t)])).
    + reflexivity.
    + unfold columns, entries. cbn [from_first_nonzero snd].
      destruct (Z.eqb_spec (years t) 0); [contradiction|]. reflexivity.
    + repeat (apply List.Forall_cons; [apply pad2_digits; assumption|]).
      apply List.Forall_nil.
Qed.

(** C5, amended. Whole weeks are counted in an entry of their own, listed
    between months and days, and never reach the day count.  The entries
    are years, months, weeks, days, hours, minutes, seconds.  For every
    duration above zero and up to [MAX_SAFE_INTEGER] the loop ends with a
    day count between 0 and 6 and a weeks counter that is zero exactly when
    no whole week is left after the years and months; from one month on,
    the minimal rendering has a weeks column between the months column and
    the days column; and the rendering that is not minimal names the weeks
    entry exactly when a whole week is left. *)
Theorem weeks_are_a_column_of_their_own (ms : Z)
  (Hpos : 0 < ms) (Hsafe : ms <= MAX_SAFE_INTEGER) :
  (forall t, map fst (entries t) =
             ["years"; "months"; "weeks"; "days"; "hours"; "minutes"; "seconds"]) /\
  exists t,
    decompose (decompose_fuel ms) ms zero_times = Some t /\
    0 <= days t <= 6 /\
    (weeks t = 0 <-> whole_weeks ms = 0) /\
    (2628000000 <= ms ->
     exists pre,
       (pre = [pad2 (months t)] \/ pre = [pad2 (years t); pad2 (months t)]) /\
       formatTime ms true
       = join ":" (pre ++ [pad2 (weeks t); pad2 (days t); pad2 (hours t);
                           pad2 (minutes t); pad2 (seconds t)])) /\
    formatTime ms false = sentence (rendered t) /\
    (In "weeks" (map fst (rendered t)) <-> whole_weeks ms <> 0).
Proof.
  split; [reflexivity|]. exists (decomposition ms).
  assert (E : (ms <=? 0) = false) by (apply Z.leb_gt; lia).
  pose proof (decomposition_weeks ms Hpos) as [Hw0 Hw].
  pose proof (decomposition_ranges ms Hpos) as R. cbv zeta in R.
  split; [rewrite decompose_total, E; reflexivity|].
  split; [apply decomposition_days_bound|]. split; [exact Hw|].
  split; [|split].
  - intros Hmonth. rewrite formatTime_render, E by lia.
    apply columns_from_a_month; try lia.
    clear R Hw Hw0 Hsafe. unfold decomposition. cbn [years months].
    Z.div_mod_to_equations. lia.
  - rewrite formatTime_render, E by lia. apply render_sentence.
  - rewrite rendered_names_weeks by exact Hw0. rewrite Hw. reflexivity.
Qed.

Lemma weeks_are_a_column_of_their_own_witness :
  exists t,
    decompose (decompose_fuel 2714400000) 2714400000 zero_times = Some t /\
    0 <= days t <= 6 /\
    formatTime 2714400000 false = sentence (rendered t).
Proof.
  destruct (weeks_are_a_column_of_their_own 2714400000)
    as (_ & t & Ht & Hd & _ & _ & Hs & _); [lia|vm_compute; discriminate|].
  exists t. auto.
Defined.

(** * Further properties of the duration codec *)

(** X1. [formatTime] keeps a duration to within half a second.  For every
    duration above zero and up to [MAX_SAFE_INTEGER] the loop ends, both
    renderings are made from its counters, the counters stay in their
    ranges (months up to 12, days up to 6, hours up to 23, minutes up to
    59, seconds up to 60), the weeks counter is zero exactly when no whole
    week is left after the years and months, and the milliseconds that the
    whole weeks left and the other counters stand for differ from the
    input by no more than 500. *)
Theorem formatTime_counts_within_half_a_second (ms : Z)
  (H : 0 < ms) (Hsafe : ms <= MAX_SAFE_INTEGER) :
  exists t,
    decompose (decompose_fuel ms) ms zero_times = Some t /\
    (forall minimal, formatTime ms minimal = render minimal t) /\
    0 <= years t /\ 0 <= months t <= 12 /\
    (0 <= weeks t /\ (weeks t = 0 <-> whole_weeks ms = 0)) /\
    0 <= days t <= 6 /\ 0 <= hours t <= 23 /\ 0 <= minutes t <= 59 /\
    0 <= seconds t <= 60 /\
    0 <= whole_weeks ms <= 4 /\
    -500 < millis_beside_weeks (whole_weeks ms) t - ms <= 500.
Proof.
  exists (decomposition ms).
  assert (E : (ms <=? 0) = false) by (apply Z.leb_gt; lia).
  split; [rewrite decompose_total, E; reflexivity|].
  split; [intros minimal; rewrite formatTime_render, E by lia; reflexivity|].
  clear Hsafe.
  unfold decomposition, millis_beside_weeks, whole_weeks, round_div.
  cbn [years months weeks days hours minutes seconds].
  Z.div_mod_to_equations. lia.
Qed.

Lemma formatTime_counts_within_half_a_second_witness :
  exists t,
    decompose (decompose_fuel 90061499) 90061499 zero_times = Some t /\
    -500 < millis_beside_weeks (whole_weeks 90061499) t - 90061499 <= 500.
Proof.
  destruct (formatTime_counts_within_half_a_second 90061499) as (t & Ht & H);
    [lia|vm_compute; discriminate|].
  exists t. split; [exact Ht|]. apply H.
Defined.

(** X2. The seconds counter is rounded and never carried.  For a duration
    above zero and up to [MAX_SAFE_INTEGER] it is the last minute's
    milliseconds rounded to the nearest second, so it reaches 60 exactly
    when at least 59500 ms of the last minute are left, and the minutes
    counter is that of the input all the same.  A duration from 59500 ms
    to just under one minute is rendered as 60 seconds. *)
Theorem formatTime_seconds_reach_sixty (ms : Z)
  (H : 0 < ms) (Hsafe : ms <= MAX_SAFE_INTEGER) :
  exists t,
    decompose (decompose_fuel ms) ms zero_times = Some t /\
    seconds t = round_div (ms mod 60000) 1000 /\
    (seconds t = 60 <-> 59500 <= ms mod 60000) /\
    minutes t = ms mod 3600000 / 60000 /\
    (59500 <= ms < 60000 ->
     formatTime ms true = "00:60" /\ formatTime ms false = "60 seconds").
Proof.
  exists (decomposition ms).
  assert (E : (ms <=? 0) = false) by (apply Z.leb_gt; lia).
  split; [rewrite decompose_total, E; reflexivity|].
  assert (R : ms mod 31557600000 mod 2628000000 mod 604800000 mod 86400000
                 mod 3600000 mod 60000 = ms mod 60000)
    by (Z.div_mod_to_equations; lia).
  assert (S60 : seconds (decomposition ms) = round_div (ms mod 60000) 1000)
    by (unfold decomposition; cbn [seconds]; rewrite R; reflexivity).
  split; [exact S60|]. split; [|split].
  - rewrite S60. unfold round_div. Z.div_mod_to_equations. lia.
  - unfold decomposition. cbn [minutes]. Z.div_mod_to_equations. lia.
  - intros Hms. rewrite !formatTime_render, E by lia.
    replace (decomposition ms) with (Times 0 0 0 0 0 0 60);
      [split; vm_compute; reflexivity|].
    unfold decomposition, round_div.
    rewrite !(Z.mod_small ms) by lia. rewrite !(Z.div_small ms) by lia.
    replace ((2 * ms + 1000) / (2 * 1000)) with 60
      by (Z.div_mod_to_equations; lia).
    reflexivity.
Qed.

Lemma formatTime_seconds_reach_sixty_witness :
  formatTime 59999 true = "00:60" /\ formatTime 59999 false = "60 seconds".
Proof.
  destruct (formatTime_seconds_reach_sixty 59999) as (t & _ & _ & _ & _ & H);
    [lia|vm_compute; discriminate|].
  apply H. lia.
Defined.

(** X3. [parseTime] reads a colon-separated time of two to seven columns of
    digits from its last column: seconds, minutes, hours, days, weeks,
    months, years.  The result is the sum of the columns times the
    milliseconds of their units, and null when that sum is 0; so
    ["m:s"] is m minutes and s seconds.  Stated for sums up to
    [MAX_SAFE_INTEGER], where the arithmetic of JavaScript is exact. *)
Theorem parseTime_reads_columns (ds : list string)
  (Hd : Forall (fun d => is_digits d = true) ds)
  (Hlen : (2 <= length ds <= 7)%nat)
  (Hsafe : columns_millis ds <= MAX_SAFE_INTEGER) :
  parseTime (join ":" ds) = nonzero (columns_millis ds) /\
  (forall m s, ds = [m; s] ->
     parseTime (m ++ ":" ++ s)
     = nonzero (digits_value s * 1000 + digits_value m * 60000)) /\
  (forall h m s, ds = [h; m; s] ->
     parseTime (h ++ ":" ++ m ++ ":" ++ s)
     = nonzero (digits_value s * 1000 + digits_value m * 60000
                + digits_value h * 3600000)).
Proof.
  pose proof (parseTime_columns ds Hd Hlen) as P.
  split; [exact P|]. split.
  - intros m s ->. rewrite join_cons2 in P. cbn [join] in P. rewrite P.
    unfold columns_millis.
    cbn [rev app zip_with column_weights sum_Z fold_right]. f_equal. lia.
  - intros h m s ->. rewrite !join_cons2 in P. cbn [join] in P. rewrite P.
    unfold columns_millis.
    cbn [rev app zip_with column_weights sum_Z fold_right]. f_equal. lia.
Qed.

Lemma parseTime_reads_columns_witness :
  parseTime "1:02:03" = Some 3723000.
Proof.
  destruct (parseTime_reads_columns ["1"; "02"; "03"]) as (_ & _ & H).
  - repeat constructor.
  - cbn. lia.
  - vm_compute. discriminate.
  - apply (H "1" "02" "03"). reflexivity.
Defined.

(** X4. The minimal rendering parses back.  For every duration from 500 ms to
    just under one week, [parseTime] of the minimal [formatTime] is the
    duration rounded to the nearest second, hence the duration itself when
    it is made of whole seconds.  From one week on this fails, since the
    weeks column counts 7 for every week: one week comes back as seven. *)
Theorem minimal_format_parses_back (ms : Z) (H : 500 <= ms < 604800000) :
  parseTime (formatTime ms true) = Some (1000 * round_div ms 1000) /\
  (ms mod 1000 = 0 -> parseTime (formatTime ms true) = Some ms) /\
  parseTime (formatTime 604800000 true) = Some (7 * 604800000).
Proof.
  assert (E : parseTime (formatTime ms true) = Some (1000 * round_div ms 1000)).
  { rewrite formatTime_render by lia.
    replace (ms <=? 0) with false by (symmetry; apply Z.leb_gt; lia).
    rewrite decomposition_small by lia.
    pose proof (rounded_total ms ltac:(lia)) as T.
    assert (P : 0 < round_div ms 1000)
      by (unfold round_div; Z.div_mod_to_equations; lia).
    destruct (render_minimal_small
                (ms / 86400000) (ms mod 86400000 / 3600000)
                (ms mod 86400000 mod 3600000 / 60000)
                (round_div (ms mod 86400000 mod 3600000 mod 60000) 1000))
      as (ds & Hds & Hlen & -> & V);
      try (unfold round_div; Z.div_mod_to_equations; lia).
    rewrite parseTime_columns, V, T by assumption.
    unfold nonzero. destruct (Z.eqb_spec (1000 * round_div ms 1000) 0);
      [lia|reflexivity]. }
  split; [exact E|]. split.
  - intros Hm. rewrite E. f_equal. unfold round_div.
    Z.div_mod_to_equations. lia.
  - vm_compute. reflexivity.
Qed.

Lemma minimal_format_parses_back_witness :
  parseTime (formatTime 93784000 true) = Some 93784000.
Proof.
  destruct (minimal_format_parses_back 93784000) as (_ & H & _); [lia|].
  apply H. reflexivity.
Defined.

(** X5. [parseTime] adds up its tokens.  For numbers (runs of digits) each
    followed by a unit word that is, in any case, one of the twenty
    spellings of [unit_table], the string made of these tokens parses to
    the sum over the tokens of the number times the milliseconds of the
    unit, and to null when that sum is 0.  Stated for sums up to
    [MAX_SAFE_INTEGER], where the arithmetic of JavaScript is exact. *)
Theorem parseTime_sums_its_tokens (l : list (string * string))
  (Hnum : Forall (fun au => is_digits (fst au) = true) l)
  (Hunit : Forall (fun au => In (toLowerCase (snd au)) (map fst unit_table)) l)
  (Hsafe : sum_Z (map token_value l) <= MAX_SAFE_INTEGER) :
  parseTime (concat_all (map token l)) = nonzero (sum_Z (map token_value l)) /\
  (forall au, In au l ->
     exists w, In (toLowerCase (snd au), w) unit_table /\
               token_value au = digits_value (fst au) * w).
Proof.
  split; [apply parseTime_token_list; assumption|].
  intros [a u] Hin. rewrite List.Forall_forall in Hunit.
  specialize (Hunit _ Hin). cbn [fst snd] in *.
  unfold token_value, unit_weight. cbn [fst snd].
  cbn [map fst unit_table In] in Hunit.
  repeat (destruct Hunit as [Hunit|Hunit];
          [rewrite <- Hunit; eexists; split;
           [|vm_compute List.find; cbn [snd]; reflexivity];
           vm_compute; repeat ((left; reflexivity) || right)|]).
  contradiction.
Qed.

Lemma parseTime_sums_its_tokens_witness :
  parseTime "1h30M15seconds" = Some 5415000.
Proof.
  destruct (parseTime_sums_its_tokens [("1", "h"); ("30", "M"); ("15", "seconds")])
    as [H _].
  - repeat constructor.
  - repeat (apply List.Forall_cons;
            [vm_compute; repeat ((left; reflexivity) || right)|]).
    apply List.Forall_nil.
  - vm_compute. discriminate.
  - exact H.
Defined.

(** X6. A string of digits alone is a number of seconds: it parses to its
    value times 1000, and to null when the value is 0.  Stated for values
    whose product with 1000 is at most [MAX_SAFE_INTEGER], where the
    arithmetic of JavaScript is exact. *)
Theorem parseTime_bare_number_is_seconds (a : string)
  (Ha : is_digits a = true)
  (Hsafe : digits_value a * 1000 <= MAX_SAFE_INTEGER) :
  parseTime a = nonzero (digits_value a * 1000) /\
  (parseTime a = None <-> digits_value a = 0).
Proof.
  pose proof (parseTime_digits a Ha) as P. split; [exact P|].
  rewrite P. unfold nonzero.
  destruct (Z.eqb_spec (digits_value a * 1000) 0); split;
    intros; try discriminate; try reflexivity; lia.
Qed.

Lemma parseTime_bare_number_is_seconds_witness :
  parseTime "90" = Some 90000.
Proof.
  assert (Hsafe : digits_value "90" * 1000 <= MAX_SAFE_INTEGER)
    by (vm_compute; discriminate).
  destruct (parseTime_bare_number_is_seconds "90" eq_refl Hsafe) as [H _].
  exact H.
Defined.

(** X7. Once a string without a colon holds a space, all its whitespace is
    ignored: it parses as the string with every whitespace character
    (tab, line feed, vertical tab, form feed, carriage return, space and
    no-break space) removed. *)
Theorem parseTime_ignores_whitespace (time : string)
  (Hcolon : includes time ":" = false) (Hspace : includes time " " = true) :
  parseTime time = parseTime (strip time).
Proof.
  rewrite includes_char in Hcolon, Hspace.
  unfold parseTime. rewrite (normalise_strip time Hcolon Hspace). reflexivity.
Qed.

Lemma parseTime_ignores_whitespace_witness :
  parseTime "1 h  30 m" = parseTime "1h30m".
Proof. apply (parseTime_ignores_whitespace "1 h  30 m"); reflexivity. Defined.

(** X8. A string that holds no digit parses to null; the empty string does. *)
Theorem parseTime_needs_a_digit (time : string)
  (H : all_chars not_digit time = true) :
  parseTime time = None.
Proof.
  unfold parseTime. cbv zeta. cbn [parse_loop]. unfold exec.
  cbn [Nat.ltb Nat.leb]. rewrite drop_0.
  rewrite search_no_digit by (apply normalise_no_digit, H). reflexivity.
Qed.

Lemma parseTime_needs_a_digit_witness :
  parseTime "soon: an hour" = None /\ parseTime EmptyString = None.
Proof.
  split.
  - apply (parseTime_needs_a_digit "soon: an hour"). reflexivity.
  - apply (parseTime_needs_a_digit EmptyString). reflexivity.
Defined.

(** X9. [parseTime] answers on every string: its loop ends within the turns
    the embedding gives it, with a total that is not negative; the result
    is null exactly when the total is 0, and a number above 0 otherwise. *)
Theorem parseTime_is_null_or_positive (time : string) :
  (exists total,
     parse_loop (S (String.length (normalise time))) (normalise time) 0 0
     = Some total /\
     0 <= total /\ parseTime time = nonzero total) /\
  (forall d, parseTime time = Some d -> 0 < d).
Proof.
  destruct (parse_loop_total (normalise time)) as [total Ht].
  pose proof (parse_loop_grows _ _ _ _ _ Ht) as Hpos.
  assert (E : parseTime time = nonzero total)
    by (unfold parseTime; cbv zeta; rewrite Ht; reflexivity).
  split; [exists total; auto|].
  intros d. rewrite E. unfold nonzero.
  destruct (Z.eqb_spec total 0); [discriminate|]. intros [= <-]. lia.
Qed.

(** X10. The shape of the minimal rendering.  For a duration above zero and
    up to [MAX_SAFE_INTEGER], the minimal rendering is the colon-joined
    list of the counters from the first one that is not zero, each written
    with at least two digits, with a column 00 put in front when a single
    counter is left.  From 500 ms on it has between two and seven columns,
    and splitting it at the colons gives these columns back. *)
Theorem formatTime_minimal_columns (ms : Z)
  (H : 0 < ms) (Hsafe : ms <= MAX_SAFE_INTEGER) :
  exists t,
    decompose (decompose_fuel ms) ms zero_times = Some t /\
    let rest := from_first_nonzero (entries t) in
    let cols := ((if (length rest =? 1)%nat then ["00"] else [])
                 ++ map (fun e => pad2 (snd e)) rest)%list in
    formatTime ms true = join ":" cols /\
    (rest = [] \/ exists k v tl, rest = (k, v) :: tl /\ v <> 0) /\
    (exists pre, entries t = (pre ++ rest)%list) /\
    Forall (fun c => is_digits c = true /\ (2 <= String.length c)%nat) cols /\
    (500 <= ms ->
     (2 <= length cols <= 7)%nat /\ split_char ":" (formatTime ms true) = cols).
Proof.
  exists (decomposition ms).
  assert (E : (ms <=? 0) = false) by (apply Z.leb_gt; lia).
  split; [rewrite decompose_total, E; reflexivity|].
  intros rest cols.
  pose proof (entries_nonneg ms H) as Hnn.
  destruct (from_first_nonzero_suffix (entries (decomposition ms))) as [pre Hpre].
  fold rest in Hpre.
  assert (Hrest : Forall (fun e => 0 <= snd e) rest).
  { rewrite Hpre in Hnn. apply List.Forall_app in Hnn. apply Hnn. }
  assert (Hcols : Forall (fun c => is_digits c = true /\ (2 <= String.length c)%nat)
                         cols).
  { unfold cols. apply List.Forall_app. split.
    - destruct (length rest =? 1)%nat; repeat constructor.
    - clear -Hrest. induction Hrest as [|e es He _ IH]; constructor; [|exact IH].
      split; [apply pad2_digits, He|apply pad2_length, He]. }
  assert (Hdig : Forall (fun c => is_digits c = true) cols)
    by (eapply List.Forall_impl; [|exact Hcols]; cbn beta; intros c [Hc _]; exact Hc).
  assert (F : formatTime ms true = join ":" cols).
  { rewrite formatTime_render, E by lia.
    rewrite (render_columns _ (map (fun e => pad2 (snd e)) rest)).
    - rewrite length_map. unfold cols. destruct (length rest =? 1)%nat; reflexivity.
    - reflexivity.
    - unfold cols in Hdig. apply List.Forall_app in Hdig. apply Hdig. }
  split; [exact F|]. split; [apply from_first_nonzero_head|].
  split; [exists pre; exact Hpre|]. split; [exact Hcols|].
  intros H500.
  assert (Hlen : (2 <= length cols <= 7)%nat).
  { assert (L7 : (length rest <= 7)%nat).
    { apply (f_equal (@length _)) in Hpre. rewrite length_app in Hpre.
      change (length (entries (decomposition ms))) with 7%nat in Hpre.
      revert Hpre. generalize (length pre), (length rest). intros; lia. }
    assert (L1 : (1 <= length rest)%nat).
    { destruct rest as [|e r] eqn:Er; [|cbn [length]; lia]. exfalso.
      apply from_first_nonzero_nil in Er.
      unfold entries, decomposition in Er.
      repeat match goal with
             | Hf : Forall _ (_ :: _) |- _ => inversion Hf; subst; clear Hf
             end.
      cbn [snd years months weeks days hours minutes seconds] in *.
      clear F Hpre Hnn Hrest Hcols Hdig L7 Hsafe. unfold round_div in *.
      Z.div_mod_to_equations. lia. }
    unfold cols. rewrite length_app, length_map.
    destruct (Nat.eqb_spec (length rest) 1); cbn [length]; lia. }
  split; [exact Hlen|]. rewrite F. apply split_join.
  - intros ->. cbn [length] in Hlen. lia.
  - eapply List.Forall_impl; [|exact Hdig]. cbn beta. intros c Hc.
    apply has_char_digits; [reflexivity|apply is_digits_spec, Hc].
Qed.

Lemma formatTime_minimal_columns_witness :
  split_char ":" (formatTime 3723000 true) = ["01"; "02"; "03"].
Proof.
  destruct (formatTime_minimal_columns 3723000) as (t & Ht & _ & _ & _ & _ & Hs);
    [lia|vm_compute; discriminate|].
  destruct Hs as [_ Hs]; [lia|]. rewrite Hs.
  vm_compute in Ht. injection Ht as <-. reflexivity.
Defined.

(** X11. The sentence of the full rendering.  For a duration above zero and
    up to [MAX_SAFE_INTEGER], the rendering that is not minimal lists the
    counters above zero, largest unit first, each as the count, a space and
    the unit word, which loses its final "s" when the count is 1; the
    phrases are joined by a comma and a space, and the last comma is
    replaced by " and ", so that two spaces follow the "and". *)
Theorem formatTime_writes_a_sentence (ms : Z)
  (H : 0 < ms) (Hsafe : ms <= MAX_SAFE_INTEGER) :
  exists t,
    decompose (decompose_fuel ms) ms zero_times = Some t /\
    formatTime ms false = sentence (rendered t) /\
    rendered t = List.filter (fun kv => snd kv >? 0) (entries t) /\
    (forall e, rendered t = [e] -> formatTime ms false = phrase e) /\
    (forall e1 e2, rendered t = [e1; e2] ->
       formatTime ms false = phrase e1 ++ " and " ++ " " ++ phrase e2) /\
    (forall e1 e2 e3, rendered t = [e1; e2; e3] ->
       formatTime ms false
       = phrase e1 ++ ", " ++ phrase e2 ++ " and " ++ " " ++ phrase e3) /\
    (forall k v, phrase (k, v)
                 = of_number v ++ " " ++ (if v >? 1 then k else dropLast k)).
Proof.
  exists (decomposition ms).
  assert (E : (ms <=? 0) = false) by (apply Z.leb_gt; lia).
  split; [rewrite decompose_total, E; reflexivity|].
  assert (F : formatTime ms false = sentence (rendered (decomposition ms)))
    by (rewrite formatTime_render, E by lia; apply render_sentence).
  split; [exact F|]. split; [reflexivity|].
  rewrite F.
  split; [intros e ->; reflexivity|].
  split; [intros e1 e2 ->; reflexivity|].
  split; [intros e1 e2 e3 ->; reflexivity|].
  reflexivity.
Qed.

Lemma formatTime_writes_a_sentence_witness :
  formatTime 3661000 false = "1 hour, 1 minute and  1 second".
Proof.
  destruct (formatTime_writes_a_sentence 3661000)
    as (t & Ht & _ & _ & _ & _ & H3 & _); [lia|vm_compute; discriminate|].
  vm_compute in Ht. injection Ht as <-.
  rewrite (H3 ("hours", 1) ("minutes", 1) ("seconds", 1)); reflexivity.
Defined.

(** * Further properties of [TrackUtils] *)

(** X12. Without a whitelist, [build] keeps every field.  In a state whose
    [trackPartial] is not set, [build] returns a new object whose keys are
    the eleven keys of the literal, in its order, holding the fields of the
    data and the requester; its thumbnail is the default thumbnail of the
    identifier when the address includes "youtube" and null otherwise.  The
    object passes [isTrack] and [validate] and fails [isUnresolvedTrack];
    the whitelist, the manager and the objects that existed stay as they
    were. *)
Theorem build_keeps_every_field (st : TrackUtils.state)
  (data : TrackUtils.TrackData) (requester : value)
  (Hnone : truthy (TrackUtils.trackPartial st) = false) :
  exists o st',
    TrackUtils.build st (Some data) requester
    = (Ok (VRef (length (TrackUtils.heap st))), st') /\
    TrackUtils.heap st' = (TrackUtils.heap st ++ [CObject o])%list /\
    TrackUtils.trackPartial st' = TrackUtils.trackPartial st /\
    TrackUtils.manager st' = TrackUtils.manager st /\
    keys o = track_fields /\ getOwnPropertyNames o = track_fields /\
    (let info := TrackUtils.d_info data in
     read o (KStr "track") = VStr (TrackUtils.d_track data) /\
     read o (KStr "title") = VStr (TrackUtils.i_title info) /\
     read o (KStr "identifier") = VStr (TrackUtils.i_identifier info) /\
     read o (KStr "author") = VStr (TrackUtils.i_author info) /\
     read o (KStr "duration") = VNum (TrackUtils.i_length info) /\
     read o (KStr "isSeekable") = VBool (TrackUtils.i_isSeekable info) /\
     read o (KStr "isStream") = VBool (TrackUtils.i_isStream info) /\
     read o (KStr "uri") = VStr (TrackUtils.i_uri info) /\
     read o (KStr "thumbnail")
     = (if includes (TrackUtils.i_uri info) "youtube"
        then VStr (thumbnail_url (TrackUtils.i_identifier info) "default")
        else VNull) /\
     read o (KStr "requester") = requester) /\
    TrackUtils.isTrack (TrackUtils.heap st') (VRef (length (TrackUtils.heap st)))
    = Ok true /\
    TrackUtils.isUnresolvedTrack (TrackUtils.heap st')
                                 (VRef (length (TrackUtils.heap st)))
    = Ok false /\
    TrackUtils.validate (TrackUtils.heap st') (VRef (length (TrackUtils.heap st)))
    = Ok true /\
    (forall l c, TrackUtils.heap st !! l = Some c ->
                 TrackUtils.heap st' !! l = Some c).
Proof.
  exists (whole_track data requester). eexists.
  split; [apply build_whole, Hnone|]. cbn [TrackUtils.heap TrackUtils.trackPartial
                                           TrackUtils.manager].
  destruct (own_tag_whole data requester) as [Ht Hu].
  destruct (checks_of_track _ _ _ (lookup_new (TrackUtils.heap st) _) Ht Hu)
    as (C1 & C2 & C3).
  cbv zeta.
  repeat match goal with |- _ /\ _ => split end;
    try reflexivity; try assumption.
  intros l c. apply lookup_old.
Qed.

Lemma build_keeps_every_field_witness :
  exists o st',
    TrackUtils.build TrackUtils.initial (Some example_data) (VStr "me")
    = (Ok (VRef 0), st') /\
    TrackUtils.heap st' = [CObject o] /\
    read o (KStr "thumbnail")
    = VStr "https://img.youtube.com/vi/dQw4w9WgXcQ/default.jpg".
Proof.
  destruct (build_keeps_every_field TrackUtils.initial example_data (VStr "me")
              eq_refl)
    as (o & st' & Hb & Hh & _ & _ & _ & _ & Hf & _).
  exists o, st'. split; [exact Hb|]. split; [exact Hh|].
  destruct Hf as (_ & _ & _ & _ & _ & _ & _ & _ & Ht & _). rewrite Ht. reflexivity.
Defined.

(** X13. On data of the shape [TrackData], [build] throws nothing but a
    [RangeError], and changes nothing when it throws.  Without data the
    message says that the data must be present; with data, it names the
    error raised inside the [try] block, which such data raise only when
    [trackPartial] holds a truthy value without a method [includes], one
    that is neither an array nor a string. *)
Theorem build_throws_only_range_errors (st st' : TrackUtils.state)
  (data : option TrackUtils.TrackData) (requester : value) (e : error)
  (Hthrow : TrackUtils.build st data requester = (Throw e, st')) :
  st' = st /\
  (exists msg, e = RangeError msg) /\
  (data = None ->
   e = RangeError ("Argument " ++ dq ++ "data" ++ dq ++ " must be present.")) /\
  (forall d, data = Some d ->
     (exists detail,
        e = RangeError ("Argument " ++ dq ++ "data" ++ dq
                        ++ " is not a valid track: " ++ detail)) /\
     truthy (TrackUtils.trackPartial st) = true /\
     TrackUtils.partial_includes (TrackUtils.heap st) (TrackUtils.trackPartial st)
     = None /\
     as_array (TrackUtils.heap st) (TrackUtils.trackPartial st) = None /\
     (forall s, TrackUtils.trackPartial st <> VStr s)).
Proof.
  destruct (build_throws _ _ _ _ _ Hthrow) as [-> H]. split; [reflexivity|].
  destruct data as [d|].
  - destruct H as (detail & Hd & ->).
    split; [eauto|]. split; [discriminate|]. intros d' [= <-].
    split; [eauto|].
    destruct (truthy (TrackUtils.trackPartial st)) eqn:Et.
    + split; [reflexivity|].
      unfold TrackUtils.build_object in Hd. rewrite Et in Hd.
      destruct (TrackUtils.partial_includes (TrackUtils.heap st)
                  (TrackUtils.trackPartial st)) as [keep|] eqn:Ek.
      { rewrite project_spec in Hd by apply track_literal_plain.
        cbn [bind] in Hd. unfold define_tag in Hd.
        rewrite own_symbol_only_names in Hd
          by (apply only_names_filter, track_literal_names).
        discriminate Hd. }
      split; [reflexivity|]. unfold TrackUtils.partial_includes in Ek.
      destruct (TrackUtils.trackPartial st); try discriminate Ek;
        (split; [|discriminate]);
        destruct (as_array _ _); (reflexivity || discriminate Ek).
    + rewrite build_object_whole in Hd by exact Et. discriminate Hd.
  - subst e. split; [eauto|]. split; [reflexivity|]. discriminate.
Qed.

Lemma build_throws_only_range_errors_witness :
  snd (TrackUtils.build (TrackUtils.State [] (VNum 1) None) (Some example_data)
                        VUndefined)
  = TrackUtils.State [] (VNum 1) None.
Proof.
  destruct (build_throws_only_range_errors
              (TrackUtils.State [] (VNum 1) None)
              (snd (TrackUtils.build (TrackUtils.State [] (VNum 1) None)
                                     (Some example_data) VUndefined))
              (Some example_data) VUndefined
              (RangeError ("Argument " ++ dq ++ "data" ++ dq
                           ++ " is not a valid track: "
                           ++ "this.trackPartial.includes is not a function"))
              eq_refl) as (H & _).
  exact H.
Defined.

(** X14. [displayThumbnail] of a built track.  On the object [build] makes
    without a whitelist, the method returns null when the address does not
    include "youtube" and otherwise the thumbnail of the identifier in the
    size asked for; a size left out, and any size that is not one of the
    eight known ones, gives the default thumbnail, which is the [thumbnail]
    field.  On a track built under a whitelist that leaves out "uri", the
    method throws a [TypeError] whatever the size. *)
Theorem displayThumbnail_of_a_built_track (data : TrackUtils.TrackData)
  (requester : value) :
  let info := TrackUtils.d_info data in
  let o := whole_track data requester in
  TrackUtils.displayThumbnail data o VUndefined = Ok (read o (KStr "thumbnail")) /\
  (forall s, In s TrackUtils.SIZES ->
     TrackUtils.displayThumbnail data o (VStr s)
     = Ok (if includes (TrackUtils.i_uri info) "youtube"
           then VStr (thumbnail_url (TrackUtils.i_identifier info) s)
           else VNull)) /\
  (forall size, (forall s, size = VStr s -> ~ In s TrackUtils.SIZES) ->
     TrackUtils.displayThumbnail data o size
     = TrackUtils.displayThumbnail data o (VStr "default")) /\
  (forall wl size,
     TrackUtils.array_includes wl "uri" = false ->
     exists msg,
       TrackUtils.displayThumbnail data
         (List.filter (kept wl) (TrackUtils.track_literal data requester)
          ++ [(KSym TRACK_SYMBOL, tag_property)])%list size
       = Throw (TypeError msg)).
Proof.
  intros info o.
  assert (Hu : read o (KStr "uri") = VStr (TrackUtils.i_uri info)) by reflexivity.
  split; [|split; [|split]].
  - rewrite (displayThumbnail_uri _ _ _ _ Hu). reflexivity.
  - intros s Hs. rewrite (displayThumbnail_uri _ _ _ _ Hu).
    replace (existsb (String.eqb s) TrackUtils.SIZES) with true; [reflexivity|].
    symmetry. apply existsb_exists. exists s. split; [exact Hs|apply String.eqb_refl].
  - intros size Hsize. rewrite !(displayThumbnail_uri _ _ _ _ Hu).
    destruct size as [| |b|n|s|f|l]; try reflexivity.
    replace (existsb (String.eqb s) TrackUtils.SIZES) with false; [reflexivity|].
    symmetry. apply not_true_is_false. intros Hex.
    apply existsb_exists in Hex as (x & Hx & Heq).
    apply String.eqb_eq in Heq. subst x. exact (Hsize s eq_refl Hx).
  - intros wl size Hwl. unfold TrackUtils.displayThumbnail, read.
    rewrite own_app_name.
    replace (own (KStr "uri")
               (List.filter (kept wl) (TrackUtils.track_literal data requester)))
      with (@None property); [eexists; reflexivity|].
    rewrite own_filter_kept, Hwl. reflexivity.
Qed.

(** X15. [buildUnresolved] from a title.  Given a string, it returns a new
    object whose own names are requester, resolve and title, in this
    order, with the string as its title; the object passes
    [isUnresolvedTrack] and [validate] and fails [isTrack], and nothing
    else in the state changes.  Given [undefined], it throws a
    [RangeError] and changes nothing. *)
Theorem buildUnresolved_from_a_title (st : TrackUtils.state) (title : string)
  (requester : value) :
  (exists o st',
     TrackUtils.buildUnresolved st (VStr title) requester
     = (Ok (VRef (length (TrackUtils.heap st))), st') /\
     TrackUtils.heap st' = (TrackUtils.heap st ++ [CObject o])%list /\
     TrackUtils.trackPartial st' = TrackUtils.trackPartial st /\
     TrackUtils.manager st' = TrackUtils.manager st /\
     getOwnPropertyNames o = ["requester"; "resolve"; "title"] /\
     keys o = ["requester"; "resolve"; "title"] /\
     read o (KStr "title") = VStr title /\
     read o (KStr "requester") = requester /\
     read o (KStr "resolve") = VFun "resolve" /\
     TrackUtils.isUnresolvedTrack (TrackUtils.heap st')
                                  (VRef (length (TrackUtils.heap st))) = Ok true /\
     TrackUtils.isTrack (TrackUtils.heap st')
                        (VRef (length (TrackUtils.heap st))) = Ok false /\
     TrackUtils.validate (TrackUtils.heap st')
                         (VRef (length (TrackUtils.heap st))) = Ok true /\
     (forall l c, TrackUtils.heap st !! l = Some c ->
                  TrackUtils.heap st' !! l = Some c)) /\
  TrackUtils.buildUnresolved st VUndefined requester
  = (Throw (RangeError ("Argument " ++ dq ++ "query" ++ dq ++ " must be present.")),
     st).
Proof.
  split; [|reflexivity].
  eexists. eexists. split; [reflexivity|].
  cbn [TrackUtils.heap TrackUtils.trackPartial TrackUtils.manager].
  match goal with
  | |- context [(TrackUtils.heap st ++ [CObject ?o])%list] =>
      destruct (checks_of_unresolved _ _ o (lookup_new (TrackUtils.heap st) _)
                  eq_refl eq_refl) as (C1 & C2 & C3)
  end.
  repeat match goal with |- _ /\ _ => split end;
    try reflexivity; try assumption.
  intros l c. apply lookup_old.
Qed.

(** X16. [buildUnresolved] from a query object.  Given an object of the heap
    whose keys are distinct and whose tags are hidden, it returns a new
    object that holds every enumerable own field of the query with its
    value, and the requester and the [resolve] method under the names the
    query does not hold as enumerable fields.  The new object carries the
    unresolved tag and no resolved tag, whatever tag the query carries, and
    the query itself is not changed. *)
Theorem buildUnresolved_copies_the_query (st : TrackUtils.state) (l : nat)
  (q : object) (requester : value)
  (Hl : TrackUtils.heap st !! l = Some (CObject q))
  (Hhidden : hidden_tags q) (Hkeys : NoDup (map fst q)) :
  exists o st',
    TrackUtils.buildUnresolved st (VRef l) requester
    = (Ok (VRef (length (TrackUtils.heap st))), st') /\
    TrackUtils.heap st' = (TrackUtils.heap st ++ [CObject o])%list /\
    (forall n p, own (KStr n) q = Some p -> enumerable p = true ->
                 read o (KStr n) = p_value p) /\
    (forall n, (forall p, own (KStr n) q = Some p -> enumerable p = false) ->
               read o (KStr n) = read (unresolved_literal requester) (KStr n)) /\
    TrackUtils.isUnresolvedTrack (TrackUtils.heap st')
                                 (VRef (length (TrackUtils.heap st))) = Ok true /\
    TrackUtils.isTrack (TrackUtils.heap st')
                       (VRef (length (TrackUtils.heap st))) = Ok false /\
    TrackUtils.heap st' !! l = Some (CObject q).
Proof.
  destruct (buildUnresolved_from_object st l q requester Hl Hhidden)
    as (Hb & Hu & Ht).
  eexists. eexists. split; [exact Hb|].
  cbn [TrackUtils.heap].
  destruct (checks_of_unresolved _ _ _ (lookup_new (TrackUtils.heap st) _) Hu Ht)
    as (C1 & C2 & _).
  split; [reflexivity|]. split; [|split; [|split; [exact C1|split; [exact C2|]]]].
  - intros n p Hown He. unfold read. rewrite own_app_name.
    destruct (own_spread (enumerable_own q) (unresolved_literal requester) (KStr n))
      as [_ S2].
    rewrite (S2 (enumerable_own_NoDup q Hhidden Hkeys) (p_value p)); [reflexivity|].
    apply enumerable_own_In; [exact Hhidden|]. exists p.
    split; [apply own_In, Hown|auto].
  - intros n Hn. unfold read. rewrite own_app_name.
    destruct (own_spread (enumerable_own q) (unresolved_literal requester) (KStr n))
      as [S1 _].
    rewrite S1; [reflexivity|]. intros Hin.
    apply in_map_iff in Hin as ([k v] & Hk & Hin). cbn [fst] in Hk. subst k.
    apply (enumerable_own_In q Hhidden) in Hin as (p & Hin & He & _).
    rewrite (Hn p (own_NoDup q _ _ Hkeys Hin)) in He. discriminate He.
  - apply lookup_old, Hl.
Qed.

Lemma buildUnresolved_copies_the_query_witness :
  exists o st',
    TrackUtils.buildUnresolved (TrackUtils.State [CObject example_query] VNull None)
                               (VRef 0) (VStr "me")
    = (Ok (VRef 1), st') /\
    TrackUtils.heap st' = [CObject example_query; CObject o] /\
    read o (KStr "author") = VStr "X" /\
    read o (KStr "requester") = VStr "me".
Proof.
  destruct (buildUnresolved_copies_the_query
              (TrackUtils.State [CObject example_query] VNull None) 0
              example_query (VStr "me") eq_refl)
    as (o & st' & Hb & Hh & Hcopy & Hrest & _).
  - intros y p Hin.
    repeat (destruct Hin as [Hin|Hin]; [discriminate Hin|]). contradiction.
  - unfold example_query. cbn [map fst].
    repeat (constructor;
            [intros Hin; apply list_elem_of_In in Hin; cbn [In] in Hin;
             intuition discriminate|]).
    constructor.
  - exists o, st'. split; [exact Hb|]. split; [exact Hh|]. split.
    + apply (Hcopy "author" (plain (VStr "X"))); reflexivity.
    + rewrite Hrest; [reflexivity|]. intros p [=].
Defined.

(** X17. The guards of [getClosestTrack], in their order.  Without a manager it
    throws the manager error on every argument, [undefined] included; with
    one, it throws on [undefined], and on every value that
    [isUnresolvedTrack] answers false for, without asking the provider.  A
    track made by [build] is such a value, so [getClosestTrack] refuses
    it. *)
Theorem getClosestTrack_guards (st : TrackUtils.state) :
  (TrackUtils.manager st = None ->
   forall v, TrackUtils.getClosestTrack st v
             = Throw (RangeError "Manager has not been initiated.")) /\
  (forall m, TrackUtils.manager st = Some m ->
     TrackUtils.getClosestTrack st VUndefined
     = Throw (RangeError "Provided argument must be present.") /\
     forall v, TrackUtils.isUnresolvedTrack (TrackUtils.heap st) v = Ok false ->
               TrackUtils.getClosestTrack st v
               = Throw (RangeError "Provided track is not a UnresolvedTrack.")) /\
  (forall m data requester,
     truthy (TrackUtils.trackPartial st) = false ->
     TrackUtils.getClosestTrack
       (TrackUtils.init (snd (TrackUtils.build st (Some data) requester)) m)
       (VRef (length (TrackUtils.heap st)))
     = Throw (RangeError "Provided track is not a UnresolvedTrack.")).
Proof.
  split; [|split].
  - intros Hm v. unfold TrackUtils.getClosestTrack. rewrite Hm. reflexivity.
  - intros m Hm. unfold TrackUtils.getClosestTrack. rewrite Hm.
    split; [reflexivity|]. intros v ->. reflexivity.
  - intros m data requester Hp. rewrite build_whole by exact Hp. cbn [snd].
    destruct (own_tag_whole data requester) as [Ht Hu].
    destruct (checks_of_track _ _ _ (lookup_new (TrackUtils.heap st) _) Ht Hu)
      as (_ & C2 & _).
    unfold TrackUtils.getClosestTrack, TrackUtils.init.
    cbn [TrackUtils.manager TrackUtils.heap]. rewrite C2. reflexivity.
Qed.



(** X19. The selection returns one of the candidates.  Whenever it returns, its
    result is a member of the list the provider handed over, and it is
    [undefined] exactly when that list is empty; on the empty list it
    returns [undefined] without throwing, whatever the fields of the
    unresolved track are. *)
Theorem closest_returns_a_candidate (author title duration : value)
  (tracks : list object) (r : option object)
  (H : TrackUtils.closest author title duration tracks = Ok r) :
  (r = None <-> tracks = []) /\
  (forall c, r = Some c -> In c tracks) /\
  (forall a t d, TrackUtils.closest a t d [] = Ok None).
Proof.
  split; [|split].
  - split.
    + intros ->. apply (closest_none _ _ _ _ H).
    + intros ->. rewrite closest_of_none in H. congruence.
  - intros c ->. apply (closest_member _ _ _ _ _ H).
  - apply closest_of_none.
Qed.

Lemma closest_returns_a_candidate_witness :
  In candidate_near [candidate_far; candidate_near].
Proof.
  destruct (closest_returns_a_candidate (VStr "X") (VStr "Song") (VNum 100000)
              [candidate_far; candidate_near] (Some candidate_near))
    as (_ & H & _).
  - vm_compute. reflexivity.
  - apply (H candidate_near). reflexivity.
Defined.

(** X20. [resolve()] on an empty search result.  When the provider answers
    SEARCH_RESULT with no track, the lookup returns [undefined] and
    [resolve()] completes: it deletes every own string-named property of
    the object and copies nothing, so the object is left without a field,
    still carrying its unresolved tag. *)
Theorem resolve_on_no_candidates (st : TrackUtils.state) (l : nat) (o : object)
  (m : TrackUtils.Manager) (exc : option Exception)
  (Hl : TrackUtils.heap st !! l = Some (CObject o))
  (Ho : unresolved_object o)
  (Hm : TrackUtils.manager st = Some m)
  (Hs : forall q r,
      TrackUtils.search m q r
      = Ok (TrackUtils.MkSearchResult TrackUtils.SEARCH_RESULT [] exc)) :
  TrackUtils.getClosestTrack st (VRef l) = Ok None /\
  exists o2 st2,
    TrackUtils.resolve st (VRef l) = (Ok tt, st2) /\
    TrackUtils.heap st2 !! l = Some (CObject o2) /\
    getOwnPropertyNames o2 = [] /\
    TrackUtils.isUnresolvedTrack (TrackUtils.heap st2) (VRef l) = Ok true /\
    TrackUtils.isTrack (TrackUtils.heap st2) (VRef l) = Ok false.
Proof.
  assert (Htag : read o (KSym UNRESOLVED_TRACK_SYMBOL) = VBool true).
  { destruct Ho as (_ & Hu & _). unfold read. rewrite Hu. reflexivity. }
  assert (G : TrackUtils.getClosestTrack st (VRef l) = Ok None).
  { rewrite (getClosestTrack_unresolved st l o m Hl Htag Hm), Hs.
    cbn [bind TrackUtils.loadType TrackUtils.tracks]. apply closest_of_none. }
  split; [exact G|].
  assert (Hp : forall m', TrackUtils.manager st = Some m' -> provider_hides_tags m').
  { intros m' Hm'. rewrite Hm in Hm'. injection Hm' as <-.
    intros q r res Hres. rewrite Hs in Hres. injection Hres as <-. constructor. }
  destruct (resolve_spec st l o Hl Ho Hp) as [_ R].
  destruct (R None G) as (o2 & Hr & (Hp2 & Hu2 & Ht2) & Hn & _).
  assert (Hl2 : (<[l := CObject o2]> (TrackUtils.heap st)) !! l = Some (CObject o2))
    by (apply list_lookup_insert_eq; apply lookup_lt_Some in Hl; exact Hl).
  exists o2. eexists. split; [exact Hr|]. cbn [TrackUtils.heap].
  split; [exact Hl2|]. split.
  - destruct (getOwnPropertyNames o2) as [|n ns]; [reflexivity|].
    exfalso. apply (Hn n). left. reflexivity.
  - destruct (checks_of_unresolved _ _ _ Hl2 Hu2 Ht2) as (C1 & C2 & _). auto.
Qed.

Lemma resolve_on_no_candidates_witness :
  exists o2 st2,
    TrackUtils.resolve silent_built (VRef 0) = (Ok tt, st2) /\
    TrackUtils.heap st2 !! 0%nat = Some (CObject o2) /\
    getOwnPropertyNames o2 = [].
Proof.
  destruct (resolve_on_no_candidates silent_built 0 (object_at silent_built 0)
              silent_provider None eq_refl)
    as (_ & o2 & st2 & Hr & Hh & Hn & _).
  - split; [|split; reflexivity].
    intros k p Hin. vm_compute in Hin.
    repeat (destruct Hin as [Hin|Hin];
            [first [discriminate Hin|injection Hin as <- <-; reflexivity]|]).
    contradiction.
  - reflexivity.
  - intros q r. reflexivity.
  - exists o2, st2. auto.
Defined.

(** X21. The whitelist is the array of the caller, held by reference.  After
    [setTrackPartial] has accepted an array, calling it again with the same
    array changes nothing; and [build] reads the array as it is when a
    track is built, so that after the caller has changed the contents of
    the array, the keys of a new track are the track fields the changed
    array names. *)
Theorem whitelist_is_held_by_reference (st st1 : TrackUtils.state)
  (partial : value)
  (Hset : TrackUtils.setTrackPartial st partial = (Ok tt, st1)) :
  TrackUtils.setTrackPartial st1 partial = (Ok tt, st1) /\
  exists l elems,
    partial = VRef l /\ TrackUtils.trackPartial st1 = VRef l /\
    TrackUtils.heap st1 !! l = Some (CArray elems) /\
    forall elems' data requester,
      let st2 := TrackUtils.State (<[l := CArray elems']> (TrackUtils.heap st1))
                                  (TrackUtils.trackPartial st1)
                                  (TrackUtils.manager st1) in
      exists o st3,
        TrackUtils.build st2 (Some data) requester
        = (Ok (VRef (length (TrackUtils.heap st2))), st3) /\
        TrackUtils.heap st3 = (TrackUtils.heap st2 ++ [CObject o])%list /\
        keys o = List.filter (TrackUtils.array_includes elems') track_fields.
Proof.
  unfold TrackUtils.setTrackPartial in Hset.
  destruct (as_array (TrackUtils.heap st) partial) as [elems|] eqn:Ea;
    [|discriminate Hset].
  destruct (as_array_ref _ _ _ Ea) as (l & -> & Hl).
  destruct (forallb is_string elems) eqn:Es; [|discriminate Hset].
  injection Hset as <-. fold (whitelist elems).
  assert (Hlt : (l < length (TrackUtils.heap st))%nat)
    by (apply lookup_lt_Some in Hl; exact Hl).
  assert (Hl1 : (<[l := CArray (whitelist elems)]> (TrackUtils.heap st)) !! l
                = Some (CArray (whitelist elems)))
    by (apply list_lookup_insert_eq, Hlt).
  split.
  - unfold TrackUtils.setTrackPartial, as_array. cbn [TrackUtils.heap].
    rewrite Hl1.
    replace (forallb is_string (whitelist elems)) with true
      by (unfold whitelist; destruct (TrackUtils.array_includes elems "track");
          [symmetry; exact Es|cbn [forallb is_string]; symmetry; exact Es]).
    rewrite whitelist_includes_track, list_insert_insert_eq. reflexivity.
  - exists l, (whitelist elems). split; [reflexivity|]. split; [reflexivity|].
    split; [exact Hl1|].
    intros elems' data requester st2.
    destruct (build_under_whitelist st2 (VRef l) elems' data requester eq_refl)
      as (B1 & _ & B3 & _).
    { unfold as_array, st2. cbn [TrackUtils.heap].
      rewrite list_lookup_insert_eq by (rewrite length_insert; exact Hlt).
      reflexivity. }
    eexists. eexists. split; [exact B1|]. split; [reflexivity|exact B3].
Qed.

Lemma whitelist_is_held_by_reference_witness :
  exists o st3,
    TrackUtils.build (TrackUtils.State [CArray [VStr "uri"]] (VRef 0) None)
                     (Some example_data) VUndefined
    = (Ok (VRef 1), st3) /\
    TrackUtils.heap st3 = [CArray [VStr "uri"]; CObject o] /\
    keys o = ["uri"].
Proof.
  destruct (whitelist_is_held_by_reference title_only
              (TrackUtils.State [CArray [VStr "track"; VStr "title"]] (VRef 0) None)
              (VRef 0) eq_refl)
    as (_ & l & elems & Hp & _ & _ & H).
  injection Hp as <-.
  destruct (H [VStr "uri"] example_data VUndefined) as (o & st3 & Hb & Hh & Hk).
  exists o, st3. split; [exact Hb|]. split; [exact Hh|]. rewrite Hk. reflexivity.
Defined.

(** X22. [null], primitives and mixed arrays in the checks.  On [null] the
    three checks throw a [TypeError], not the [RangeError] of [undefined];
    on a boolean, a number, a string or a function they answer false.  On
    an array [validate] stops at the first element that fails: when every
    element before it carries a tag, an object without a tag makes it
    answer false whatever follows, and a [null] or [undefined] element
    makes it throw the [TypeError]. *)
Theorem validate_on_null_and_mixed_arrays (h : list cell)
  (Htags : tags_true h) :
  let unreadable := TypeError "Cannot read properties of undefined or null" in
  (TrackUtils.validate h VNull = Throw unreadable /\
   TrackUtils.isTrack h VNull = Throw unreadable /\
   TrackUtils.isUnresolvedTrack h VNull = Throw unreadable) /\
  (forall v,
     match v with VBool _ | VNum _ | VStr _ | VFun _ => True | _ => False end ->
     TrackUtils.validate h v = Ok false /\ TrackUtils.isTrack h v = Ok false /\
     TrackUtils.isUnresolvedTrack h v = Ok false) /\
  (forall v pre bad post,
     as_array h v = Some (pre ++ bad :: post)%list ->
     Forall (fun e => tagged h e = true) pre ->
     bad <> VUndefined -> bad <> VNull -> tagged h bad = false ->
     TrackUtils.validate h v = Ok false) /\
  (forall v pre bad post,
     as_array h v = Some (pre ++ bad :: post)%list ->
     Forall (fun e => tagged h e = true) pre ->
     bad = VUndefined \/ bad = VNull ->
     TrackUtils.validate h v = Throw unreadable).
Proof.
  intros unreadable.
  assert (V : forall v pre bad post,
             as_array h v = Some (pre ++ bad :: post)%list ->
             Forall (fun e => tagged h e = true) pre ->
             TrackUtils.validate h v
             = TrackUtils.validate_each h (bad :: post)).
  { intros v pre bad post Ha Hpre.
    destruct (as_array_ref _ _ _ Ha) as (l & -> & _).
    unfold TrackUtils.validate. rewrite Ha.
    rewrite <- (validate_each_app h pre (bad :: post) Htags Hpre).
    destruct pre; reflexivity. }
  split; [repeat split; reflexivity|]. split; [|split].
  - intros v Hv. destruct v; try contradiction; repeat split; reflexivity.
  - intros v pre bad post Ha Hpre H1 H2 Hbad. rewrite (V _ _ _ _ Ha Hpre).
    cbn [TrackUtils.validate_each].
    destruct (either_tag_tagged h Htags bad H1 H2) as (t & -> & Tt & _).
    cbn [bind]. rewrite Tt, Hbad. reflexivity.
  - intros v pre bad post Ha Hpre Hbad. rewrite (V _ _ _ _ Ha Hpre).
    destruct Hbad as [-> | ->]; reflexivity.
Qed.

Lemma validate_on_null_and_mixed_arrays_witness :
  TrackUtils.validate mixed_heap (VRef 2)
  = Throw (TypeError "Cannot read properties of undefined or null") /\
  TrackUtils.validate mixed_heap (VRef 3) = Ok false.
Proof.
  assert (Htags : tags_true mixed_heap).
  { intros l o y p Hl Hp.
    destruct l as [|[|[|[|l]]]]; try discriminate Hl; injection Hl as <-.
    - destruct y; vm_compute in Hp; [injection Hp as <-; reflexivity|discriminate].
    - discriminate Hp. }
  destruct (validate_on_null_and_mixed_arrays mixed_heap Htags)
    as (_ & _ & Hfalse & Hthrow).
  split.
  - apply (Hthrow (VRef 2) [VRef 0] VNull []); [reflexivity| |auto].
    constructor; [reflexivity|constructor].
  - apply (Hfalse (VRef 3) [] (VRef 1) [VNull]);
      [reflexivity|constructor|discriminate|discriminate|reflexivity].
Defined.



(** * A further property of [Structure] *)

(** X24. [extend] touches one binding only: after [extend(name, fn)] for a
    name other than "__proto__", every other name holds what it held and
    [get] of it answers as before, and an [extend] that throws leaves every
    binding as it was. *)
Theorem extend_leaves_the_other_roles (reg reg' : gmap string value)
  (name other : string) (fn : value -> outcome value) (r : outcome value)
  (Hother : other <> name)
  (Hext : Structure.extend reg name fn = Some (r, reg')) :
  Structure.get reg' other = Structure.get reg other /\
  Structure.lookup reg' other = Structure.lookup reg other /\
  reg' !! other = reg !! other /\
  (forall e, r = Throw e -> reg' = reg).
Proof.
  unfold Structure.extend in Hext.
  destruct (String.eqb name "__proto__"); [discriminate|].
  injection Hext as Hext.
  assert (H : (reg' = reg /\ exists e, r = Throw e)
              \/ exists v, r = Ok v /\ reg' = <[name := v]> reg).
  { destruct (truthy (Structure.lookup reg name)); cbn [negb] in Hext.
    - destruct (fn (Structure.lookup reg name)) as [v|e];
        injection Hext as <- <-; [right|left]; eauto.
    - injection Hext as <- <-. left. eauto. }
  destruct H as [[-> _]|(v & -> & ->)].
  - repeat split.
  - assert (L : Structure.lookup (<[name := v]> reg) other
                = Structure.lookup reg other)
      by (unfold Structure.lookup; rewrite lookup_insert_ne by congruence;
          reflexivity).
    split; [unfold Structure.get; rewrite L; reflexivity|].
    split; [exact L|]. split; [apply lookup_insert_ne; congruence|].
    discriminate.
Qed.

Lemma extend_leaves_the_other_roles_witness :
  Structure.get (<["Queue" := VFun "MyQueue"]> loaded) "Player"
  = Structure.get loaded "Player".
Proof.
  apply (extend_leaves_the_other_roles loaded _ "Queue" "Player"
           (fun _ => Ok (VFun "MyQueue")) (Ok (VFun "MyQueue"))).
  - discriminate.
  - reflexivity.
Defined.
